(** * Paint shop production sequence optimizer

    A shallow embedding of [paint_shop_optimizer.py] (class
    [PaintShopOptimizer]) and the properties of its stages: paint
    distribution analysis, ideal positions, the MILP model that is handed
    to the solver, solution extraction, the assignment of vehicles to
    batches, timestamps and summary metrics.

    Conventions of the embedding:
    - Python [int] and NumPy [int64] values are [Z]; where the two behave
      differently (the division in [calculate_ideal_positions]) the value
      carries its kind ([integer]); [numpy.float64] values are the
      primitive binary64 floats of [PrimFloat];
    - a pandas [DataFrame] is the list of its rows, in row order; a cell
      that is missing (NaN) is [None];
    - a Python exception is [Raise] with the name of the exception class;
    - a method of the class is a computation over the object [self] that
      either returns a value or raises, and leaves the (possibly mutated)
      object behind in both cases. *)

From Stdlib Require Import ZArith QArith Floats Uint63 Lia Ascii.
From stdpp Require Import base list strings gmap sorting pretty.

Local Open Scope Z_scope.

(** ** Exceptions *)

Inductive result (A : Type) : Type :=
| Ok (a : A)
| Raise (exc : string).
Arguments Ok {A} a.
Arguments Raise {A} exc.

#[global] Instance result_eq_dec {A : Type} `{EqDecision A} : EqDecision (result A).
Proof. solve_decision. Defined.

Definition rbind {A B : Type} (m : result A) (k : A -> result B) : result B :=
  match m with
  | Ok a => k a
  | Raise e => Raise e
  end.

Declare Scope result_scope.
Delimit Scope result_scope with result.
Notation "'do' x <- m ; k" := (rbind m (fun x => k))
  (at level 10, x name, m at level 100, k at level 200) : result_scope.
Local Open Scope result_scope.

(** A comprehension or [for] loop whose body may raise: the first exception
    aborts the loop. *)
Fixpoint for_each {A B : Type} (f : A -> result B) (l : list A) : result (list B) :=
  match l with
  | [] => Ok []
  | a :: l' => do b <- f a; do bs <- for_each f l'; Ok (b :: bs)
  end.

(** [range(n)] and [range(1, n)]. *)
Definition range (n : Z) : list Z := seqZ 0 n.
Definition range_from (m n : Z) : list Z := seqZ m (n - m).

(** ** Integers and floating point

    An integer that reaches [calculate_ideal_positions] is a Python [int]
    (the documented argument type) or a NumPy [int64] (what
    [optimize_sequence_milp] passes: the cells of the summary and the sum of
    a column). In a statement a number that stands for an [integer] is a
    NumPy [int64]. *)
Inductive integer : Type :=
| py_int (n : Z)
| np_int64 (n : Z).

Coercion np_int64 : Z >-> integer.

Definition int_value (n : integer) : Z :=
  match n with
  | py_int z => z
  | np_int64 z => z
  end.

(** The conversion of an integer to binary64, for integers of fewer than 64
    bits (exact below 2^53, rounded to nearest above). *)
Definition float_of_int (z : Z) : float :=
  if z <? 0 then PrimFloat.opp (PrimFloat.of_uint63 (Uint63.of_Z (- z)))
  else PrimFloat.of_uint63 (Uint63.of_Z z).

(** [a / b], the true division. Between two Python [int]s a divisor of zero
    raises [ZeroDivisionError]; as soon as one operand is a NumPy [int64]
    the division is NumPy's, in which a quotient by zero is an infinity or
    a NaN (with a warning). In both cases the quotient of operands below
    2^53 in absolute value is the binary64 quotient of their conversions. *)
Definition true_divide (a b : integer) : result float :=
  match a, b with
  | py_int x, py_int y =>
      if y =? 0 then Raise "ZeroDivisionError"
      else Ok (PrimFloat.div (float_of_int x) (float_of_int y))
  | _, _ => Ok (PrimFloat.div (float_of_int (int_value a)) (float_of_int (int_value b)))
  end.

(** [int(f)]: raises on a NaN ([ValueError]) and on an infinity
    ([OverflowError]). *)
Definition int_of_float (f : float) : result Z :=
  match Prim2SF f with
  | S754_zero _ => Ok 0
  | S754_finite s m e =>
      let a := match e with
               | Z0 => Zpos m
               | Zpos p => Zpos m * 2 ^ Zpos p
               | Zneg p => Zpos m / 2 ^ Zpos p
               end in
      Ok (if s then - a else a)
  | S754_infinity _ => Raise "OverflowError"
  | S754_nan => Raise "ValueError"
  end.

(** ** Data model *)

(** A row of [vehicles_df] (sheet [vehicle_table]). An empty [paint] cell is
    read as NaN. Datetimes are counted in minutes. *)
Record vehicle : Type := Vehicle {
  vin : string;
  paint : option string;
  production_sequence : Z;
  planned_ga_in_datetime : option Z
}.

(** A row of [paint_summary]. *)
Record summary_row : Type := SummaryRow {
  paint_code : string;
  vehicle_count : Z;
  full_batches : Z;
  remainder : Z;
  total_batches : Z
}.

(** A row of the batch sequence returned by [optimize_sequence_milp]. *)
Record batch_row : Type := BatchRow {
  batch_position : Z;
  b_paint_code : string
}.

(** A row of [solution_df]. The column [planned_ga_in_datetime] exists only
    after [update_timestamps]: [s_planned] is [None] before; afterwards it
    holds the cell, itself [None] for NaT. *)
Record solution_row : Type := SolutionRow {
  s_vin : string;
  s_paint : option string;
  s_batch_id : Z;
  s_production_sequence : Z;
  s_original_sequence : Z;
  s_planned : option (option Z)
}.

#[global] Instance vehicle_eq_dec : EqDecision vehicle.
Proof. solve_decision. Defined.
#[global] Instance summary_row_eq_dec : EqDecision summary_row.
Proof. solve_decision. Defined.
#[global] Instance batch_row_eq_dec : EqDecision batch_row.
Proof. solve_decision. Defined.
#[global] Instance solution_row_eq_dec : EqDecision solution_row.
Proof. solve_decision. Defined.

(** ** calculate_ideal_positions *)

(** [i * spacing] is a binary64 product, and [int(...)] truncates towards
    zero. *)
Definition calculate_ideal_positions
    (paint_code : string) (num_batches total_batches : integer) : result (list Z) :=
  if int_value num_batches =? 1 then Ok [int_value total_batches / 2]
  else
    do spacing <- true_divide total_batches num_batches;
    for_each (fun i => int_of_float (PrimFloat.mul (float_of_int i) spacing))
             (range (int_value num_batches)).

(** The positions of the docstring, in exact arithmetic: evenly spaced,
    [floor(i * T / n)]. *)
Definition evenly_spaced (num_batches total_batches : Z) : list Z :=
  if num_batches =? 1 then [total_batches / 2]
  else map (fun i => i * total_batches / num_batches) (range num_batches).

(** ** The MILP model (PuLP)

    The model is data: variables, affine expressions, named constraints
    and an objective, as they are written in [optimize_sequence_milp]. *)

(** The three families of decision variables: [x[c, b]]
    ("batch_assignment"), [y[b]] ("changeover") and [dev[c, i, b]]
    ("deviation"). *)
Inductive LpVariable : Type :=
| batch_assignment (c : string) (b : Z)
| changeover (b : Z)
| deviation (c : string) (i b : Z).

#[global] Instance LpVariable_eq_dec : EqDecision LpVariable.
Proof. solve_decision. Defined.

#[local] Set Warnings "-register-all".
Inductive LpAffineExpression : Type :=
| LpVar (v : LpVariable)
| LpConst (k : Z)
| LpPlus (e1 e2 : LpAffineExpression)
| LpMinus (e1 e2 : LpAffineExpression)
| LpTimes (k : Z) (e : LpAffineExpression)
| lpSum (es : list LpAffineExpression).

Inductive LpSense : Type := LpConstraintLE | LpConstraintEQ | LpConstraintGE.

Record LpConstraint : Type := Constraint {
  c_lhs : LpAffineExpression;
  c_sense : LpSense;
  c_rhs : LpAffineExpression
}.

Declare Scope lp_scope.
Delimit Scope lp_scope with lp.
Notation "e1 == e2" := (Constraint e1 LpConstraintEQ e2)
  (at level 70, no associativity) : lp_scope.
Notation "e1 >= e2" := (Constraint e1 LpConstraintGE e2)
  (at level 70, no associativity) : lp_scope.

(** [LpProblem("PaintShop_Optimization", LpMinimize)]: the constraints in
    the order they were added, each under its name, and the objective. *)
Record LpProblem : Type := Problem {
  constraints : list (string * LpConstraint);
  objective : LpAffineExpression
}.

Definition sumQ (l : list Q) : Q := foldr Qplus 0%Q l.

(** The value of an expression under a valuation of the variables. *)
Fixpoint value (a : LpVariable -> Q) (e : LpAffineExpression) : Q :=
  match e with
  | LpVar v => a v
  | LpConst k => inject_Z k
  | LpPlus e1 e2 => (value a e1 + value a e2)%Q
  | LpMinus e1 e2 => (value a e1 - value a e2)%Q
  | LpTimes k e => (inject_Z k * value a e)%Q
  | lpSum es => sumQ (map (value a) es)
  end.

Definition holds (a : LpVariable -> Q) (c : LpConstraint) : Prop :=
  match c_sense c with
  | LpConstraintLE => (value a (c_lhs c) <= value a (c_rhs c))%Q
  | LpConstraintEQ => (value a (c_lhs c) == value a (c_rhs c))%Q
  | LpConstraintGE => (value a (c_rhs c) <= value a (c_lhs c))%Q
  end.

(** A valuation is feasible for a problem when every constraint holds. *)
Definition feasible (a : LpVariable -> Q) (prob : LpProblem) : Prop :=
  Forall (fun nc => holds a nc.2) (constraints prob).

(** ** The object and its methods *)

Record PaintShopOptimizer : Type := Optimizer {
  batch_size : Z;
  vehicles_df : option (list vehicle);
  paint_summary : option (list summary_row);
  solution_df : option (list solution_row);
  num_changeovers : Z
}.

(** [PaintShopOptimizer(batch_size)]. *)
Definition init (batch_size : Z) : PaintShopOptimizer :=
  Optimizer batch_size None None None 0.

(** What a method runs in: the object, and the models that were handed to
    the CBC solver so far (most recent first). *)
Record process : Type := Process {
  self : PaintShopOptimizer;
  solved : list LpProblem
}.

Definition method (A : Type) : Type := process -> result A * process.

Definition ret {A : Type} (a : A) : method A := fun w => (Ok a, w).
Definition lift {A : Type} (r : result A) : method A := fun w => (r, w).
Definition mthen {A B : Type} (m : method A) (k : A -> method B) : method B :=
  fun w => match m w with
           | (Ok a, w') => k a w'
           | (Raise e, w') => (Raise e, w')
           end.

Declare Scope method_scope.
Delimit Scope method_scope with method.
Notation "'let*' x := m 'in' k" := (mthen m (fun x => k))
  (at level 10, x name, m at level 100, k at level 200) : method_scope.

Definition get_self : method PaintShopOptimizer := fun w => (Ok (self w), w).
Definition set_paint_summary (s : list summary_row) : method unit :=
  fun w => let o := self w in
    (Ok tt, Process (Optimizer (batch_size o) (vehicles_df o) (Some s)
                               (solution_df o) (num_changeovers o)) (solved w)).
Definition set_solution_df (s : list solution_row) : method unit :=
  fun w => let o := self w in
    (Ok tt, Process (Optimizer (batch_size o) (vehicles_df o) (paint_summary o)
                               (Some s) (num_changeovers o)) (solved w)).
Definition set_num_changeovers (n : Z) : method unit :=
  fun w => let o := self w in
    (Ok tt, Process (Optimizer (batch_size o) (vehicles_df o) (paint_summary o)
                               (solution_df o) n) (solved w)).

(** [load_data]: reading the file is outside the program; [sheet] is the
    table that [pd.read_excel] returns. *)
Definition load_data (sheet : list vehicle) : method (list vehicle) :=
  fun w => let o := self w in
    (Ok sheet, Process (Optimizer (batch_size o) (Some sheet) (paint_summary o)
                                  (solution_df o) (num_changeovers o)) (solved w)).

(** [prob.solve(solver)]: the solver is outside the program; it is a
    function from the model to the values of its variables, and each call
    is recorded. *)
Definition solve (solver : LpProblem -> LpVariable -> Q) (prob : LpProblem)
    : method (LpVariable -> Q) :=
  fun w => (Ok (solver prob), Process (self w) (prob :: solved w)).

(** Subscripting an attribute that is still [None] raises [TypeError]. *)
Definition frame {A : Type} (df : option (list A)) : result (list A) :=
  match df with
  | Some rows => Ok rows
  | None => Raise "TypeError"
  end.

(** ** analyze_paint_distribution *)

(** [Series.value_counts()]: the number of occurrences of each value that is
    not missing, the most frequent first. Values are counted in the order of
    their first appearance and then sorted by decreasing count. pandas
    leaves the order among equal counts to its sorting algorithm; here it is
    the order of first appearance, and no property below depends on it. *)
Fixpoint count_up (c : string) (acc : list (string * Z)) : list (string * Z) :=
  match acc with
  | [] => [(c, 1)]
  | (k, n) :: acc' =>
      if decide (k = c) then (k, n + 1) :: acc' else (k, n) :: count_up c acc'
  end.

Definition count_cell (acc : list (string * Z)) (cell : option string) : list (string * Z) :=
  match cell with
  | Some c => count_up c acc
  | None => acc
  end.

(** [sort_values] and the ordering of [value_counts], as an insertion
    sort; [before a b] says that [a] may stand in front of [b]. Rows with
    the same key stay in the order they had, where pandas promises no
    order: what is proved below about a sorted table does not depend on the
    order of such rows, except where the statement names that order. *)
Fixpoint insert_by {A : Type} (before : A -> A -> bool) (a : A) (l : list A) : list A :=
  match l with
  | [] => [a]
  | b :: l' => if before a b then a :: b :: l' else b :: insert_by before a l'
  end.

Definition sort_by {A : Type} (before : A -> A -> bool) (l : list A) : list A :=
  foldr (insert_by before) [] l.

Definition value_counts (col : list (option string)) : list (string * Z) :=
  sort_by (fun a b => b.2 <=? a.2) (foldl count_cell [] col).

(** [np.ceil(count / batch_size).astype(int)] for one row. The quotient by
    zero is an infinity, which [astype(int)] refuses with a [ValueError];
    otherwise the result is the ceiling of the quotient (the binary64
    quotient of integers below 2^52 has the ceiling of the exact one). *)
Definition ceil_astype_int (count batch_size : Z) : result Z :=
  if batch_size =? 0 then Raise "ValueError"
  else Ok (- ((- count) / batch_size)).

Definition sumZ (l : list Z) : Z := foldr Z.add 0 l.

Definition analyze_paint_distribution : method (list summary_row) :=
  (let* o := get_self in
   let* df := lift (frame (vehicles_df o)) in
   let paint_counts := value_counts (map paint df) in
   let* rows := lift (for_each (fun pc : string * Z =>
       do tb <- ceil_astype_int pc.2 (batch_size o);
       Ok (SummaryRow pc.1 pc.2 (pc.2 / batch_size o) (pc.2 mod batch_size o) tb))
     paint_counts) in
   let summary := sort_by (fun a b => vehicle_count b <=? vehicle_count a) rows in
   let* _ := set_paint_summary summary in
   ret summary)%method.

(** ** optimize_sequence_milp *)

(** [dict(zip(keys, values))]: a later pair replaces an earlier one with the
    same key. *)
Definition dict_zip {V : Type} (ks : list string) (vs : list V) : gmap string V :=
  foldl (fun d kv => <[kv.1 := kv.2]> d) ∅ (zip ks vs).

Definition getitem {V : Type} (d : gmap string V) (k : string) : result V :=
  match d !! k with
  | Some v => Ok v
  | None => Raise "KeyError"
  end.

(** [l[i]] on a list. *)
Definition list_getitem {A : Type} (l : list A) (i : Z) : result A :=
  let j := if i <? 0 then Z.of_nat (length l) + i else i in
  if j <? 0 then Raise "IndexError"
  else match l !! Z.to_nat j with
       | Some a => Ok a
       | None => Raise "IndexError"
       end.

(** [y[b]] on the dictionary made by [LpVariable.dicts("changeover",
    range(total_batches))]. *)
Definition changeover_getitem (total_batches b : Z) : result LpAffineExpression :=
  if decide (b ∈ range total_batches) then Ok (LpVar (changeover b))
  else Raise "KeyError".

(** The loop that fills [ideal_positions]. *)
Definition ideal_positions_of (paint_codes : list string) (paint_batches : gmap string Z)
    (total_batches : Z) : result (gmap string (list Z)) :=
  do entries <- for_each (fun paint =>
      do num_batches <- getitem paint_batches paint;
      do positions <- calculate_ideal_positions paint num_batches total_batches;
      Ok (paint, positions)) paint_codes;
  Ok (foldl (fun d kv => <[kv.1 := kv.2]> d) ∅ entries).

(** The keys [(c, i, b)] of [dev], in the order of the generator. *)
Definition deviation_keys (paint_codes : list string) (paint_batches : gmap string Z)
    (total_batches : Z) : result (list (string * Z * Z)) :=
  do per_paint <- for_each (fun c =>
      do n <- getitem paint_batches c;
      Ok (flat_map (fun i => map (fun b => (c, i, b)) (range total_batches)) (range n)))
    paint_codes;
  Ok (concat per_paint).

(** *** Adding constraints

    [prob += constraint, name] gives the constraint its name, in which PuLP
    replaces each of the characters [-], [+], the square brackets and the
    space by an underscore ([LpAffineExpression.trans]), and enters it in
    the ordered dictionary of the constraints of the problem. A name that
    is in the dictionary already raises [PulpError] ("overlapping
    constraint names"). The names of this program are never empty. *)
Definition sanitize_char (a : ascii) : ascii :=
  if bool_decide (a ∈ ["-"; "+"; "["; "]"; " "]%char) then "_"%char else a.

Fixpoint sanitize (name : string) : string :=
  match name with
  | EmptyString => EmptyString
  | String a rest => String (sanitize_char a) (sanitize rest)
  end.

Definition add_constraint (nc : string * LpConstraint)
    (prob : list (string * LpConstraint)) : result (list (string * LpConstraint)) :=
  if decide (sanitize nc.1 ∈ map fst prob) then Raise "PulpError"
  else Ok (prob ++ [(sanitize nc.1, nc.2)]).

(** A [for] loop over a state that the body changes, and may abort. *)
Fixpoint for_loop {A S : Type} (body : A -> S -> result S) (l : list A) (s : S)
    : result S :=
  match l with
  | [] => Ok s
  | a :: l' => do s' <- body a s; for_loop body l' s'
  end.

(** Several [prob += ...] statements in a row. *)
Definition add_constraints (ncs : list (string * LpConstraint))
    (prob : list (string * LpConstraint)) : result (list (string * LpConstraint)) :=
  for_loop add_constraint ncs prob.

(** *** The constraints

    Each family is given by what one turn of its loop states, under the
    name of the f-string, and by the list of all that the loop states, in
    order. *)

(** Constraint 1: each batch is assigned to exactly one paint. *)
Definition one_paint_per_batch_at (paint_codes : list string) (b : Z)
    : string * LpConstraint :=
  ("one_paint_per_batch_" +:+ pretty b,
   (lpSum (map (fun c => LpVar (batch_assignment c b)) paint_codes) == LpConst 1)%lp).

Definition one_paint_per_batch (paint_codes : list string) (total_batches : Z)
    : list (string * LpConstraint) :=
  map (one_paint_per_batch_at paint_codes) (range total_batches).

(** Constraint 2: each paint gets its required number of batches. *)
Definition batch_count_of (c : string) (n total_batches : Z) : string * LpConstraint :=
  ("batch_count_" +:+ c,
   (lpSum (map (fun b => LpVar (batch_assignment c b)) (range total_batches))
    == LpConst n)%lp).

Definition batch_count (paint_codes : list string) (paint_batches : gmap string Z)
    (total_batches : Z) : result (list (string * LpConstraint)) :=
  for_each (fun c =>
      do n <- getitem paint_batches c;
      Ok (batch_count_of c n total_batches))
    paint_codes.

(** Constraint 3: changeover detection. *)
Definition changeover_detect_at (paint_codes : list string) (b : Z)
    : list (string * LpConstraint) :=
  map (fun c =>
         ("changeover_detect_" +:+ c +:+ "_" +:+ pretty b,
          (LpVar (changeover b)
           >= LpMinus (LpVar (batch_assignment c b))
                      (LpVar (batch_assignment c (b - 1))))%lp))
      paint_codes.

Definition changeover_detect (paint_codes : list string) (total_batches : Z)
    : list (string * LpConstraint) :=
  flat_map (changeover_detect_at paint_codes) (range_from 1 total_batches).

(** The first batch is always a changeover (setup). *)
Definition first_batch_setup (total_batches : Z) : result (string * LpConstraint) :=
  do y0 <- changeover_getitem total_batches 0;
  Ok ("first_batch_setup", (y0 == LpConst 1)%lp).

(** Constraint 4: the deviation of each paint's i-th batch from its ideal
    position, two constraints for each batch position. *)
Definition dev_pair (c : string) (i ideal_pos b : Z) : list (string * LpConstraint) :=
  [ ("dev_pos_" +:+ c +:+ "_" +:+ pretty i +:+ "_" +:+ pretty b,
     (LpVar (deviation c i b)
      >= LpTimes (b - ideal_pos) (LpVar (batch_assignment c b)))%lp);
    ("dev_neg_" +:+ c +:+ "_" +:+ pretty i +:+ "_" +:+ pretty b,
     (LpVar (deviation c i b)
      >= LpTimes (ideal_pos - b) (LpVar (batch_assignment c b)))%lp) ].

Definition level_loading (paint_codes : list string) (paint_batches : gmap string Z)
    (total_batches : Z) (ideal_positions : gmap string (list Z))
    : result (list (string * LpConstraint)) :=
  do per_paint <- for_each (fun c =>
      do n <- getitem paint_batches c;
      do per_batch <- for_each (fun i =>
          do positions <- getitem ideal_positions c;
          do ideal_pos <- list_getitem positions i;
          Ok (flat_map (dev_pair c i ideal_pos) (range total_batches)))
        (range n);
      Ok (concat per_batch))
    paint_codes;
  Ok (concat per_paint).

Definition changeover_weight : Z := 1000.
Definition levelload_weight : Z := 1.

(** The objective: changeovers and the level-loading penalty. *)
Definition minimize_changeovers_and_levelload (paint_codes : list string)
    (paint_batches : gmap string Z) (total_batches : Z) : result LpAffineExpression :=
  do keys <- deviation_keys paint_codes paint_batches total_batches;
  Ok (LpPlus
        (LpTimes changeover_weight
           (lpSum (map (fun b => LpVar (changeover b)) (range total_batches))))
        (LpTimes levelload_weight
           (lpSum (map (fun k : string * Z * Z => LpVar (deviation k.1.1 k.1.2 k.2)) keys)))).

(** The model, from the creation of the variables to the objective, in the
    order of the statements: the generator of the [dev] variables reads
    [paint_batches[c]]; then the four loops and the statement between them
    state their constraints, one [prob += ...] after the other; then the
    objective. Inside the loops [x], [y] and [dev] are read at keys that
    the generators of the same loops produced; [y[0]] is not. *)
Definition build_model (paint_codes : list string) (paint_batches : gmap string Z)
    (total_batches : Z) (ideal_positions : gmap string (list Z)) : result LpProblem :=
  do _ <- deviation_keys paint_codes paint_batches total_batches;
  do prob <- for_loop (fun b => add_constraint (one_paint_per_batch_at paint_codes b))
                      (range total_batches) [];
  do prob <- for_loop (fun c prob =>
                         do n <- getitem paint_batches c;
                         add_constraint (batch_count_of c n total_batches) prob)
                      paint_codes prob;
  do prob <- for_loop (fun b => add_constraints (changeover_detect_at paint_codes b))
                      (range_from 1 total_batches) prob;
  do c0 <- first_batch_setup total_batches;
  do prob <- add_constraint c0 prob;
  do prob <- for_loop (fun c prob =>
                         do n <- getitem paint_batches c;
                         for_loop (fun i prob =>
                                     do positions <- getitem ideal_positions c;
                                     do ideal_pos <- list_getitem positions i;
                                     for_loop (fun b => add_constraints (dev_pair c i ideal_pos b))
                                              (range total_batches) prob)
                                  (range n) prob)
                      paint_codes prob;
  do obj <- minimize_changeovers_and_levelload paint_codes paint_batches total_batches;
  Ok (Problem prob obj).

(** [v > 0.5] on a value of the solver. *)
Definition assigned (v : Q) : bool := negb (Qle_bool v (1 # 2)).

(** The inner loop of the extraction: the first paint whose variable is set
    at batch [b] is appended, and the loop is left. *)
Fixpoint extract_batch (val : LpVariable -> Q) (b : Z) (paint_codes : list string)
    : list batch_row :=
  match paint_codes with
  | [] => []
  | c :: rest =>
      if assigned (val (batch_assignment c b)) then [BatchRow b c]
      else extract_batch val b rest
  end.

Definition extract_solution (val : LpVariable -> Q) (paint_codes : list string)
    (total_batches : Z) : list batch_row :=
  flat_map (fun b => extract_batch val b paint_codes) (range total_batches).

Definition count_changeovers (val : LpVariable -> Q) (total_batches : Z) : Z :=
  Z.of_nat (length (filter (fun b => assigned (val (changeover b)) = true)
                           (range total_batches))).

Definition optimize_sequence_milp (solver : LpProblem -> LpVariable -> Q)
    : method (list batch_row) :=
  (let* o := get_self in
   let* _ := match paint_summary o with
             | None => let* _ := analyze_paint_distribution in ret tt
             | Some _ => ret tt
             end in
   let* o := get_self in
   let* summary := lift (frame (paint_summary o)) in
   let paint_codes := map paint_code summary in
   let paint_batches := dict_zip (map paint_code summary) (map total_batches summary) in
   let total_batches := sumZ (map total_batches summary) in
   let* ideal_positions := lift (ideal_positions_of paint_codes paint_batches total_batches) in
   let* prob := lift (build_model paint_codes paint_batches total_batches ideal_positions) in
   let* val := solve solver prob in
   let batch_assignments := extract_solution val paint_codes total_batches in
   let* _ := set_num_changeovers (count_changeovers val total_batches) in
   ret batch_assignments)%method.

(** ** assign_vehicles_to_batches *)

(** [DataFrame.head(n)]: the first [n] rows, or all but the last [-n] rows
    when [n] is negative. *)
Definition head {A : Type} (n : Z) (l : list A) : list A :=
  if n <? 0 then take (length l - Z.to_nat (- n)) l else take (Z.to_nat n) l.

(** The vehicles of one paint that are not assigned yet: the rows whose
    paint is the batch's and whose VIN is not among the VINs assigned so
    far, at most [batch_size] of them, in row order. *)
Definition paint_vehicles_of (vehicles : list vehicle) (batch_size : Z)
    (vehicle_assignments : list solution_row) (batch_paint : string) : list vehicle :=
  head batch_size
    (filter (fun v => paint v = Some batch_paint
                      /\ vin v ∉ map s_vin vehicle_assignments) vehicles).

(** The inner loop: one row is appended for each vehicle of the batch. *)
Definition append_vehicle (batch_pos : Z) (st : list solution_row * Z) (v : vehicle)
    : list solution_row * Z :=
  (st.1 ++ [SolutionRow (vin v) (paint v) (batch_pos + 1) st.2
                        (production_sequence v) None],
   st.2 + 1).

(** One iteration of the outer loop; the state is [vehicle_assignments] and
    [current_seq]. *)
Definition assign_batch (vehicles : list vehicle) (batch_size : Z)
    (st : list solution_row * Z) (batch : batch_row) : list solution_row * Z :=
  let batch_paint := b_paint_code batch in
  let batch_pos := batch_position batch in
  let paint_vehicles := paint_vehicles_of vehicles batch_size st.1 batch_paint in
  foldl (append_vehicle batch_pos) st paint_vehicles.

(** The rows that the loop collects, for a batch sequence that is already
    sorted. *)
Definition assign_rows (vehicles : list vehicle) (batch_size : Z)
    (batch_sequence : list batch_row) : list solution_row :=
  (foldl (assign_batch vehicles batch_size) ([], 1) batch_sequence).1.

(** The method. A batch sequence without rows is a frame without columns
    (it was made from an empty list of records), and sorting it by
    ['batch_position'] raises [KeyError]. *)
Definition assign_vehicles_to_batches (batch_sequence : list batch_row)
    : method (list solution_row) :=
  (let* o := get_self in
   let* _ := lift (if decide (batch_sequence = []) then Raise "KeyError" else Ok tt) in
   let batch_sequence :=
     sort_by (fun a b => batch_position a <=? batch_position b) batch_sequence in
   let* vehicles := lift (frame (vehicles_df o)) in
   let vehicle_assignments := assign_rows vehicles (batch_size o) batch_sequence in
   let* _ := set_solution_df vehicle_assignments in
   ret vehicle_assignments)%method.

(** ** update_timestamps *)

(** [Series.min()], which skips missing cells. *)
Definition column_min (col : list (option Z)) : option Z :=
  foldl (fun m cell => match m, cell with
                       | Some a, Some b => Some (Z.min a b)
                       | None, c => c
                       | m, None => m
                       end) None col.

(** [start_datetime + timedelta(minutes=k)]; NaT stays NaT. A timestamp is
    the number of its minute, an integer without bound: the end of the
    range of [Timestamp], where the addition raises, is not modelled. *)
Definition add_minutes (start : option Z) (k : Z) : option Z :=
  match start with
  | Some t => Some (t + k)
  | None => None
  end.

(** [df[column] = values], for as many values as there are rows. *)
Definition set_planned (rows : list solution_row) (values : list (option Z))
    : list solution_row :=
  zip_with (fun r t => SolutionRow (s_vin r) (s_paint r) (s_batch_id r)
                         (s_production_sequence r) (s_original_sequence r) (Some t))
           rows values.

(** [start_datetime] is [None] when the argument is left out. *)
Definition update_timestamps (start_datetime : option (option Z)) (increment_minutes : Z)
    : method (list solution_row) :=
  (let* o := get_self in
   let* start :=
     match start_datetime with
     | None => let* vehicles := lift (frame (vehicles_df o)) in
               ret (column_min (map planned_ga_in_datetime vehicles))
     | Some t => ret t
     end in
   let* rows := lift (frame (solution_df o)) in
   let stamps := map (fun i => add_minutes start (i * increment_minutes))
                     (range (Z.of_nat (length rows))) in
   let updated := set_planned rows stamps in
   let* _ := set_solution_df updated in
   ret updated)%method.

(** ** generate_summary_metrics *)

Record metrics : Type := Metrics {
  m_total_vehicles : Z;
  m_unique_paint_codes : Z;
  m_total_batches : Z;
  m_total_changeovers : Z;
  m_changeover_rate : float;
  m_paint_distribution_per_100 : gmap string float;
  m_changeover_positions : list Z
}.

(** [Series.nunique()]: the number of distinct values that are not
    missing. *)
Definition nunique {A : Type} `{EqDecision A} (col : list (option A)) : Z :=
  Z.of_nat (length (remove_dups (omap id col))).

(** The changeover analysis: the loop over the rows, with its state
    [changeovers] and [prev_paint] ([None] before the first row). A missing
    paint differs from everything. *)
Definition paint_differs (a b : option string) : bool :=
  match a, b with
  | Some p, Some q => bool_decide (p <> q)
  | _, _ => true
  end.

Definition changeover_step (st : list Z * option (option string)) (row : solution_row)
    : list Z * option (option string) :=
  let changeovers :=
    match st.2 with
    | Some prev_paint =>
        if paint_differs (s_paint row) prev_paint
        then st.1 ++ [s_production_sequence row] else st.1
    | None => st.1
    end in
  (changeovers, Some (s_paint row)).

Definition changeover_positions (rows : list solution_row) : list Z :=
  (foldl changeover_step ([], None) rows).1.

(** [groupby('paint').size() / total_vehicles * 100], as a dictionary. *)
Definition paint_per_100 (rows : list solution_row) : gmap string float :=
  let total_vehicles := Z.of_nat (length rows) in
  let paints := omap s_paint rows in
  foldl (fun d c =>
           <[c := PrimFloat.mul
                    (PrimFloat.div
                       (float_of_int (Z.of_nat (length (filter (fun p => p = c) paints))))
                       (float_of_int total_vehicles))
                    (float_of_int 100)]> d)
        ∅ (remove_dups paints).

Definition generate_summary_metrics : method metrics :=
  (let* o := get_self in
   let* rows := lift (match solution_df o with
                      | None => Raise "ValueError"
                      | Some rows => Ok rows
                      end) in
   let* _ := lift (if decide (rows = []) then Raise "KeyError" else Ok tt) in
   let total_vehicles := Z.of_nat (length rows) in
   let unique_paints := nunique (map s_paint rows) in
   let total_batches := nunique (map (fun r => Some (s_batch_id r)) rows) in
   let changeovers := changeover_positions rows in
   ret (Metrics total_vehicles unique_paints total_batches
          (Z.of_nat (length changeovers))
          (PrimFloat.mul
             (PrimFloat.div (float_of_int (Z.of_nat (length changeovers)))
                            (float_of_int total_batches))
             (float_of_int 100))
          (paint_per_100 rows)
          changeovers))%method.

(** ** run_full_optimization

    The workflow without its file input and output: [load_data] has filled
    [vehicles_df] before, and [export_results] writes what the object holds
    afterwards. The value [solution] that is returned is the object
    [self.solution_df] itself, to which [update_timestamps] has added its
    column by then. *)
Definition run_full_optimization (solver : LpProblem -> LpVariable -> Q)
    : method (list solution_row * metrics) :=
  (let* paint_summary := analyze_paint_distribution in
   let* batch_sequence := optimize_sequence_milp solver in
   let* _ := assign_vehicles_to_batches batch_sequence in
   let* solution := update_timestamps None 1 in
   let* metrics := generate_summary_metrics in
   ret (solution, metrics))%method.

(** ** Vocabulary of the properties *)

(** The columns of the solution table other than the planned timestamp. *)
Definition kept_columns (r : solution_row) : string * option string * Z * Z * Z :=
  (s_vin r, s_paint r, s_batch_id r, s_production_sequence r, s_original_sequence r).

(** The number of units of a table that carry a given paint code. *)
Definition units_with (df : list vehicle) (c : string) : Z :=
  Z.of_nat (length (filter (fun v => paint v = Some c) df)).

(** The number of units of a table whose paint code is not missing. *)
Definition painted_units (df : list vehicle) : Z :=
  Z.of_nat (length (omap paint df)).

(** The total of the counts recorded for a key in an association list. *)
Definition count_of (c : string) (acc : list (string * Z)) : Z :=
  sumZ (map snd (filter (fun kv => kv.1 = c) acc)).

(** The summary that the analysis computes from a table when the batch size
    is not zero. *)
Definition summary_of (df : list vehicle) (bs : Z) : list summary_row :=
  sort_by (fun a b => vehicle_count b <=? vehicle_count a)
    (map (fun pc : string * Z =>
            SummaryRow pc.1 pc.2 (pc.2 / bs) (pc.2 mod bs) (- ((- pc.2) / bs)))
         (value_counts (map paint df))).

(** [q] is the ceiling of the quotient of [a] by [b]. *)
Definition is_ceiling (q a b : Z) : Prop :=
  (0 < b /\ b * (q - 1) < a <= b * q) \/ (b < 0 /\ b * q <= a < b * (q - 1)).

(** The object after [self.paint_summary = summary]. *)
Definition with_paint_summary (w : process) (summary : list summary_row) : process :=
  Process (Optimizer (batch_size (self w)) (vehicles_df (self w)) (Some summary)
                     (solution_df (self w)) (num_changeovers (self w)))
          (solved w).

(** What [optimize_sequence_milp] does once [self.paint_summary] holds a
    summary: the statements after the first [if]. *)
Definition optimize_with (summary : list summary_row)
    (solver : LpProblem -> LpVariable -> Q) (w : process)
    : result (list batch_row) * process :=
  let paint_codes := map paint_code summary in
  let paint_batches := dict_zip (map paint_code summary) (map total_batches summary) in
  let T := sumZ (map total_batches summary) in
  match ideal_positions_of paint_codes paint_batches T with
  | Raise e => (Raise e, w)
  | Ok ideal_positions =>
      match build_model paint_codes paint_batches T ideal_positions with
      | Raise e => (Raise e, w)
      | Ok prob =>
          (Ok (extract_solution (solver prob) paint_codes T),
           Process (Optimizer (batch_size (self w)) (vehicles_df (self w))
                              (paint_summary (self w)) (solution_df (self w))
                              (count_changeovers (solver prob) T))
                   (prob :: solved w))
      end
  end.

(** A constraint under the name that PuLP gives it. *)
Definition named (nc : string * LpConstraint) : string * LpConstraint :=
  (sanitize nc.1, nc.2).

(** The index set of the deviation variables: all [(c, i, s)] for a paint
    code [c], one of its required batches [i] and a slot [s]. *)
Definition deviation_index (paint_codes : list string) (paint_batches : gmap string Z)
    (T : Z) : list (string * Z * Z) :=
  flat_map (fun c =>
      flat_map (fun i => map (fun s => (c, i, s)) (range T))
               (range (default 0 (paint_batches !! c))))
    paint_codes.

(** The constraint families of the model, as properties of a valuation [a]
    of the variables: [n] is the required batch count of paint code [c] and
    [p] the ideal position of its [i]-th batch. *)
Definition stated_families (paint_codes : list string) (paint_batches : gmap string Z)
    (T : Z) (ideal_positions : gmap string (list Z)) (a : LpVariable -> Q) : Prop :=
  (forall s, 0 <= s < T ->
     (sumQ (map (fun c => a (batch_assignment c s)) paint_codes) == 1)%Q)
  /\ (forall c n, c ∈ paint_codes -> paint_batches !! c = Some n ->
        (sumQ (map (fun s => a (batch_assignment c s)) (range T)) == inject_Z n)%Q)
  /\ (forall s c, 1 <= s < T -> c ∈ paint_codes ->
        (a (batch_assignment c s) - a (batch_assignment c (s - 1)) <= a (changeover s))%Q)
  /\ (a (changeover 0) == 1)%Q
  /\ (forall c n positions i p s,
        c ∈ paint_codes -> paint_batches !! c = Some n -> 0 <= i < n ->
        ideal_positions !! c = Some positions -> positions !! Z.to_nat i = Some p ->
        0 <= s < T ->
        (inject_Z (s - p) * a (batch_assignment c s) <= a (deviation c i s))%Q
        /\ (inject_Z (p - s) * a (batch_assignment c s) <= a (deviation c i s))%Q).

(** The stated objective: 1000 times the sum of [y] plus once the sum of
    [dev]. *)
Definition stated_objective (paint_codes : list string) (paint_batches : gmap string Z)
    (T : Z) (a : LpVariable -> Q) : Q :=
  (1000 * sumQ (map (fun s => a (changeover s)) (range T))
   + 1 * sumQ (map (fun k : string * Z * Z => a (deviation k.1.1 k.1.2 k.2))
                   (deviation_index paint_codes paint_batches T)))%Q.

(** What a row of the solution table took from its unit, and the same
    fields of a unit. *)
Definition source (r : solution_row) : string * option string * Z :=
  (s_vin r, s_paint r, s_original_sequence r).

Definition unit_key (v : vehicle) : string * option string * Z :=
  (vin v, paint v, production_sequence v).

(** The units of one paint code, in table order, and the rows of one paint
    code, in the order of the solution table. *)
Definition of_paint (c : string) (vehicles : list vehicle) : list vehicle :=
  filter (fun v => paint v = Some c) vehicles.

Definition rows_of_paint (c : string) (rows : list solution_row) : list solution_row :=
  filter (fun r => s_paint r = Some c) rows.

(** The number of batches of one paint code in a batch sequence. *)
Definition batches_of (c : string) (batch_sequence : list batch_row) : Z :=
  Z.of_nat (length (filter (fun b => b_paint_code b = c) batch_sequence)).

(** The rows that the inner loop appends for the vehicles of one batch,
    starting at sequence number [seq]. *)
Fixpoint batch_rows (batch_pos seq : Z) (vs : list vehicle) : list solution_row :=
  match vs with
  | [] => []
  | v :: vs' =>
      SolutionRow (vin v) (paint v) (batch_pos + 1) seq (production_sequence v) None
      :: batch_rows batch_pos (seq + 1) vs'
  end.

(** The table is in ascending order of the original sequence index. *)
Definition in_original_order (vehicles : list vehicle) : Prop :=
  StronglySorted (fun a b => production_sequence a <= production_sequence b) vehicles.

(** The object after [self.solution_df = rows]. *)
Definition with_solution_df (w : process) (rows : list solution_row) : process :=
  Process (Optimizer (batch_size (self w)) (vehicles_df (self w)) (paint_summary (self w))
                     (Some rows) (num_changeovers (self w)))
          (solved w).

(** [batch_sequence.sort_values('batch_position')]. *)
Definition by_position (batch_sequence : list batch_row) : list batch_row :=
  sort_by (fun a b => batch_position a <=? batch_position b) batch_sequence.

(** The number of places in a column of paint codes at which the code
    differs from the one before. *)
Fixpoint transitions (l : list (option string)) : nat :=
  match l with
  | [] => 0
  | a :: t =>
      match t with
      | [] => 0
      | b :: _ => (if paint_differs b a then 1 else 0) + transitions t
      end
  end.

(** The model that [optimize_sequence_milp] builds from a summary. *)
Definition model_of (summary : list summary_row) : result LpProblem :=
  let paint_codes := map paint_code summary in
  let paint_batches := dict_zip (map paint_code summary) (map total_batches summary) in
  let T := sumZ (map total_batches summary) in
  do ideal_positions <- ideal_positions_of paint_codes paint_batches T;
  build_model paint_codes paint_batches T ideal_positions.

(** What the extraction takes from one slot: nothing when no paint code
    has its assignment variable above the threshold in the slot, and
    otherwise one entry, with the first paint code of the list that has. *)
Definition slot_entry (val : LpVariable -> Q) (paint_codes : list string) (s : Z)
    (entry : list batch_row) : Prop :=
  (Forall (fun c => assigned (val (batch_assignment c s)) = false) paint_codes
   /\ entry = [])
  \/ exists before c after,
       paint_codes = before ++ c :: after
       /\ assigned (val (batch_assignment c s)) = true
       /\ Forall (fun c' => assigned (val (batch_assignment c' s)) = false) before
       /\ entry = [BatchRow s c].

(** The paint code that the extraction assigns to a slot, if any. *)
Definition slot_paint (val : LpVariable -> Q) (paint_codes : list string) (s : Z)
    : option string :=
  match extract_batch val s paint_codes with
  | r :: _ => Some (b_paint_code r)
  | [] => None
  end.

(** The assignment variables of a solution are 0 or 1. *)
Definition binary_assignment (val : LpVariable -> Q) (paint_codes : list string) (T : Z)
    : Prop :=
  forall c s, c ∈ paint_codes -> 0 <= s < T ->
    (val (batch_assignment c s) == 0)%Q \/ (val (batch_assignment c s) == 1)%Q.

(** The changeover variables of a solution are tight: [y[0] = 1], and from
    the second slot on [y[s]] is 1 when the paint code of the slot differs
    from the one of the slot before, and 0 when it does not. *)
Definition tight_changeovers (val : LpVariable -> Q) (paint_codes : list string) (T : Z)
    : Prop :=
  (val (changeover 0) == 1)%Q
  /\ forall s, 1 <= s < T ->
       (val (changeover s)
        == if decide (slot_paint val paint_codes s = slot_paint val paint_codes (s - 1))
           then 0 else 1)%Q.

(** The sum of [y[s]] over the slots. *)
Definition sum_changeovers (val : LpVariable -> Q) (T : Z) : Q :=
  sumQ (map (fun s => val (changeover s)) (range T)).

(** The paint codes and the schedule length that [optimize_sequence_milp]
    takes from a summary. *)
Definition summary_codes (summary : list summary_row) : list string :=
  map paint_code summary.

Definition schedule_length (summary : list summary_row) : Z :=
  sumZ (map total_batches summary).

(** A list of ideal positions for [n] batches in a schedule of [T] slots
    that is well formed: [n] positions, strictly increasing, all of them
    slots of the schedule. *)
Definition well_spaced (n T : Z) (l : list Z) : Prop :=
  Z.of_nat (length l) = n
  /\ StronglySorted Z.lt l
  /\ Forall (fun p => 0 <= p < T) l.

#[global] Instance well_spaced_dec (n T : Z) (l : list Z) : Decision (well_spaced n T l).
Proof. unfold well_spaced. apply _. Defined.

(** The longest schedule for which the positions are checked by
    evaluation. *)
Definition checked_slots : Z := 60.

(** The positions are computed and well formed, and each is the evenly
    spaced position or the slot before it. *)
Definition ideal_positions_check (n T : Z) : bool :=
  match calculate_ideal_positions "" n T with
  | Ok l =>
      bool_decide (well_spaced n T l)
      && bool_decide (Forall2 (fun p q => q - 1 <= p <= q) l (evenly_spaced n T))
  | Raise _ => false
  end.

(** Two paint codes of a table differ only in characters that PuLP replaces
    in the name of a constraint. *)
Definition codes_overlap (df : list vehicle) : Prop :=
  exists c1 c2 : string,
    c1 <> c2 /\ Some c1 ∈ map paint df /\ Some c2 ∈ map paint df
    /\ sanitize c1 = sanitize c2.

(** *** The names of the constraints

    What a name is made from, to tell when two names are the same. *)

(** A string of decimal digits. *)
Definition is_digit (a : ascii) : bool :=
  bool_decide (a ∈ ["0"; "1"; "2"; "3"; "4"; "5"; "6"; "7"; "8"; "9"]%char).

Fixpoint numeral (s : string) : bool :=
  match s with
  | EmptyString => true
  | String a rest => is_digit a && numeral rest
  end.

(** What a name of a constraint is made from: the family, and the paint
    code (as PuLP writes it) and the numbers of the f-string. *)
Inductive constraint_key : Type :=
| key_one_paint (b : Z)
| key_batch_count (c : string)
| key_detect (c : string) (b : Z)
| key_first
| key_dev (pos : bool) (c : string) (i b : Z).

Definition written (k : constraint_key) : string :=
  match k with
  | key_one_paint b => "one_paint_per_batch_" +:+ pretty b
  | key_batch_count c => "batch_count_" +:+ c
  | key_detect c b => "changeover_detect_" +:+ c +:+ "_" +:+ pretty b
  | key_first => "first_batch_setup"
  | key_dev true c i b => "dev_pos_" +:+ c +:+ "_" +:+ pretty i +:+ "_" +:+ pretty b
  | key_dev false c i b => "dev_neg_" +:+ c +:+ "_" +:+ pretty i +:+ "_" +:+ pretty b
  end.

Definition key_numbers (k : constraint_key) : list Z :=
  match k with
  | key_one_paint b => [b]
  | key_detect _ b => [b]
  | key_dev _ _ i b => [i; b]
  | _ => []
  end.

(** The keys of the names of a model, in the order of the statements. *)
Definition dev_keys_at (c : string) (i b : Z) : list constraint_key :=
  [key_dev true (sanitize c) i b; key_dev false (sanitize c) i b].

Definition dev_keys (paint_codes : list string) (paint_batches : gmap string Z) (T : Z)
    : list constraint_key :=
  flat_map (fun c =>
      flat_map (fun i => flat_map (dev_keys_at c i) (range T))
               (range (default 0 (paint_batches !! c))))
    paint_codes.

Definition detect_keys (paint_codes : list string) (T : Z) : list constraint_key :=
  flat_map (fun b => map (fun c => key_detect (sanitize c) b) paint_codes) (range_from 1 T).

Definition model_keys (paint_codes : list string) (paint_batches : gmap string Z) (T : Z)
    : list constraint_key :=
  map key_one_paint (range T)
  ++ map (fun c => key_batch_count (sanitize c)) paint_codes
  ++ detect_keys paint_codes T
  ++ [key_first]
  ++ dev_keys paint_codes paint_batches T.

(** The family of a key. *)
Definition family (k : constraint_key) : nat :=
  match k with
  | key_one_paint _ => 1
  | key_batch_count _ => 2
  | key_detect _ _ => 3
  | key_first => 0
  | key_dev _ _ _ _ => 4
  end.

(** ** Sample data *)

(** An object just made, after [load_data] has read a table. *)
Definition fresh (batch_size : Z) (df : list vehicle) : process :=
  (load_data df (Process (init batch_size) [])).2.

Definition unit_A1 : vehicle := Vehicle "V1" (Some "A") 1 (Some 600).
Definition unit_A2 : vehicle := Vehicle "V2" (Some "A") 2 (Some 601).
Definition unit_B3 : vehicle := Vehicle "V3" (Some "B") 3 (Some 602).
Definition unit_unpainted : vehicle := Vehicle "V4" None 4 (Some 603).
Definition unit_empty_code : vehicle := Vehicle "V5" (Some "") 5 (Some 604).

(** Two units whose paint codes PuLP writes alike. *)
Definition unit_dash : vehicle := Vehicle "V6" (Some "A-B") 6 (Some 605).
Definition unit_underscore : vehicle := Vehicle "V7" (Some "A_B") 7 (Some 606).

(** The scenario of two paint codes: A needs two batches, B one. *)
Definition scenario_codes : list string := ["A"; "B"].
Definition scenario_batches : gmap string Z := dict_zip ["A"; "B"] [2; 1].
Definition scenario_ideal : gmap string (list Z) := <["B" := [1]]> (<["A" := [0; 1]]> ∅).

(** Two units of one paint code whose table order is not the order of their
    original sequence index. *)
Definition unit_late : vehicle := Vehicle "V1" (Some "A") 2 (Some 600).
Definition unit_early : vehicle := Vehicle "V2" (Some "A") 1 (Some 601).

(** A solution of the model of three units (two of paint A, one of paint
    B) in batches of one: A, A, B, with a changeover at the first and at the
    third slot. *)
Definition scenario_solution (v : LpVariable) : Q :=
  match v with
  | batch_assignment c b =>
      if bool_decide (c = "A" /\ (b = 0 \/ b = 1)) || bool_decide (c = "B" /\ b = 2)
      then 1%Q else 0%Q
  | changeover b => if bool_decide (b = 1) then 0%Q else 1%Q
  | deviation _ _ _ => 3%Q
  end.

Definition two_row_table : list solution_row :=
  [ SolutionRow "V1" (Some "A") 1 1 7 None;
    SolutionRow "V2" (Some "B") 2 2 3 None ].

(* ================================================================== *)
(** * Properties *)

(** ** Ideal positions *)

Lemma calculate_ideal_positions_single (c : string) (T : Z) :
  calculate_ideal_positions c 1 T = Ok [T / 2].
Proof. reflexivity. Qed.

Example calculate_ideal_positions_A :
  calculate_ideal_positions "A" 2 3 = Ok [0; 1].
Proof. vm_compute. reflexivity. Qed.

Example calculate_ideal_positions_B :
  calculate_ideal_positions "B" 1 3 = Ok [1].
Proof. vm_compute. reflexivity. Qed.

(** In schedules of fewer than 30 slots the positions are the evenly spaced
    ones, for every number of batches up to the number of slots. *)
Lemma calculate_ideal_positions_small (c : string) (n T : Z) :
  1 <= n <= T -> T < 30 ->
  calculate_ideal_positions c n T = Ok (evenly_spaced n T).
Proof.
  intros Hn HT.
  assert (Forall (fun T : Z => Forall (fun n : Z =>
            calculate_ideal_positions "" n T = Ok (evenly_spaced n T)) (seqZ 1 T))
            (seqZ 1 29)) as Hall
    by (apply (proj1 (bool_decide_eq_true _)); vm_compute; reflexivity).
  rewrite Forall_forall in Hall.
  specialize (Hall T ltac:(apply elem_of_seqZ; lia)).
  rewrite Forall_forall in Hall. apply (Hall n). apply elem_of_seqZ. lia.
Qed.

(** C2. With 22 batches of one paint in a schedule of 30 slots the twelfth
    position (i = 11) comes out as 14, where floor(11 * 30 / 22) is 15: the
    quotient 30 / 22 is rounded down in binary64 and its product with 11
    stays just below 15. The scenario values of the claim ([0; 1] for two
    batches in three slots, [1] for one) are as stated. *)
Theorem calculate_ideal_positions_float_rounding :
  (exists l, calculate_ideal_positions "A" 22 30 = Ok l
             /\ l !! 11%nat = Some 14
             /\ evenly_spaced 22 30 !! 11%nat = Some 15)
  /\ calculate_ideal_positions "A" 2 3 = Ok (evenly_spaced 2 3)
  /\ calculate_ideal_positions "B" 1 3 = Ok (evenly_spaced 1 3).
Proof.
  split; [|split]; [|vm_compute; reflexivity..].
  eexists. split; [vm_compute; reflexivity|].
  split; vm_compute; reflexivity.
Qed.

(** ** Loops, sorting and sums *)

Lemma for_each_Ok {A B : Type} (f : A -> result B) (l : list A) (r : list B) :
  for_each f l = Ok r <-> Forall2 (fun a b => f a = Ok b) l r.
Proof.
  revert r. induction l as [|a l IH]; intros r; simpl.
  - split.
    + intros [= <-]. constructor.
    + intros H. inversion H. reflexivity.
  - destruct (f a) as [b|e] eqn:Ha; simpl.
    + destruct (for_each f l) as [bs|e] eqn:Hl; simpl.
      * split.
        -- intros [= <-]. constructor; [exact Ha|]. apply IH. reflexivity.
        -- intros H. inversion H as [|? b' ? bs' Hb Hbs]; subst.
           apply IH in Hbs. congruence.
      * split; [discriminate|].
        intros H. inversion H as [|? b' ? bs' Hb Hbs]; subst.
        apply IH in Hbs. discriminate.
    + split; [discriminate|].
      intros H. inversion H; subst. congruence.
Qed.

Lemma for_each_total {A B : Type} (f : A -> result B) (g : A -> B) (l : list A) :
  Forall (fun a => f a = Ok (g a)) l -> for_each f l = Ok (map g l).
Proof.
  induction 1 as [|a l Ha _ IH]; simpl; [reflexivity|].
  rewrite Ha. simpl. rewrite IH. reflexivity.
Qed.

Lemma insert_by_Permutation {A : Type} (before : A -> A -> bool) (a : A) (l : list A) :
  insert_by before a l ≡ₚ a :: l.
Proof.
  induction l as [|b l IH]; simpl; [reflexivity|].
  destruct (before a b); [reflexivity|].
  rewrite IH. apply Permutation_swap.
Qed.

Lemma sort_by_Permutation {A : Type} (before : A -> A -> bool) (l : list A) :
  sort_by before l ≡ₚ l.
Proof.
  induction l as [|a l IH]; simpl; [reflexivity|].
  rewrite insert_by_Permutation. f_equiv. exact IH.
Qed.

(** Sorting leaves a list alone when each row may stand in front of all
    the rows after it. *)
Lemma insert_by_head {A : Type} (before : A -> A -> bool) (a : A) (l : list A) :
  Forall (fun b => before a b = true) l -> insert_by before a l = a :: l.
Proof.
  destruct 1 as [|b l Hb _]; simpl; [reflexivity|]. rewrite Hb. reflexivity.
Qed.

Lemma sort_by_sorted {A : Type} (before : A -> A -> bool) (l : list A) :
  StronglySorted (fun a b => before a b = true) l -> sort_by before l = l.
Proof.
  induction 1 as [|a l _ IH Ha]; simpl; [reflexivity|].
  rewrite IH. apply insert_by_head. exact Ha.
Qed.

(** Insertion sort sorts, for an order that is total and transitive. *)
Lemma insert_by_sorted {A : Type} (before : A -> A -> bool) (a : A) (l : list A) :
  (forall x y, before x y = true \/ before y x = true) ->
  (forall x y z, before x y = true -> before y z = true -> before x z = true) ->
  StronglySorted (fun x y => before x y = true) l ->
  StronglySorted (fun x y => before x y = true) (insert_by before a l).
Proof.
  intros Htotal Htrans. induction 1 as [|b l Hs IH Hb]; simpl.
  - repeat constructor.
  - destruct (before a b) eqn:Hab.
    + constructor; [constructor; assumption|].
      constructor; [exact Hab|]. eapply Forall_impl; [exact Hb|].
      intros x Hx. exact (Htrans _ _ _ Hab Hx).
    + constructor; [exact IH|].
      apply Forall_forall. intros x Hx.
      rewrite (elem_of_Permutation_proper _ _ _ (insert_by_Permutation before a l)) in Hx.
      apply elem_of_cons in Hx as [->|Hx].
      * destruct (Htotal a b) as [H|H]; [congruence|exact H].
      * rewrite Forall_forall in Hb. apply Hb, Hx.
Qed.

Lemma sort_by_StronglySorted {A : Type} (before : A -> A -> bool) (l : list A) :
  (forall x y, before x y = true \/ before y x = true) ->
  (forall x y z, before x y = true -> before y z = true -> before x z = true) ->
  StronglySorted (fun x y => before x y = true) (sort_by before l).
Proof.
  intros Htotal Htrans. induction l as [|a l IH]; simpl; [constructor|].
  apply insert_by_sorted; assumption.
Qed.

Lemma StronglySorted_weaken {A : Type} (R S : A -> A -> Prop) (l : list A) :
  (forall a b, R a b -> S a b) -> StronglySorted R l -> StronglySorted S l.
Proof.
  intros HRS. induction 1 as [|a l _ IH Ha]; constructor; [exact IH|].
  eapply Forall_impl; [exact Ha|]. intros b. apply HRS.
Qed.

(** Sorting a batch sequence by position gives a sequence in ascending
    order of position. *)
Lemma by_position_sorted (batch_sequence : list batch_row) :
  StronglySorted (fun a b => batch_position a <= batch_position b)
                 (by_position batch_sequence).
Proof.
  apply (StronglySorted_weaken (fun a b => (batch_position a <=? batch_position b) = true)).
  - intros a b. apply Z.leb_le.
  - apply sort_by_StronglySorted.
    + intros x y. rewrite !Z.leb_le. lia.
    + intros x y z. rewrite !Z.leb_le. lia.
Qed.

Lemma sumZ_app (l1 l2 : list Z) : sumZ (l1 ++ l2) = sumZ l1 + sumZ l2.
Proof. induction l1 as [|a l1 IH]; simpl; lia. Qed.

Lemma sumZ_Permutation (l1 l2 : list Z) : l1 ≡ₚ l2 -> sumZ l1 = sumZ l2.
Proof. induction 1; simpl; lia. Qed.

Lemma range_elem (n i : Z) : i ∈ range n <-> 0 <= i < n.
Proof. unfold range. rewrite elem_of_seqZ. lia. Qed.

Lemma range_from_elem (m n i : Z) : i ∈ range_from m n <-> m <= i < n.
Proof. unfold range_from. rewrite elem_of_seqZ. lia. Qed.

Lemma range_nonpos (n : Z) : n <= 0 -> range n = [].
Proof.
  intros Hn. unfold range, seqZ.
  replace (Z.to_nat n) with 0%nat by lia. reflexivity.
Qed.

Lemma range_length (n : Z) : length (range n) = Z.to_nat n.
Proof. unfold range. apply length_seqZ. Qed.

(** ** Timestamps *)

Lemma set_planned_kept (rows : list solution_row) (values : list (option Z)) :
  length values = length rows ->
  map kept_columns (set_planned rows values) = map kept_columns rows.
Proof.
  revert values. induction rows as [|r rows IH]; intros [|t values] Hlen;
    simpl in *; try discriminate; try reflexivity.
  f_equal. apply IH. lia.
Qed.

(** C10. Whatever the arguments and whether the call returns or raises, the
    solution table that the object holds afterwards has the rows of the
    table it held before, in the same order and number, with the same unit
    identifier, paint code, batch id, new and original sequence index. *)
Theorem update_timestamps_frame
    (start_datetime : option (option Z)) (increment_minutes : Z)
    (w : process) (rows : list solution_row) :
  solution_df (self w) = Some rows ->
  exists rows',
    solution_df (self (update_timestamps start_datetime increment_minutes w).2) = Some rows'
    /\ map kept_columns rows' = map kept_columns rows.
Proof.
  intros Hrows. unfold update_timestamps, mthen, get_self, lift, ret, frame.
  destruct start_datetime as [t|]; simpl.
  - rewrite Hrows. simpl. eexists. split; [reflexivity|].
    apply set_planned_kept. rewrite length_map, range_length. lia.
  - destruct (vehicles_df (self w)) as [vehicles|]; simpl.
    + rewrite Hrows. simpl. eexists. split; [reflexivity|].
      apply set_planned_kept. rewrite length_map, range_length. lia.
    + exists rows. split; [exact Hrows|reflexivity].
Qed.

Lemma update_timestamps_frame_witness :
  exists rows',
    solution_df (self (update_timestamps (Some (Some 600)) 1
       (Process (Optimizer 20 None None (Some two_row_table) 0) [])).2) = Some rows'
    /\ map kept_columns rows' = map kept_columns two_row_table.
Proof.
  apply (update_timestamps_frame (Some (Some 600)) 1
           (Process (Optimizer 20 None None (Some two_row_table) 0) []) two_row_table).
  reflexivity.
Defined.

(** ** Paint distribution analysis *)

Lemma count_up_keys (c k : string) (acc : list (string * Z)) :
  k ∈ (map fst (count_up c acc)) <-> k = c \/ k ∈ (map fst acc).
Proof.
  induction acc as [|[k' n] acc IH]; simpl.
  - rewrite list_elem_of_singleton, elem_of_nil. tauto.
  - destruct (decide (k' = c)) as [->|Hne]; simpl.
    + rewrite !elem_of_cons. tauto.
    + rewrite !elem_of_cons, IH. tauto.
Qed.

Lemma count_up_NoDup (c : string) (acc : list (string * Z)) :
  NoDup (map fst acc) -> NoDup (map fst (count_up c acc)).
Proof.
  induction acc as [|[k n] acc IH]; simpl; intros Hnd.
  - apply NoDup_singleton.
  - destruct (decide (k = c)) as [->|Hne]; simpl; [exact Hnd|].
    apply NoDup_cons in Hnd as [Hk Hnd].
    apply NoDup_cons. split; [|auto].
    rewrite count_up_keys. intros [->|Hin]; [congruence|contradiction].
Qed.

Lemma count_up_positive (c : string) (acc : list (string * Z)) :
  Forall (fun kv => 1 <= kv.2) acc -> Forall (fun kv => 1 <= kv.2) (count_up c acc).
Proof.
  induction 1 as [|[k n] acc Hn Hacc IH]; simpl.
  - constructor; [simpl; lia|constructor].
  - destruct (decide (k = c)); constructor; simpl in *; auto; lia.
Qed.

Lemma count_up_count_of (c k : string) (acc : list (string * Z)) :
  count_of k (count_up c acc) = count_of k acc + (if decide (k = c) then 1 else 0).
Proof.
  unfold count_of. induction acc as [|[k' n] acc IH]; simpl.
  - rewrite filter_cons. simpl.
    destruct (decide (c = k)), (decide (k = c)); simpl; congruence || lia.
  - destruct (decide (k' = c)) as [->|Hne]; simpl.
    + rewrite !filter_cons. simpl.
      destruct (decide (c = k)), (decide (k = c)); simpl; congruence || lia.
    + rewrite !filter_cons. simpl.
      destruct (decide (k' = k)) as [->|]; simpl; rewrite IH; lia.
Qed.

Lemma count_up_sum (c : string) (acc : list (string * Z)) :
  sumZ (map snd (count_up c acc)) = sumZ (map snd acc) + 1.
Proof.
  induction acc as [|[k n] acc IH]; simpl; [reflexivity|].
  destruct (decide (k = c)); simpl in *; lia.
Qed.

(** The counting loop, from any accumulator. *)
Lemma count_cells_spec (col : list (option string)) (acc : list (string * Z)) :
  let out := foldl count_cell acc col in
  (NoDup (map fst acc) -> NoDup (map fst out))
  /\ (Forall (fun kv => 1 <= kv.2) acc -> Forall (fun kv => 1 <= kv.2) out)
  /\ (forall k, k ∈ (map fst out) <-> k ∈ (map fst acc) \/ Some k ∈ col)
  /\ (forall k, count_of k out
                = count_of k acc + Z.of_nat (length (filter (fun cell => cell = Some k) col)))
  /\ sumZ (map snd out) = sumZ (map snd acc) + Z.of_nat (length (omap id col)).
Proof.
  revert acc. induction col as [|cell col IH]; intros acc; simpl.
  - repeat split; auto; try lia; rewrite elem_of_nil; tauto.
  - specialize (IH (count_cell acc cell)). simpl in IH.
    destruct IH as (IH1 & IH2 & IH3 & IH4 & IH5).
    destruct cell as [c|]; simpl in *.
    + repeat split.
      * intros Hnd. apply IH1, count_up_NoDup, Hnd.
      * intros Hpos. apply IH2, count_up_positive, Hpos.
      * rewrite IH3, count_up_keys, elem_of_cons. intros [[->|?]|?]; auto.
      * rewrite IH3, count_up_keys, elem_of_cons.
        intros [?|[[= ->]|?]]; auto.
      * intros k. rewrite IH4, count_up_count_of, filter_cons.
        destruct (decide (k = c)) as [->|Hne].
        -- rewrite decide_True by reflexivity. simpl. lia.
        -- rewrite decide_False by congruence. lia.
      * rewrite IH5, count_up_sum.
        change (list_omap (option string) string id col) with (omap id col). lia.
    + repeat split; auto.
      * rewrite IH3, elem_of_cons. intros [?|?]; auto.
      * rewrite IH3, elem_of_cons. intros [?|[?|?]]; auto. discriminate.
Qed.

Lemma filter_paint_length (df : list vehicle) (c : string) :
  length (filter (fun cell => cell = Some c) (map paint df))
  = length (filter (fun v => paint v = Some c) df).
Proof.
  induction df as [|v df IH]; simpl; [reflexivity|].
  rewrite !filter_cons.
  destruct (decide (paint v = Some c)); simpl; rewrite IH; reflexivity.
Qed.

Lemma omap_id_paint (df : list vehicle) : omap id (map paint df) = omap paint df.
Proof.
  induction df as [|v df IH]; [reflexivity|]. simpl.
  destruct (paint v); simpl; [f_equal|]; exact IH.
Qed.

Lemma filter_none {A : Type} (P : A -> Prop) `{!forall a, Decision (P a)} (l : list A) :
  Forall (fun a => ~ P a) l -> filter P l = [].
Proof.
  induction 1 as [|a l Ha _ IH]; [reflexivity|].
  rewrite filter_cons_False by exact Ha. exact IH.
Qed.

Lemma filter_all {A : Type} (P : A -> Prop) `{!forall a, Decision (P a)} (l : list A) :
  Forall P l -> filter P l = l.
Proof.
  induction 1 as [|a l Ha _ IH]; [reflexivity|].
  rewrite filter_cons_True by exact Ha. rewrite IH. reflexivity.
Qed.

Lemma count_of_NoDup (c : string) (n : Z) (acc : list (string * Z)) :
  NoDup (map fst acc) -> (c, n) ∈ acc -> count_of c acc = n.
Proof.
  unfold count_of. induction acc as [|[k m] acc IH]; simpl; intros Hnd Hin.
  - inversion Hin.
  - apply NoDup_cons in Hnd as [Hk Hnd]. rewrite filter_cons. simpl.
    apply elem_of_cons in Hin as [[= <- <-]|Hin].
    + rewrite decide_True by reflexivity. simpl.
      assert (filter (fun kv : string * Z => kv.1 = c) acc = []) as ->; [|simpl; lia].
      apply filter_none, Forall_forall. intros [k' m'] Hin' ?. simpl in *. subst.
      apply Hk. apply list_elem_of_fmap. exists (c, m'). auto.
    + destruct (decide (k = c)) as [->|Hne].
      * exfalso. apply Hk. apply list_elem_of_fmap. exists (c, n). auto.
      * auto.
Qed.

(** What [value_counts] returns on the paint column of a table. *)
Lemma value_counts_spec (df : list vehicle) :
  let vc := value_counts (map paint df) in
  NoDup (map fst vc)
  /\ (forall c n, (c, n) ∈ vc -> n = units_with df c /\ 1 <= n)
  /\ (forall c, c ∈ (map fst vc) <-> Some c ∈ map paint df)
  /\ sumZ (map snd vc) = painted_units df.
Proof.
  simpl. unfold value_counts.
  pose proof (count_cells_spec (map paint df) []) as H. simpl in H.
  destruct H as (H1 & H2 & H3 & H4 & H5).
  set (raw := foldl count_cell [] (map paint df)) in *.
  pose proof (sort_by_Permutation (fun a b : string * Z => b.2 <=? a.2) raw) as Hp.
  repeat split.
  - rewrite Hp. apply H1. constructor.
  - rewrite Hp in H. specialize (H4 c). rewrite (count_of_NoDup c n raw) in H4;
      [|apply H1; constructor|exact H].
    unfold count_of in H4. simpl in H4. unfold units_with.
    rewrite <- filter_paint_length. lia.
  - rewrite Hp in H.
    assert (Forall (fun kv : string * Z => 1 <= kv.2) raw) as Hpos
      by (apply H2; constructor).
    rewrite Forall_forall in Hpos. apply (Hpos (c, n) H).
  - rewrite Hp, H3. intros [Hin|?]; [inversion Hin|assumption].
  - rewrite Hp, H3. auto.
  - rewrite (sumZ_Permutation _ (map snd raw)) by (apply Permutation_map, Hp).
    rewrite H5. unfold painted_units. rewrite omap_id_paint. simpl. lia.
Qed.

Lemma analyze_run (w : process) (df : list vehicle) :
  vehicles_df (self w) = Some df ->
  batch_size (self w) <> 0 ->
  analyze_paint_distribution w
  = (Ok (summary_of df (batch_size (self w))),
     with_paint_summary w (summary_of df (batch_size (self w)))).
Proof.
  intros Hdf Hbs.
  unfold analyze_paint_distribution, mthen, get_self, lift, ret, set_paint_summary,
    with_paint_summary.
  rewrite Hdf. simpl.
  rewrite (for_each_total _ (fun pc : string * Z =>
    SummaryRow pc.1 pc.2 (pc.2 / batch_size (self w)) (pc.2 mod batch_size (self w))
               (- ((- pc.2) / batch_size (self w))))).
  - reflexivity.
  - apply Forall_forall. intros pc _. unfold ceil_astype_int.
    destruct (Z.eqb_spec (batch_size (self w)) 0); [contradiction|reflexivity].
Qed.

Lemma value_counts_unpainted (df : list vehicle) :
  Forall (fun v => paint v = None) df -> value_counts (map paint df) = [].
Proof.
  intros Hnone. destruct (value_counts_spec df) as (_ & _ & Hkeys & _).
  destruct (value_counts (map paint df)) as [|[c n] vc]; [reflexivity|].
  exfalso. assert (Some c ∈ map paint df) as Hin by (apply Hkeys; simpl; left).
  apply list_elem_of_fmap in Hin as (v & Hv & Hin).
  rewrite Forall_forall in Hnone. rewrite (Hnone v Hin) in Hv. discriminate.
Qed.

Lemma analyze_run_unpainted (w : process) (df : list vehicle) :
  vehicles_df (self w) = Some df ->
  Forall (fun v => paint v = None) df ->
  analyze_paint_distribution w = (Ok [], with_paint_summary w []).
Proof.
  intros Hdf Hnone.
  unfold analyze_paint_distribution, mthen, get_self, lift, ret, set_paint_summary,
    with_paint_summary.
  rewrite Hdf. simpl. rewrite (value_counts_unpainted df Hnone). reflexivity.
Qed.

Lemma analyze_run_zero (w : process) (df : list vehicle) :
  vehicles_df (self w) = Some df ->
  batch_size (self w) = 0 ->
  Exists (fun v => paint v <> None) df ->
  analyze_paint_distribution w = (Raise "ValueError", w).
Proof.
  intros Hdf Hbs Hex.
  unfold analyze_paint_distribution, mthen, get_self, lift, ret, set_paint_summary,
    with_paint_summary.
  rewrite Hdf. simpl.
  destruct (value_counts_spec df) as (_ & _ & Hkeys & _).
  destruct (value_counts (map paint df)) as [|[c n] vc].
  - exfalso. apply Exists_exists in Hex as (v & Hin & Hv).
    destruct (paint v) as [c|] eqn:Hc; [|congruence].
    assert (c ∈ map fst (@nil (string * Z))) as Hc'.
    { apply Hkeys. apply list_elem_of_fmap. exists v. auto. }
    inversion Hc'.
  - simpl. unfold ceil_astype_int. rewrite Hbs. reflexivity.
Qed.

Lemma summary_of_spec (df : list vehicle) (bs : Z) :
  let summary := summary_of df bs in
  NoDup (map paint_code summary)
  /\ (forall r, r ∈ summary ->
        vehicle_count r = units_with df (paint_code r)
        /\ 1 <= vehicle_count r
        /\ total_batches r = - ((- vehicle_count r) / bs))
  /\ (forall c, c ∈ map paint_code summary <-> Some c ∈ map paint df)
  /\ sumZ (map vehicle_count summary) = painted_units df.
Proof.
  simpl. unfold summary_of.
  destruct (value_counts_spec df) as (Hnd & Hcount & Hkeys & Hsum).
  set (vc := value_counts (map paint df)) in *.
  set (mk := fun pc : string * Z =>
     SummaryRow pc.1 pc.2 (pc.2 / bs) (pc.2 mod bs) (- ((- pc.2) / bs))).
  pose proof (sort_by_Permutation
     (fun a b => vehicle_count b <=? vehicle_count a) (map mk vc)) as Hp.
  assert (map paint_code (map mk vc) = map fst vc) as Hcodes
    by (rewrite map_map; reflexivity).
  assert (map vehicle_count (map mk vc) = map snd vc) as Hcounts
    by (rewrite map_map; reflexivity).
  repeat split.
  - apply (NoDup_Permutation_proper _ _ (Permutation_map paint_code Hp)).
    rewrite Hcodes. exact Hnd.
  - rewrite (elem_of_Permutation_proper _ _ _ Hp) in H.
    apply list_elem_of_fmap in H as ([c n] & -> & Hin). simpl.
    apply Hcount, Hin.
  - rewrite (elem_of_Permutation_proper _ _ _ Hp) in H.
    apply list_elem_of_fmap in H as ([c n] & -> & Hin). simpl.
    apply (Hcount c n Hin).
  - rewrite (elem_of_Permutation_proper _ _ _ Hp) in H.
    apply list_elem_of_fmap in H as ([c n] & -> & Hin). reflexivity.
  - intros Hin. apply Hkeys. rewrite <- Hcodes.
    eapply elem_of_Permutation_proper; [symmetry; apply Permutation_map, Hp|exact Hin].
  - intros Hin. apply Hkeys in Hin. rewrite <- Hcodes in Hin.
    eapply elem_of_Permutation_proper; [apply Permutation_map, Hp|exact Hin].
  - rewrite (sumZ_Permutation _ (map vehicle_count (map mk vc)))
      by (apply Permutation_map, Hp).
    rewrite Hcounts. exact Hsum.
Qed.

Lemma ceiling_correct (a b : Z) : b <> 0 -> is_ceiling (- ((- a) / b)) a b.
Proof.
  intros Hb. unfold is_ceiling.
  destruct (Z_lt_ge_dec 0 b) as [Hpos|Hneg].
  - left. split; [exact Hpos|].
    pose proof (Z.mul_div_le (- a) b Hpos).
    pose proof (Z.mul_succ_div_gt (- a) b Hpos). nia.
  - right. assert (b < 0) as Hlt by lia. split; [exact Hlt|].
    pose proof (Z.mul_div_ge (- a) b Hlt).
    pose proof (Z.mul_succ_div_lt (- a) b Hlt). nia.
Qed.

(** C5, as stated, fails: an empty table, a table with a unit whose paint
    code is missing and a table with a unit whose paint code is the empty
    string are all analysed without an error. The unit without a paint code
    is left out of the counts; the empty string is counted as a paint
    code. *)
Lemma analyze_accepts_invalid_input :
  (analyze_paint_distribution (fresh 20 [])).1 = Ok []
  /\ (analyze_paint_distribution (fresh 20 [unit_A1; unit_unpainted])).1
     = Ok [SummaryRow "A" 1 0 1 1]
  /\ (analyze_paint_distribution (fresh 20 [unit_empty_code])).1
     = Ok [SummaryRow "" 1 0 1 1].
Proof. repeat split; vm_compute; reflexivity. Qed.

(** C5, amended. The analysis has no validation step. For a loaded table
    and a batch size other than zero it returns a summary, whatever the
    table holds: its paint codes are the codes that occur in the paint
    column (the empty string among them, if it occurs), units without a
    paint code are passed over, and the summary of an empty table is
    empty. *)
Theorem analyze_paint_distribution_no_validation (w : process) (df : list vehicle) :
  vehicles_df (self w) = Some df ->
  batch_size (self w) <> 0 ->
  exists summary,
    (analyze_paint_distribution w).1 = Ok summary
    /\ paint_summary (self (analyze_paint_distribution w).2) = Some summary
    /\ (forall c, c ∈ map paint_code summary <-> Some c ∈ map paint df)
    /\ (df = [] -> summary = []).
Proof.
  intros Hdf Hbs. rewrite (analyze_run w df Hdf Hbs). simpl.
  exists (summary_of df (batch_size (self w))).
  destruct (summary_of_spec df (batch_size (self w))) as (_ & _ & Hkeys & _).
  repeat split; try apply Hkeys.
  intros ->. reflexivity.
Qed.

Lemma analyze_paint_distribution_no_validation_witness :
  exists summary,
    (analyze_paint_distribution (fresh 20 [unit_empty_code; unit_unpainted])).1 = Ok summary
    /\ paint_summary (self (analyze_paint_distribution
                              (fresh 20 [unit_empty_code; unit_unpainted])).2)
       = Some summary
    /\ (forall c, c ∈ map paint_code summary
                  <-> Some c ∈ map paint [unit_empty_code; unit_unpainted])
    /\ ([unit_empty_code; unit_unpainted] = [] -> summary = []).
Proof.
  apply (analyze_paint_distribution_no_validation
           (fresh 20 [unit_empty_code; unit_unpainted])
           [unit_empty_code; unit_unpainted]).
  - reflexivity.
  - simpl. lia.
Defined.

(** ** Dictionaries *)

Lemma foldl_insert_app {V : Type} (d : gmap string V) (l : list (string * V))
    (kv : string * V) :
  foldl (fun d kv => <[kv.1 := kv.2]> d) d (l ++ [kv])
  = <[kv.1 := kv.2]> (foldl (fun d kv => <[kv.1 := kv.2]> d) d l).
Proof. rewrite foldl_app. reflexivity. Qed.

Lemma foldl_insert_lookup_in {V : Type} (d : gmap string V) (l : list (string * V))
    (c : string) :
  c ∈ map fst l ->
  exists v, (c, v) ∈ l /\ foldl (fun d kv => <[kv.1 := kv.2]> d) d l !! c = Some v.
Proof.
  induction l as [|[k v] l IH] using rev_ind; intros Hin.
  - inversion Hin.
  - rewrite foldl_insert_app. simpl. rewrite map_app in Hin. simpl in Hin.
    destruct (decide (k = c)) as [->|Hne].
    + exists v. split; [apply elem_of_app; right; left|].
      apply lookup_insert_eq.
    + apply elem_of_app in Hin as [Hin|Hin].
      * destruct (IH Hin) as (v' & Hv' & Hlook). exists v'.
        split; [apply elem_of_app; left; exact Hv'|].
        rewrite lookup_insert_ne by exact Hne. exact Hlook.
      * apply list_elem_of_singleton in Hin. congruence.
Qed.

Lemma foldl_insert_lookup_NoDup {V : Type} (d : gmap string V) (l : list (string * V))
    (c : string) (v : V) :
  NoDup (map fst l) -> (c, v) ∈ l ->
  foldl (fun d kv => <[kv.1 := kv.2]> d) d l !! c = Some v.
Proof.
  induction l as [|[k v'] l IH] using rev_ind; intros Hnd Hin.
  - inversion Hin.
  - rewrite foldl_insert_app. simpl. rewrite map_app in Hnd. simpl in Hnd.
    apply NoDup_app in Hnd as (Hnd & Hk & _).
    apply elem_of_app in Hin as [Hin|Hin].
    + assert (k <> c) as Hne.
      { intros ->. apply (Hk c); [|left].
        apply list_elem_of_fmap. exists (c, v). auto. }
      rewrite lookup_insert_ne by exact Hne. apply IH; assumption.
    + apply list_elem_of_singleton in Hin. injection Hin as <- <-.
      apply lookup_insert_eq.
Qed.

Lemma zip_fst_same_length {A B : Type} (ks : list A) (vs : list B) :
  length ks = length vs -> map fst (zip ks vs) = ks.
Proof.
  revert vs. induction ks as [|k ks IH]; intros [|v vs] Hlen;
    simpl in *; try discriminate; [reflexivity|].
  f_equal. apply IH. lia.
Qed.

Lemma zip_map_elem {A B C : Type} (f : A -> B) (g : A -> C) (l : list A) (b : B) (c : C) :
  (b, c) ∈ zip (map f l) (map g l) <-> exists a, a ∈ l /\ b = f a /\ c = g a.
Proof.
  induction l as [|a l IH]; simpl.
  - rewrite elem_of_nil. split; [tauto|]. intros (a & Ha & _). inversion Ha.
  - rewrite elem_of_cons, IH. split.
    + intros [[= -> ->]|(a' & Ha' & -> & ->)].
      * exists a. split; [left|auto].
      * exists a'. split; [right; exact Ha'|auto].
    + intros (a' & Ha' & -> & ->). apply elem_of_cons in Ha' as [->|Ha'].
      * left. reflexivity.
      * right. exists a'. auto.
Qed.

(** [paint_batches[c]] for a paint code of the summary: the required batch
    count of a row of that code, and of the one row of that code when the
    codes are distinct. *)
Lemma paint_batches_lookup (summary : list summary_row) (c : string) :
  c ∈ map paint_code summary ->
  exists r, r ∈ summary /\ paint_code r = c
    /\ dict_zip (map paint_code summary) (map total_batches summary) !! c
       = Some (total_batches r).
Proof.
  intros Hin. unfold dict_zip.
  destruct (foldl_insert_lookup_in ∅
              (zip (map paint_code summary) (map total_batches summary)) c)
    as (n & Hn & Hlook).
  { rewrite zip_fst_same_length by (rewrite !length_map; reflexivity). exact Hin. }
  apply zip_map_elem in Hn as (r & Hr & -> & ->).
  exists r. auto.
Qed.

Lemma paint_batches_lookup_NoDup (summary : list summary_row) (r : summary_row) :
  NoDup (map paint_code summary) -> r ∈ summary ->
  dict_zip (map paint_code summary) (map total_batches summary) !! paint_code r
  = Some (total_batches r).
Proof.
  intros Hnd Hr. unfold dict_zip. apply foldl_insert_lookup_NoDup.
  - rewrite zip_fst_same_length by (rewrite !length_map; reflexivity). exact Hnd.
  - apply zip_map_elem. exists r. auto.
Qed.

(** ** Running optimize_sequence_milp *)

Lemma optimize_run_summary (solver : LpProblem -> LpVariable -> Q) (w : process)
    (summary : list summary_row) :
  paint_summary (self w) = Some summary ->
  optimize_sequence_milp solver w = optimize_with summary solver w.
Proof.
  intros Hs.
  unfold optimize_sequence_milp, optimize_with, mthen, get_self, lift, ret, frame,
    solve, set_num_changeovers.
  rewrite Hs. simpl. rewrite Hs. simpl.
  destruct (ideal_positions_of _ _ _) as [ip|e]; [|reflexivity].
  destruct (build_model _ _ _ _) as [prob|e]; reflexivity.
Qed.

Lemma optimize_run_fresh (solver : LpProblem -> LpVariable -> Q) (w : process)
    (summary : list summary_row) :
  paint_summary (self w) = None ->
  analyze_paint_distribution w = (Ok summary, with_paint_summary w summary) ->
  optimize_sequence_milp solver w
  = optimize_with summary solver (with_paint_summary w summary).
Proof.
  intros Hnone Hrun.
  rewrite <- (optimize_run_summary solver (with_paint_summary w summary) summary)
    by reflexivity.
  unfold optimize_sequence_milp at 1. unfold mthen at 1. unfold get_self at 1.
  unfold mthen at 1. rewrite Hnone. unfold mthen at 1. rewrite Hrun.
  reflexivity.
Qed.

Lemma optimize_run_analysis_raises (solver : LpProblem -> LpVariable -> Q) (w : process)
    (e : string) :
  paint_summary (self w) = None ->
  analyze_paint_distribution w = (Raise e, w) ->
  optimize_sequence_milp solver w = (Raise e, w).
Proof.
  intros Hnone Hrun.
  unfold optimize_sequence_milp. unfold mthen at 1. unfold get_self at 1.
  unfold mthen at 1. rewrite Hnone. unfold mthen at 1. rewrite Hrun.
  reflexivity.
Qed.

(** ** Degenerate parameters *)

Lemma for_each_succeeds {A B : Type} (f : A -> result B) (l : list A) :
  Forall (fun a => exists b, f a = Ok b) l -> exists r, for_each f l = Ok r.
Proof.
  induction 1 as [|a l [b Hb] _ [r IH]]; simpl.
  - exists []. reflexivity.
  - rewrite Hb. simpl. rewrite IH. simpl. exists (b :: r). reflexivity.
Qed.

Lemma calculate_ideal_positions_no_batches (c : string) (n T : Z) :
  n <= 0 -> calculate_ideal_positions c n T = Ok [].
Proof.
  intros Hn. unfold calculate_ideal_positions. simpl.
  destruct (Z.eqb_spec n 1); [lia|]. rewrite range_nonpos by exact Hn. reflexivity.
Qed.

(** ** Adding constraints *)

Lemma rbind_Ok {A B : Type} (m : result A) (k : A -> result B) (b : B) :
  rbind m k = Ok b <-> exists a, m = Ok a /\ k a = Ok b.
Proof.
  destruct m as [a|e]; simpl.
  - split; [eauto|]. intros (a' & [= <-] & H). exact H.
  - split; [discriminate|]. intros (a' & H & _). discriminate.
Qed.

Lemma sanitize_app (s1 s2 : string) : sanitize (s1 +:+ s2) = sanitize s1 +:+ sanitize s2.
Proof. induction s1 as [|a s1 IH]; simpl; [reflexivity|]. rewrite IH. reflexivity. Qed.

Lemma for_loop_app {A S : Type} (body : A -> S -> result S) (l1 l2 : list A) (s : S) :
  for_loop body (l1 ++ l2) s = do s' <- for_loop body l1 s; for_loop body l2 s'.
Proof.
  revert s. induction l1 as [|a l1 IH]; intros s; simpl; [reflexivity|].
  destruct (body a s) as [s'|e]; simpl; [apply IH|reflexivity].
Qed.

Lemma add_constraints_app (ncs1 ncs2 prob : list (string * LpConstraint)) :
  add_constraints (ncs1 ++ ncs2) prob
  = do prob' <- add_constraints ncs1 prob; add_constraints ncs2 prob'.
Proof. apply for_loop_app. Qed.

Lemma add_constraints_single (nc : string * LpConstraint)
    (prob : list (string * LpConstraint)) :
  add_constraints [nc] prob = add_constraint nc prob.
Proof.
  unfold add_constraints. simpl. destruct (add_constraint nc prob); reflexivity.
Qed.

Lemma for_loop_add_map {A : Type} (f : A -> string * LpConstraint) (l : list A)
    (prob : list (string * LpConstraint)) :
  for_loop (fun a => add_constraint (f a)) l prob = add_constraints (map f l) prob.
Proof.
  unfold add_constraints. revert prob. induction l as [|a l IH]; intros prob; simpl;
    [reflexivity|].
  destruct (add_constraint (f a) prob); simpl; [apply IH|reflexivity].
Qed.

Lemma for_loop_add_each {A : Type} (f : A -> list (string * LpConstraint)) (l : list A)
    (prob : list (string * LpConstraint)) :
  for_loop (fun a => add_constraints (f a)) l prob = add_constraints (flat_map f l) prob.
Proof.
  revert prob. induction l as [|a l IH]; intros prob; simpl; [reflexivity|].
  rewrite add_constraints_app.
  destruct (add_constraints (f a) prob); simpl; [apply IH|reflexivity].
Qed.

(** A loop whose body computes constraints, which may raise, and adds them:
    when every computation returns, the loop adds what was computed. *)
Lemma for_loop_computed {A : Type}
    (body : A -> list (string * LpConstraint) -> result (list (string * LpConstraint)))
    (f : A -> result (list (string * LpConstraint))) (l : list A)
    (rs : list (list (string * LpConstraint))) (prob : list (string * LpConstraint)) :
  (forall a r p, a ∈ l -> f a = Ok r -> body a p = add_constraints r p) ->
  for_each f l = Ok rs ->
  for_loop body l prob = add_constraints (concat rs) prob.
Proof.
  revert rs prob. induction l as [|a l IH]; intros rs prob Hbody Hrs; simpl in *.
  - injection Hrs as <-. reflexivity.
  - destruct (f a) as [r|e] eqn:Hr; simpl in Hrs; [|discriminate].
    destruct (for_each f l) as [rs'|e] eqn:Hrs'; simpl in Hrs; [|discriminate].
    injection Hrs as <-. simpl. rewrite add_constraints_app.
    rewrite (Hbody a r prob ltac:(left) Hr).
    destruct (add_constraints r prob) as [p|e]; simpl; [|reflexivity].
    apply IH; [|reflexivity]. intros a' r' p' Ha'. apply Hbody. right. exact Ha'.
Qed.

Lemma for_loop_computes {A : Type}
    (body : A -> list (string * LpConstraint) -> result (list (string * LpConstraint)))
    (f : A -> result (list (string * LpConstraint))) (l : list A)
    (prob prob' : list (string * LpConstraint)) :
  (forall a p p', a ∈ l -> body a p = Ok p' -> exists r, f a = Ok r) ->
  for_loop body l prob = Ok prob' ->
  exists rs, for_each f l = Ok rs.
Proof.
  revert prob. induction l as [|a l IH]; intros prob Hbody Hrun; simpl in *.
  - eauto.
  - apply rbind_Ok in Hrun as (p & Hp & Hrun).
    destruct (Hbody a prob p ltac:(left) Hp) as [r ->]. simpl.
    destruct (IH p) as [rs ->]; [|exact Hrun|simpl; eauto].
    intros a' p1 p2 Ha'. apply Hbody. right. exact Ha'.
Qed.

(** Adding constraints succeeds exactly when their names, as PuLP writes
    them, are distinct and new; nothing else can go wrong. *)
Lemma add_constraints_Ok (ncs prob prob' : list (string * LpConstraint)) :
  add_constraints ncs prob = Ok prob'
  <-> prob' = prob ++ map named ncs
      /\ NoDup (map fst (map named ncs))
      /\ (forall n, n ∈ map fst (map named ncs) -> n ∉ map fst prob).
Proof.
  unfold add_constraints. revert prob.
  induction ncs as [|nc ncs IH]; intros prob; simpl.
  - rewrite app_nil_r. split.
    + intros [= <-]. split; [reflexivity|]. split; [constructor|].
      intros n Hn. inversion Hn.
    + intros (-> & _). reflexivity.
  - unfold add_constraint at 1.
    destruct (decide (sanitize nc.1 ∈ map fst prob)) as [Hin|Hnew]; simpl.
    + split; [discriminate|]. intros (_ & _ & Hfresh).
      exfalso. apply (Hfresh (sanitize nc.1)); [left|exact Hin].
    + rewrite IH, map_app, <- app_assoc. simpl. split.
      * intros (-> & Hnd & Hfresh). split; [reflexivity|]. split.
        -- apply NoDup_cons. split; [|exact Hnd].
           intros Hn. apply (Hfresh _ Hn). apply elem_of_app. right. left.
        -- intros n Hn. apply elem_of_cons in Hn as [->|Hn]; [exact Hnew|].
           intros Hp. apply (Hfresh n Hn). apply elem_of_app. left. exact Hp.
      * intros (-> & Hnd & Hfresh). apply NoDup_cons in Hnd as [Hnc Hnd].
        split; [reflexivity|]. split; [exact Hnd|].
        intros n Hn Hp. apply elem_of_app in Hp as [Hp|Hp].
        -- apply (Hfresh n); [right; exact Hn|exact Hp].
        -- apply list_elem_of_singleton in Hp as ->. contradiction.
Qed.

Lemma add_constraints_raises (ncs prob : list (string * LpConstraint)) (e : string) :
  add_constraints ncs prob = Raise e -> e = "PulpError".
Proof.
  unfold add_constraints. revert prob.
  induction ncs as [|nc ncs IH]; intros prob; simpl; [discriminate|].
  unfold add_constraint at 1.
  destruct (decide (sanitize nc.1 ∈ map fst prob)); simpl; [congruence|apply IH].
Qed.

Lemma add_constraints_from_nothing (ncs prob' : list (string * LpConstraint)) :
  add_constraints ncs [] = Ok prob'
  <-> prob' = map named ncs /\ NoDup (map fst (map named ncs)).
Proof.
  rewrite add_constraints_Ok. simpl. split.
  - intros (-> & Hnd & _). auto.
  - intros (-> & Hnd). split; [reflexivity|]. split; [exact Hnd|].
    intros n _ Hn. inversion Hn.
Qed.

Lemma for_each_singletons {A B : Type} (f : A -> result B) (l : list A) (r : list B) :
  for_each f l = Ok r ->
  for_each (fun a => do b <- f a; Ok [b]) l = Ok (map (fun b => [b]) r)
  /\ concat (map (fun b => [b]) r) = r.
Proof.
  revert r. induction l as [|a l IH]; intros r Hr; simpl in *.
  - injection Hr as <-. split; reflexivity.
  - destruct (f a) as [b|e]; simpl in *; [|discriminate].
    destruct (for_each f l) as [r'|e]; simpl in *; [|discriminate].
    injection Hr as <-. destruct (IH r' eq_refl) as [-> Hc]. simpl.
    rewrite Hc. split; reflexivity.
Qed.

(** The loop of the second family adds the constraints of [batch_count]. *)
Lemma batch_count_loop (paint_codes : list string) (paint_batches : gmap string Z) (T : Z)
    (c2 prob : list (string * LpConstraint)) :
  batch_count paint_codes paint_batches T = Ok c2 ->
  for_loop (fun c prob => do n <- getitem paint_batches c;
                          add_constraint (batch_count_of c n T) prob) paint_codes prob
  = add_constraints c2 prob.
Proof.
  intros Hc2. unfold batch_count in Hc2.
  destruct (for_each_singletons _ _ _ Hc2) as [Hrs Hconcat].
  rewrite <- Hconcat.
  refine (for_loop_computed _ _ _ _ _ _ Hrs).
  intros c r p _ Hr. destruct (getitem paint_batches c) as [n|e]; simpl in *; [|discriminate].
  injection Hr as <-. symmetry. apply add_constraints_single.
Qed.

Lemma batch_count_loop_Ok (paint_codes : list string) (paint_batches : gmap string Z)
    (T : Z) (prob prob' : list (string * LpConstraint)) :
  for_loop (fun c prob => do n <- getitem paint_batches c;
                          add_constraint (batch_count_of c n T) prob) paint_codes prob
  = Ok prob' ->
  exists c2, batch_count paint_codes paint_batches T = Ok c2.
Proof.
  intros Hrun. unfold batch_count.
  assert (exists rs,
            for_each (fun c => do n <- getitem paint_batches c; Ok [batch_count_of c n T])
                     paint_codes = Ok rs) as [rs Hrs].
  { eapply for_loop_computes; [|exact Hrun]. intros c p p' _ H. simpl in H.
    destruct (getitem paint_batches c); simpl in *; [eauto|discriminate]. }
  apply for_each_succeeds. apply Forall_forall. intros c Hc.
  apply for_each_Ok in Hrs.
  destruct (getitem paint_batches c) as [n|e] eqn:Hn; simpl; [eauto|].
  exfalso. clear -Hrs Hc Hn. induction Hrs as [|c' r l rs Hc' _ IH]; [inversion Hc|].
  apply elem_of_cons in Hc as [->|Hc]; [|auto].
  rewrite Hn in Hc'. discriminate.
Qed.

(** The loops of the fourth family add the constraints of
    [level_loading]. *)
Lemma level_loading_loop (paint_codes : list string) (paint_batches : gmap string Z)
    (T : Z) (ideal_positions : gmap string (list Z))
    (c4 prob : list (string * LpConstraint)) :
  level_loading paint_codes paint_batches T ideal_positions = Ok c4 ->
  for_loop (fun c prob =>
              do n <- getitem paint_batches c;
              for_loop (fun i prob =>
                          do positions <- getitem ideal_positions c;
                          do ideal_pos <- list_getitem positions i;
                          for_loop (fun b => add_constraints (dev_pair c i ideal_pos b))
                                   (range T) prob)
                       (range n) prob)
           paint_codes prob
  = add_constraints c4 prob.
Proof.
  unfold level_loading. intros Hc4.
  apply rbind_Ok in Hc4 as (per_paint & Hper & [= <-]).
  refine (for_loop_computed _ _ _ _ _ _ Hper).
  intros c r p _ Hr.
  apply rbind_Ok in Hr as (n & Hn & Hr). rewrite Hn. simpl.
  apply rbind_Ok in Hr as (per_batch & Hbatch & [= <-]).
  refine (for_loop_computed _ _ _ _ _ _ Hbatch).
  intros i r p' _ Hr.
  apply rbind_Ok in Hr as (positions & Hpos & Hr). rewrite Hpos. simpl.
  apply rbind_Ok in Hr as (ideal_pos & Hideal & [= <-]). rewrite Hideal. simpl.
  apply for_loop_add_each.
Qed.

Lemma level_loading_loop_Ok (paint_codes : list string) (paint_batches : gmap string Z)
    (T : Z) (ideal_positions : gmap string (list Z))
    (prob prob' : list (string * LpConstraint)) :
  for_loop (fun c prob =>
              do n <- getitem paint_batches c;
              for_loop (fun i prob =>
                          do positions <- getitem ideal_positions c;
                          do ideal_pos <- list_getitem positions i;
                          for_loop (fun b => add_constraints (dev_pair c i ideal_pos b))
                                   (range T) prob)
                       (range n) prob)
           paint_codes prob
  = Ok prob' ->
  exists c4, level_loading paint_codes paint_batches T ideal_positions = Ok c4.
Proof.
  intros Hrun. unfold level_loading.
  assert (exists rs,
    for_each (fun c => do n <- getitem paint_batches c;
              do per_batch <- for_each (fun i =>
                  do positions <- getitem ideal_positions c;
                  do ideal_pos <- list_getitem positions i;
                  Ok (flat_map (dev_pair c i ideal_pos) (range T))) (range n);
              Ok (concat per_batch)) paint_codes = Ok rs) as [rs ->]; [|simpl; eauto].
  eapply for_loop_computes; [|exact Hrun].
  intros c p p' _ Hc. simpl in Hc. apply rbind_Ok in Hc as (n & -> & Hc). simpl.
  assert (exists rs,
    for_each (fun i => do positions <- getitem ideal_positions c;
              do ideal_pos <- list_getitem positions i;
              Ok (flat_map (dev_pair c i ideal_pos) (range T))) (range n) = Ok rs)
    as [rs ->]; [|simpl; eauto].
  eapply for_loop_computes; [|exact Hc].
  intros i p1 p2 _ Hi. simpl in Hi. apply rbind_Ok in Hi as (positions & -> & Hi). simpl.
  apply rbind_Ok in Hi as (ideal_pos & -> & _). simpl. eauto.
Qed.

(** The model is built exactly when the generator of the [dev] variables,
    the reads of the loops and the objective return and the names of the
    constraints, as PuLP writes them, do not overlap; its constraints are
    then those of the five families, in the order of the statements. *)
Lemma build_model_Ok (paint_codes : list string) (paint_batches : gmap string Z)
    (T : Z) (ideal_positions : gmap string (list Z)) (prob : LpProblem) :
  build_model paint_codes paint_batches T ideal_positions = Ok prob
  <-> exists keys c2 c0 c4,
        deviation_keys paint_codes paint_batches T = Ok keys
        /\ batch_count paint_codes paint_batches T = Ok c2
        /\ first_batch_setup T = Ok c0
        /\ level_loading paint_codes paint_batches T ideal_positions = Ok c4
        /\ minimize_changeovers_and_levelload paint_codes paint_batches T
           = Ok (objective prob)
        /\ constraints prob
           = map named (one_paint_per_batch paint_codes T ++ c2
                        ++ changeover_detect paint_codes T ++ [c0] ++ c4)
        /\ NoDup (map fst (constraints prob)).
Proof.
  unfold build_model. split.
  - intros H.
    apply rbind_Ok in H as (keys & Hkeys & H).
    apply rbind_Ok in H as (p1 & H1 & H). rewrite for_loop_add_map in H1.
    apply rbind_Ok in H as (p2 & H2 & H).
    destruct (batch_count_loop_Ok _ _ _ _ _ H2) as [c2 Hc2].
    rewrite (batch_count_loop _ _ _ _ _ Hc2) in H2.
    apply rbind_Ok in H as (p3 & H3 & H). rewrite for_loop_add_each in H3.
    apply rbind_Ok in H as (c0 & Hc0 & H).
    apply rbind_Ok in H as (p4 & H4 & H). rewrite <- add_constraints_single in H4.
    apply rbind_Ok in H as (p5 & H5 & H).
    destruct (level_loading_loop_Ok _ _ _ _ _ _ H5) as [c4 Hc4].
    rewrite (level_loading_loop _ _ _ _ _ _ Hc4) in H5.
    apply rbind_Ok in H as (obj & Hobj & [= <-]). simpl.
    exists keys, c2, c0, c4.
    assert (add_constraints
              (one_paint_per_batch paint_codes T ++ c2
               ++ changeover_detect paint_codes T ++ [c0] ++ c4) [] = Ok p5) as Hall.
    { unfold one_paint_per_batch, changeover_detect.
      rewrite add_constraints_app, H1. cbn [rbind].
      rewrite add_constraints_app, H2. cbn [rbind].
      rewrite add_constraints_app, H3. cbn [rbind].
      rewrite (add_constraints_app [c0] c4), H4. exact H5. }
    apply add_constraints_from_nothing in Hall as [-> Hnd]. auto 10.
  - intros (keys & c2 & c0 & c4 & Hkeys & Hc2 & Hc0 & Hc4 & Hobj & Hcons & Hnd).
    rewrite Hcons in Hnd.
    pose proof (proj2 (add_constraints_from_nothing _ _) (conj eq_refl Hnd)) as Hall.
    rewrite add_constraints_app in Hall. apply rbind_Ok in Hall as (p1 & H1 & Hall).
    rewrite add_constraints_app in Hall. apply rbind_Ok in Hall as (p2 & H2 & Hall).
    rewrite add_constraints_app in Hall. apply rbind_Ok in Hall as (p3 & H3 & Hall).
    rewrite (add_constraints_app [c0] c4) in Hall.
    apply rbind_Ok in Hall as (p4 & H4 & H5).
    rewrite Hkeys. cbn [rbind]. rewrite for_loop_add_map.
    unfold one_paint_per_batch in H1. rewrite H1. cbn [rbind].
    rewrite (batch_count_loop _ _ _ _ _ Hc2), H2. cbn [rbind].
    rewrite for_loop_add_each. unfold changeover_detect in H3. rewrite H3. cbn [rbind].
    rewrite Hc0. cbn [rbind]. rewrite <- add_constraints_single, H4. cbn [rbind].
    rewrite (level_loading_loop _ _ _ _ _ _ Hc4), H5. cbn [rbind].
    rewrite Hobj. cbn [rbind]. destruct prob as [cs obj]. simpl in *. subst cs.
    reflexivity.
Qed.

(** A valuation satisfies the constraints whatever their names. *)
Lemma holds_named (a : LpVariable -> Q) (ncs : list (string * LpConstraint)) :
  Forall (fun nc => holds a nc.2) (map named ncs) <-> Forall (fun nc => holds a nc.2) ncs.
Proof.
  induction ncs as [|nc ncs IH]; simpl; [split; constructor|].
  rewrite !Forall_cons, IH. reflexivity.
Qed.

Lemma deviation_keys_succeeds (paint_codes : list string) (paint_batches : gmap string Z)
    (T : Z) :
  Forall (fun c => is_Some (paint_batches !! c)) paint_codes ->
  exists keys, deviation_keys paint_codes paint_batches T = Ok keys.
Proof.
  intros Hkeys. unfold deviation_keys.
  destruct (for_each_succeeds
    (fun c => do n <- getitem paint_batches c;
              Ok (flat_map (fun i => map (fun b => (c, i, b)) (range T)) (range n)))
    paint_codes) as [r ->]; [|simpl; eauto].
  eapply Forall_impl; [exact Hkeys|]. intros c [n Hn]. unfold getitem.
  rewrite Hn. simpl. eauto.
Qed.

Lemma batch_count_succeeds (paint_codes : list string) (paint_batches : gmap string Z)
    (T : Z) :
  Forall (fun c => is_Some (paint_batches !! c)) paint_codes ->
  exists c2, batch_count paint_codes paint_batches T = Ok c2
             /\ map fst c2 = map (fun c => "batch_count_" +:+ c) paint_codes.
Proof.
  intros Hkeys. unfold batch_count.
  induction Hkeys as [|c l [n Hn] _ (c2 & IH & Hnames)]; simpl; [eauto|].
  unfold getitem at 1. rewrite Hn. simpl. rewrite IH. simpl.
  eexists. split; [reflexivity|]. simpl. rewrite Hnames. reflexivity.
Qed.

Lemma NoDup_map_prefix (prefix : string) (l : list string) :
  NoDup (map (fun s => prefix +:+ s) l) <-> NoDup l.
Proof.
  induction l as [|s l IH]; simpl; [split; constructor|].
  rewrite !NoDup_cons, IH.
  assert (prefix +:+ s ∈ map (fun s => prefix +:+ s) l <-> s ∈ l) as ->; [|reflexivity].
  rewrite list_elem_of_fmap. split.
  - intros (s' & Heq & Hs').
    assert (s = s') as -> by (clear -Heq; induction prefix as [|a p IHp]; simpl in Heq;
                              [exact Heq|injection Heq as Heq; auto]).
    exact Hs'.
  - intros Hs. exists s. auto.
Qed.

(** The names of the second family, as PuLP writes them, are distinct
    exactly when the paint codes are, as PuLP writes them. *)
Lemma batch_count_names (paint_codes : list string) (c2 : list (string * LpConstraint)) :
  map fst c2 = map (fun c => "batch_count_" +:+ c) paint_codes ->
  NoDup (map fst (map named c2)) <-> NoDup (map sanitize paint_codes).
Proof.
  intros Hnames.
  assert (map fst (map named c2)
          = map (fun s => "batch_count_" +:+ s) (map sanitize paint_codes)) as ->.
  { rewrite !map_map. replace (map (fun x => (named x).1) c2)
      with (map sanitize (map fst c2)) by (rewrite map_map; reflexivity).
    rewrite Hnames, map_map. apply map_ext. intros c. apply sanitize_app. }
  apply NoDup_map_prefix.
Qed.

(** Without a slot, and with paint codes that PuLP writes differently, the
    construction of the model stops at [y[0]]. *)
Lemma build_model_no_slots (paint_codes : list string) (paint_batches : gmap string Z)
    (T : Z) (ideal_positions : gmap string (list Z)) :
  T <= 0 ->
  Forall (fun c => is_Some (paint_batches !! c)) paint_codes ->
  NoDup (map sanitize paint_codes) ->
  build_model paint_codes paint_batches T ideal_positions = Raise "KeyError".
Proof.
  intros HT Hkeys Hnd. unfold build_model.
  destruct (deviation_keys_succeeds _ _ T Hkeys) as [keys ->]. simpl.
  rewrite range_nonpos by exact HT. simpl.
  destruct (batch_count_succeeds _ _ T Hkeys) as (c2 & Hc2 & Hnames).
  rewrite (batch_count_loop _ _ _ _ _ Hc2).
  rewrite (proj2 (add_constraints_from_nothing c2 _)
             (conj eq_refl (proj2 (batch_count_names _ _ Hnames) Hnd))). simpl.
  assert (range_from 1 T = []) as -> by (unfold range_from; apply seqZ_nil; lia).
  simpl. unfold first_batch_setup, changeover_getitem.
  rewrite decide_False; [reflexivity|].
  rewrite range_elem. lia.
Qed.

(** Two paint codes that PuLP writes alike make the names of the second
    family overlap: the construction raises [PulpError]. *)
Lemma build_model_overlap (paint_codes : list string) (paint_batches : gmap string Z)
    (T : Z) (ideal_positions : gmap string (list Z)) :
  Forall (fun c => is_Some (paint_batches !! c)) paint_codes ->
  ~ NoDup (map sanitize paint_codes) ->
  build_model paint_codes paint_batches T ideal_positions = Raise "PulpError".
Proof.
  intros Hkeys Hdup. unfold build_model.
  destruct (deviation_keys_succeeds _ _ T Hkeys) as [keys ->]. simpl.
  rewrite for_loop_add_map.
  destruct (add_constraints _ []) as [p1|e] eqn:H1; simpl;
    [|rewrite (add_constraints_raises _ _ _ H1); reflexivity].
  destruct (batch_count_succeeds _ _ T Hkeys) as (c2 & Hc2 & Hnames).
  rewrite (batch_count_loop _ _ _ _ _ Hc2).
  destruct (add_constraints c2 p1) as [p2|e] eqn:H2; simpl;
    [|rewrite (add_constraints_raises _ _ _ H2); reflexivity].
  exfalso. apply Hdup. apply add_constraints_Ok in H2 as (_ & Hnd & _).
  apply (batch_count_names _ _ Hnames), Hnd.
Qed.

Lemma sumZ_nonpos (l : list Z) : Forall (fun n => n <= 0) l -> sumZ l <= 0.
Proof. induction 1; simpl; lia. Qed.

(** A summary whose required batch counts are all at most zero: the call
    raises, the object is as it was and nothing was solved. The exception
    is the [KeyError] of [y[0]] when PuLP writes the paint codes
    differently, and the [PulpError] of the second family when it writes
    two of them alike. *)
Lemma optimize_with_no_slots (summary : list summary_row)
    (solver : LpProblem -> LpVariable -> Q) (w : process) :
  Forall (fun r => total_batches r <= 0) summary ->
  optimize_with summary solver w
  = (Raise (if decide (NoDup (map sanitize (summary_codes summary)))
            then "KeyError" else "PulpError"), w).
Proof.
  intros Hrows. unfold optimize_with, summary_codes.
  assert (forall c, c ∈ map paint_code summary ->
            exists n, dict_zip (map paint_code summary) (map total_batches summary) !! c
                      = Some n /\ n <= 0) as Hlook.
  { intros c Hc. destruct (paint_batches_lookup summary c Hc) as (r & Hr & _ & Hl).
    exists (total_batches r). split; [exact Hl|].
    rewrite Forall_forall in Hrows. apply Hrows, Hr. }
  assert (sumZ (map total_batches summary) <= 0) as HT.
  { apply sumZ_nonpos. apply Forall_forall. intros n Hn.
    apply list_elem_of_fmap in Hn as (r & -> & Hr).
    rewrite Forall_forall in Hrows. apply Hrows, Hr. }
  assert (exists ip, ideal_positions_of (map paint_code summary)
            (dict_zip (map paint_code summary) (map total_batches summary))
            (sumZ (map total_batches summary)) = Ok ip) as [ip ->].
  { unfold ideal_positions_of.
    rewrite (for_each_total _ (fun c => (c, @nil Z))); [simpl; eauto|].
    apply Forall_forall. intros c Hc. destruct (Hlook c Hc) as (n & Hn & Hle).
    unfold getitem. rewrite Hn. simpl.
    rewrite calculate_ideal_positions_no_batches by exact Hle. reflexivity. }
  assert (Forall (fun c => is_Some (dict_zip (map paint_code summary)
                                      (map total_batches summary) !! c))
                 (map paint_code summary)) as Hkeys.
  { apply Forall_forall. intros c Hc. destruct (Hlook c Hc) as (n & Hn & _).
    rewrite Hn. eauto. }
  destruct (decide (NoDup (map sanitize (map paint_code summary)))) as [Hnd|Hdup].
  - rewrite build_model_no_slots; [reflexivity|exact HT|exact Hkeys|exact Hnd].
  - rewrite build_model_overlap; [reflexivity|exact Hkeys|exact Hdup].
Qed.

Lemma summary_of_unpainted (df : list vehicle) (bs : Z) :
  Forall (fun v => paint v = None) df -> summary_of df bs = [].
Proof.
  intros Hnone. unfold summary_of. rewrite (value_counts_unpainted df Hnone). reflexivity.
Qed.

Lemma NoDup_map_inj {A B : Type} (f : A -> B) (l : list A) (a b : A) :
  NoDup (map f l) -> a ∈ l -> b ∈ l -> f a = f b -> a = b.
Proof.
  induction l as [|x l IH]; simpl; intros Hnd Ha Hb Hf.
  - inversion Ha.
  - apply NoDup_cons in Hnd as [Hx Hnd].
    apply elem_of_cons in Ha as [->|Ha]; apply elem_of_cons in Hb as [->|Hb].
    + reflexivity.
    + exfalso. apply Hx. rewrite Hf. apply list_elem_of_fmap. exists b. auto.
    + exfalso. apply Hx. rewrite <- Hf. apply list_elem_of_fmap. exists a. auto.
    + apply IH; assumption.
Qed.

Lemma NoDup_of_map {A B : Type} (f : A -> B) (l : list A) : NoDup (map f l) -> NoDup l.
Proof.
  induction l as [|x l IH]; simpl; intros Hnd; [constructor|].
  apply NoDup_cons in Hnd as [Hx Hnd]. apply NoDup_cons. split; [|apply IH, Hnd].
  intros Hin. apply Hx. apply list_elem_of_fmap. exists x. auto.
Qed.

(** Two different elements of a list without repetitions that a function
    sends to the same value are what makes its image repeat. *)
Lemma NoDup_map_overlap {A B : Type} (f : A -> B) (l : list A) :
  NoDup l ->
  (NoDup (map f l)
   <-> forall x y, x ∈ l -> y ∈ l -> f x = f y -> x = y).
Proof.
  intros Hnd. split.
  - intros Hmap x y. apply NoDup_map_inj, Hmap.
  - intros Hinj. apply (NoDup_fmap_2_strong f); assumption.
Qed.

(** C6, as stated, fails: with no units there is no slot and the call
    raises a [KeyError]; with a batch size of zero and a unit to count the
    analysis raises a [ValueError]; with a negative batch size and two
    paint codes that differ only in a character that PuLP replaces it
    raises a [PulpError]. *)
Lemma optimize_degenerate_errors :
  (forall solver, (optimize_sequence_milp solver (fresh 20 [])).1 = Raise "KeyError")
  /\ (forall solver,
        (optimize_sequence_milp solver (fresh 0 [unit_A1])).1 = Raise "ValueError")
  /\ (forall solver,
        (optimize_sequence_milp solver (fresh (-20) [unit_dash; unit_underscore])).1
        = Raise "PulpError")
  /\ "KeyError" <> "ModelConstructionError"
  /\ "ValueError" <> "ModelConstructionError"
  /\ "PulpError" <> "ModelConstructionError".
Proof.
  split; [|split; [|split; [|repeat split; discriminate]]]; intros solver.
  - rewrite (optimize_run_fresh solver (fresh 20 []) []) by reflexivity.
    rewrite optimize_with_no_slots by constructor. reflexivity.
  - rewrite (optimize_run_analysis_raises solver (fresh 0 [unit_A1]) "ValueError");
      reflexivity.
  - rewrite (optimize_run_fresh solver (fresh (-20) [unit_dash; unit_underscore])
               (summary_of [unit_dash; unit_underscore] (-20))) by reflexivity.
    rewrite optimize_with_no_slots; [reflexivity|].
    vm_compute. repeat constructor; discriminate.
Qed.

(** C6, amended. The method has no check of its parameters and no error of
    its own. On an object whose table is loaded and that has no summary
    yet: with a batch size of zero and at least one unit that has a paint
    code, the analysis raises [ValueError]; with a negative batch size, or
    with no unit that has a paint code (a schedule of no slots), the
    construction raises [KeyError] at [y[0]], unless two paint codes of the
    table differ only in characters that PuLP replaces in a name, in which
    case the second family of constraints raises [PulpError] before; in all
    these cases no model was handed to the solver. With a positive batch
    size every paint code of the summary requires at least one batch. *)
Theorem optimize_degenerate_parameters (solver : LpProblem -> LpVariable -> Q)
    (w : process) (df : list vehicle) :
  vehicles_df (self w) = Some df ->
  paint_summary (self w) = None ->
  (batch_size (self w) = 0 -> Exists (fun v => paint v <> None) df ->
     optimize_sequence_milp solver w = (Raise "ValueError", w))
  /\ (batch_size (self w) < 0 \/ Forall (fun v => paint v = None) df ->
      (codes_overlap df -> (optimize_sequence_milp solver w).1 = Raise "PulpError")
      /\ (~ codes_overlap df -> (optimize_sequence_milp solver w).1 = Raise "KeyError")
      /\ solved (optimize_sequence_milp solver w).2 = solved w)
  /\ (0 < batch_size (self w) ->
      forall summary, (analyze_paint_distribution w).1 = Ok summary ->
        Forall (fun r => 1 <= total_batches r) summary).
Proof.
  intros Hdf Hnone. split; [|split].
  - intros Hz Hex. apply optimize_run_analysis_raises; [exact Hnone|].
    apply (analyze_run_zero w df); assumption.
  - intros Hdeg.
    assert ((optimize_sequence_milp solver w).1
            = Raise (if decide (NoDup (map sanitize
                                     (summary_codes (summary_of df (batch_size (self w))))))
                     then "KeyError" else "PulpError")
            /\ solved (optimize_sequence_milp solver w).2 = solved w) as [Hrun Hsolved].
    { destruct Hdeg as [Hneg|Hunp].
      - rewrite (optimize_run_fresh solver w (summary_of df (batch_size (self w))));
          [|exact Hnone|apply analyze_run; [exact Hdf|lia]].
        rewrite optimize_with_no_slots; [split; reflexivity|].
        apply Forall_forall. intros r Hr.
        destruct (summary_of_spec df (batch_size (self w))) as (_ & Hrows & _).
        destruct (Hrows r Hr) as (_ & Hpos & ->).
        pose proof (ceiling_correct (vehicle_count r) (batch_size (self w))) as Hc.
        unfold is_ceiling in Hc. nia.
      - rewrite (summary_of_unpainted df _ Hunp).
        rewrite (optimize_run_fresh solver w []);
          [|exact Hnone|apply (analyze_run_unpainted w df); assumption].
        rewrite optimize_with_no_slots by constructor. split; reflexivity. }
    rewrite Hrun.
    destruct (summary_of_spec df (batch_size (self w))) as (Hnd & _ & Hcodes & _).
    fold (summary_codes (summary_of df (batch_size (self w)))) in Hnd, Hcodes.
    pose proof (NoDup_map_overlap sanitize _ Hnd) as Hiff.
    split; [|split; [|exact Hsolved]].
    + intros (c1 & c2 & Hne & H1 & H2 & Heq).
      rewrite decide_False; [reflexivity|].
      intros Hmap. apply Hne. apply (proj1 Hiff Hmap); [apply Hcodes, H1|apply Hcodes, H2|].
      exact Heq.
    + intros Hno. rewrite decide_True; [reflexivity|].
      apply Hiff. intros c1 c2 H1 H2 Heq.
      destruct (decide (c1 = c2)) as [|Hne]; [assumption|].
      exfalso. apply Hno. exists c1, c2.
      split; [exact Hne|]. split; [apply Hcodes, H1|]. split; [apply Hcodes, H2|exact Heq].
  - intros Hpos summary Hrun.
    rewrite (analyze_run w df Hdf) in Hrun by lia. injection Hrun as <-.
    apply Forall_forall. intros r Hr.
    destruct (summary_of_spec df (batch_size (self w))) as (_ & Hrows & _).
    destruct (Hrows r Hr) as (_ & Hcount & ->).
    pose proof (ceiling_correct (vehicle_count r) (batch_size (self w))) as Hc.
    unfold is_ceiling in Hc. nia.
Qed.

Lemma optimize_degenerate_parameters_witness :
  optimize_sequence_milp (fun _ _ => 0%Q) (fresh 0 [unit_A1])
  = (Raise "ValueError", fresh 0 [unit_A1])
  /\ (optimize_sequence_milp (fun _ _ => 0%Q) (fresh (-20) [unit_A1])).1 = Raise "KeyError"
  /\ (optimize_sequence_milp (fun _ _ => 0%Q)
        (fresh (-20) [unit_dash; unit_underscore])).1 = Raise "PulpError"
  /\ solved (optimize_sequence_milp (fun _ _ => 0%Q)
               (fresh (-20) [unit_dash; unit_underscore])).2 = [].
Proof.
  split; [|split; [|split]].
  - apply (optimize_degenerate_parameters (fun _ _ => 0%Q) (fresh 0 [unit_A1]) [unit_A1]
             eq_refl eq_refl).
    + reflexivity.
    + apply Exists_cons. left. discriminate.
  - apply (optimize_degenerate_parameters (fun _ _ => 0%Q) (fresh (-20) [unit_A1]) [unit_A1]
             eq_refl eq_refl).
    + left. simpl. lia.
    + intros (c1 & c2 & Hne & H1 & H2 & _).
      apply list_elem_of_singleton in H1, H2. simpl in H1, H2. congruence.
  - apply (optimize_degenerate_parameters (fun _ _ => 0%Q)
             (fresh (-20) [unit_dash; unit_underscore]) [unit_dash; unit_underscore]
             eq_refl eq_refl).
    + left. simpl. lia.
    + exists "A-B", "A_B". split; [discriminate|].
      split; [left|]. split; [right; left|reflexivity].
  - apply (optimize_degenerate_parameters (fun _ _ => 0%Q)
             (fresh (-20) [unit_dash; unit_underscore]) [unit_dash; unit_underscore]
             eq_refl eq_refl).
    left. simpl. lia.
Defined.

(** ** The constraints of the model *)

Lemma Forall_map_iff {A B : Type} (P : B -> Prop) (f : A -> B) (l : list A) :
  Forall P (map f l) <-> forall a, a ∈ l -> P (f a).
Proof.
  induction l as [|a l IH]; simpl.
  - split; [intros _ a Ha; inversion Ha|constructor].
  - rewrite Forall_cons, IH. split.
    + intros [Ha Hl] a' Ha'. apply elem_of_cons in Ha' as [->|Ha']; auto.
    + intros H. split; [apply H; left|]. intros a' Ha'. apply H. right. exact Ha'.
Qed.

Lemma Forall_flat_map_iff {A B : Type} (P : B -> Prop) (f : A -> list B) (l : list A) :
  Forall P (flat_map f l) <-> forall a, a ∈ l -> Forall P (f a).
Proof.
  induction l as [|a l IH]; simpl.
  - split; [intros _ a Ha; inversion Ha|constructor].
  - rewrite Forall_app, IH. split.
    + intros [Ha Hl] a' Ha'. apply elem_of_cons in Ha' as [->|Ha']; auto.
    + intros H. split; [apply H; left|]. intros a' Ha'. apply H. right. exact Ha'.
Qed.

Lemma Forall_concat_iff {A : Type} (P : A -> Prop) (ls : list (list A)) :
  Forall P (concat ls) <-> forall l, l ∈ ls -> Forall P l.
Proof.
  induction ls as [|l ls IH]; simpl.
  - split; [intros _ l Hl; inversion Hl|constructor].
  - rewrite Forall_app, IH. split.
    + intros [Hl Hls] l' Hl'. apply elem_of_cons in Hl' as [->|Hl']; auto.
    + intros H. split; [apply H; left|]. intros l' Hl'. apply H. right. exact Hl'.
Qed.

(** The results of a loop satisfy a property exactly when the result of each
    iteration does. *)
Lemma for_each_Forall {A B : Type} (f : A -> result B) (l : list A) (r : list B)
    (P : B -> Prop) :
  for_each f l = Ok r ->
  (Forall P r <-> forall a, a ∈ l -> forall b, f a = Ok b -> P b).
Proof.
  revert r. induction l as [|a l IH]; simpl; intros r Hr.
  - injection Hr as <-. split; [intros _ a Ha; inversion Ha|constructor].
  - destruct (f a) as [b|e] eqn:Ha; simpl in Hr; [|discriminate].
    destruct (for_each f l) as [bs|e] eqn:Hl; simpl in Hr; [|discriminate].
    injection Hr as <-. rewrite Forall_cons, (IH bs eq_refl). split.
    + intros [Hb Hbs] a' Ha' b' Hb'. apply elem_of_cons in Ha' as [->|Ha'].
      * congruence.
      * eapply Hbs; eassumption.
    + intros H. split; [apply (H a); [left|exact Ha]|].
      intros a' Ha' b' Hb'. apply (H a'); [right; exact Ha'|exact Hb'].
Qed.

Lemma value_lpSum (a : LpVariable -> Q) {K : Type} (var : K -> LpVariable) (l : list K) :
  value a (lpSum (map (fun k => LpVar (var k)) l)) = sumQ (map (fun k => a (var k)) l).
Proof. simpl. rewrite map_map. reflexivity. Qed.

Lemma one_paint_per_batch_holds (a : LpVariable -> Q) (paint_codes : list string) (T : Z) :
  Forall (fun nc => holds a nc.2) (one_paint_per_batch paint_codes T)
  <-> forall s, 0 <= s < T ->
        (sumQ (map (fun c => a (batch_assignment c s)) paint_codes) == 1)%Q.
Proof.
  unfold one_paint_per_batch. rewrite Forall_map_iff.
  split; intros H s Hs.
  - specialize (H s). rewrite range_elem in H. specialize (H Hs).
    unfold holds in H. simpl in H. rewrite map_map in H. exact H.
  - apply range_elem in Hs. unfold holds. simpl. rewrite map_map. apply H, Hs.
Qed.

Lemma batch_count_holds (a : LpVariable -> Q) (paint_codes : list string)
    (paint_batches : gmap string Z) (T : Z) (c2 : list (string * LpConstraint)) :
  batch_count paint_codes paint_batches T = Ok c2 ->
  (Forall (fun nc => holds a nc.2) c2
   <-> forall c n, c ∈ paint_codes -> paint_batches !! c = Some n ->
         (sumQ (map (fun s => a (batch_assignment c s)) (range T)) == inject_Z n)%Q).
Proof.
  intros Hc2. unfold batch_count in Hc2.
  rewrite (for_each_Forall _ _ _ _ Hc2). split.
  - intros H c n Hc Hn. specialize (H c Hc). unfold getitem in H. rewrite Hn in H.
    specialize (H _ eq_refl). unfold holds in H. simpl in H. rewrite map_map in H.
    exact H.
  - intros H c Hc nc Hnc. unfold getitem in Hnc.
    destruct (paint_batches !! c) as [n|] eqn:Hn; simpl in Hnc; [|discriminate].
    injection Hnc as <-. unfold holds. simpl. rewrite map_map. apply (H c n Hc Hn).
Qed.

Lemma changeover_detect_holds (a : LpVariable -> Q) (paint_codes : list string) (T : Z) :
  Forall (fun nc => holds a nc.2) (changeover_detect paint_codes T)
  <-> forall s c, 1 <= s < T -> c ∈ paint_codes ->
        (a (batch_assignment c s) - a (batch_assignment c (s - 1)) <= a (changeover s))%Q.
Proof.
  unfold changeover_detect. rewrite Forall_flat_map_iff. split.
  - intros H s c Hs Hc. apply range_from_elem in Hs. specialize (H s Hs).
    unfold changeover_detect_at in H. rewrite Forall_map_iff in H. apply (H c Hc).
  - intros H s Hs. apply range_from_elem in Hs. unfold changeover_detect_at.
    rewrite Forall_map_iff. intros c Hc. apply (H s c Hs Hc).
Qed.

Lemma first_batch_setup_holds (a : LpVariable -> Q) (T : Z) (c0 : string * LpConstraint) :
  first_batch_setup T = Ok c0 ->
  0 < T /\ (holds a c0.2 <-> (a (changeover 0) == 1)%Q).
Proof.
  unfold first_batch_setup, changeover_getitem. intros H.
  destruct (decide (0 ∈ range T)) as [Hin|]; simpl in H; [|discriminate].
  injection H as <-. apply range_elem in Hin. split; [lia|reflexivity].
Qed.

Lemma list_getitem_nonneg {A : Type} (l : list A) (i : Z) (x : A) :
  0 <= i -> (list_getitem l i = Ok x <-> l !! Z.to_nat i = Some x).
Proof.
  intros Hi. unfold list_getitem.
  destruct (Z.ltb_spec i 0); [lia|]. destruct (Z.ltb_spec i 0); [lia|].
  destruct (l !! Z.to_nat i); split; congruence.
Qed.

Lemma dev_pair_holds (a : LpVariable -> Q) (c : string) (i p s : Z) :
  Forall (fun nc => holds a nc.2) (dev_pair c i p s)
  <-> (inject_Z (s - p) * a (batch_assignment c s) <= a (deviation c i s))%Q
      /\ (inject_Z (p - s) * a (batch_assignment c s) <= a (deviation c i s))%Q.
Proof.
  unfold dev_pair. rewrite !Forall_cons, Forall_nil. unfold holds. simpl. tauto.
Qed.

Lemma level_loading_holds (a : LpVariable -> Q) (paint_codes : list string)
    (paint_batches : gmap string Z) (T : Z) (ideal_positions : gmap string (list Z))
    (c4 : list (string * LpConstraint)) :
  level_loading paint_codes paint_batches T ideal_positions = Ok c4 ->
  (Forall (fun nc => holds a nc.2) c4
   <-> forall c n positions i p s,
         c ∈ paint_codes -> paint_batches !! c = Some n -> 0 <= i < n ->
         ideal_positions !! c = Some positions -> positions !! Z.to_nat i = Some p ->
         0 <= s < T ->
         (inject_Z (s - p) * a (batch_assignment c s) <= a (deviation c i s))%Q
         /\ (inject_Z (p - s) * a (batch_assignment c s) <= a (deviation c i s))%Q).
Proof.
  unfold level_loading. intros H.
  destruct (for_each _ paint_codes) as [per_paint|e] eqn:Hper; simpl in H; [|discriminate].
  injection H as <-.
  rewrite Forall_concat_iff, <- Forall_forall, (for_each_Forall _ _ _ _ Hper).
  split.
  - intros H c n positions i p s Hc Hn Hi Hpos Hp Hs.
    assert (exists l, (do n <- getitem paint_batches c;
                       do per_batch <- for_each (fun i =>
                           do positions <- getitem ideal_positions c;
                           do ideal_pos <- list_getitem positions i;
                           Ok (flat_map (dev_pair c i ideal_pos) (range T))) (range n);
                       Ok (concat per_batch)) = Ok l) as [l Hrun].
    { apply for_each_Ok in Hper. apply list_elem_of_lookup in Hc as [j Hj].
      destruct (Forall2_lookup_l _ _ _ _ _ Hper Hj) as (l & _ & Hrun). eauto. }
    specialize (H c Hc l Hrun).
    unfold getitem in Hrun at 1. rewrite Hn in Hrun. simpl in Hrun.
    destruct (for_each _ (range n)) as [per_batch|e] eqn:Hbatch; simpl in Hrun;
      [|discriminate].
    injection Hrun as <-.
    rewrite Forall_concat_iff, <- Forall_forall, (for_each_Forall _ _ _ _ Hbatch) in H.
    assert (i ∈ range n) as Hin by (apply range_elem; exact Hi).
    specialize (H i Hin (flat_map (dev_pair c i p) (range T))).
    rewrite Forall_flat_map_iff in H. apply dev_pair_holds. apply H.
    + unfold getitem. rewrite Hpos. simpl.
      rewrite (proj2 (list_getitem_nonneg positions i p (proj1 Hi)) Hp). reflexivity.
    + apply range_elem. exact Hs.
  - intros H c Hc l Hrun. unfold getitem in Hrun at 1.
    destruct (paint_batches !! c) as [n|] eqn:Hn; simpl in Hrun; [|discriminate].
    destruct (for_each _ (range n)) as [per_batch|e] eqn:Hbatch; simpl in Hrun;
      [|discriminate].
    injection Hrun as <-.
    rewrite Forall_concat_iff, <- Forall_forall, (for_each_Forall _ _ _ _ Hbatch).
    intros i Hi l Hl. apply range_elem in Hi. unfold getitem in Hl.
    destruct (ideal_positions !! c) as [positions|] eqn:Hpos; simpl in Hl; [|discriminate].
    destruct (list_getitem positions i) as [p|e] eqn:Hp; simpl in Hl; [|discriminate].
    injection Hl as <-. apply list_getitem_nonneg in Hp; [|lia].
    rewrite Forall_flat_map_iff. intros s Hs. apply range_elem in Hs.
    apply dev_pair_holds. apply (H c n positions i p s); assumption.
Qed.

Lemma for_each_map {A B : Type} (f : A -> result B) (g : A -> B) (l : list A) (r : list B) :
  for_each f l = Ok r ->
  (forall a b, a ∈ l -> f a = Ok b -> b = g a) ->
  r = map g l.
Proof.
  revert r. induction l as [|a l IH]; simpl; intros r Hr Hg.
  - congruence.
  - destruct (f a) as [b|e] eqn:Ha; simpl in Hr; [|discriminate].
    destruct (for_each f l) as [bs|e] eqn:Hl; simpl in Hr; [|discriminate].
    injection Hr as <-. f_equal.
    + apply Hg; [left|exact Ha].
    + apply IH; [reflexivity|]. intros a' b' Ha'. apply Hg. right. exact Ha'.
Qed.

Lemma deviation_keys_index (paint_codes : list string) (paint_batches : gmap string Z)
    (T : Z) (keys : list (string * Z * Z)) :
  deviation_keys paint_codes paint_batches T = Ok keys ->
  keys = deviation_index paint_codes paint_batches T.
Proof.
  unfold deviation_keys, deviation_index. intros H.
  destruct (for_each _ paint_codes) as [per_paint|e] eqn:Hper; simpl in H; [|discriminate].
  injection H as <-. rewrite flat_map_concat_map. f_equal.
  apply (for_each_map _ _ _ _ Hper). intros c l _ Hl. unfold getitem in Hl.
  destruct (paint_batches !! c) as [n|]; simpl in Hl; [|discriminate].
  injection Hl as <-. reflexivity.
Qed.

Lemma objective_value (a : LpVariable -> Q) (paint_codes : list string)
    (paint_batches : gmap string Z) (T : Z) (obj : LpAffineExpression) :
  minimize_changeovers_and_levelload paint_codes paint_batches T = Ok obj ->
  value a obj
  = (1000 * sumQ (map (fun s => a (changeover s)) (range T))
     + 1 * sumQ (map (fun k : string * Z * Z => a (deviation k.1.1 k.1.2 k.2))
                     (deviation_index paint_codes paint_batches T)))%Q.
Proof.
  unfold minimize_changeovers_and_levelload. intros H.
  destruct (deviation_keys _ _ _) as [keys|e] eqn:Hkeys; simpl in H; [|discriminate].
  injection H as <-. apply deviation_keys_index in Hkeys as ->.
  simpl. rewrite !map_map. reflexivity.
Qed.

(** The parts of a model that was built, and what its feasibility says of
    them. *)
Lemma build_model_families (paint_codes : list string) (paint_batches : gmap string Z)
    (T : Z) (ideal_positions : gmap string (list Z)) (prob : LpProblem) :
  build_model paint_codes paint_batches T ideal_positions = Ok prob ->
  exists c2 c0 c4,
    batch_count paint_codes paint_batches T = Ok c2
    /\ first_batch_setup T = Ok c0
    /\ level_loading paint_codes paint_batches T ideal_positions = Ok c4
    /\ minimize_changeovers_and_levelload paint_codes paint_batches T
       = Ok (objective prob)
    /\ constraints prob
       = map named (one_paint_per_batch paint_codes T ++ c2
                    ++ changeover_detect paint_codes T ++ [c0] ++ c4)
    /\ forall a,
         feasible a prob
         <-> Forall (fun nc => holds a nc.2) (one_paint_per_batch paint_codes T)
             /\ Forall (fun nc => holds a nc.2) c2
             /\ Forall (fun nc => holds a nc.2) (changeover_detect paint_codes T)
             /\ holds a c0.2
             /\ Forall (fun nc => holds a nc.2) c4.
Proof.
  intros Hbuild.
  apply build_model_Ok in Hbuild
    as (keys & c2 & c0 & c4 & _ & Hc2 & Hc0 & Hc4 & Hobj & Hcons & _).
  exists c2, c0, c4. split; [exact Hc2|]. split; [exact Hc0|]. split; [exact Hc4|].
  split; [exact Hobj|]. split; [exact Hcons|].
  intros a. unfold feasible. rewrite Hcons, holds_named.
  rewrite !Forall_app, Forall_cons, Forall_nil. tauto.
Qed.

(** What feasibility says of the assignment variables. *)
Lemma feasible_assignment (paint_codes : list string) (paint_batches : gmap string Z)
    (T : Z) (ideal_positions : gmap string (list Z)) (prob : LpProblem)
    (a : LpVariable -> Q) :
  build_model paint_codes paint_batches T ideal_positions = Ok prob ->
  feasible a prob ->
  (forall s, 0 <= s < T ->
     (sumQ (map (fun c => a (batch_assignment c s)) paint_codes) == 1)%Q)
  /\ (forall c n, c ∈ paint_codes -> paint_batches !! c = Some n ->
        (sumQ (map (fun s => a (batch_assignment c s)) (range T)) == inject_Z n)%Q).
Proof.
  intros Hbuild Hfeasible.
  destruct (build_model_families _ _ _ _ _ Hbuild)
    as (c2 & c0 & c4 & Hc2 & _ & _ & _ & _ & Hfeas).
  destruct (proj1 (Hfeas a) Hfeasible) as (H1 & H2 & _).
  split.
  - apply one_paint_per_batch_holds, H1.
  - apply (batch_count_holds a _ _ _ _ Hc2), H2.
Qed.

Lemma build_model_slots (paint_codes : list string) (paint_batches : gmap string Z)
    (T : Z) (ideal_positions : gmap string (list Z)) (prob : LpProblem) :
  build_model paint_codes paint_batches T ideal_positions = Ok prob -> 0 < T.
Proof.
  intros Hbuild.
  destruct (build_model_families _ _ _ _ _ Hbuild) as (c2 & c0 & c4 & _ & Hc0 & _).
  apply (first_batch_setup_holds (fun _ => 0%Q) T c0 Hc0).
Qed.

(** C1. When the model is built, a valuation of the variables satisfies its
    constraints exactly when it satisfies the five stated families: one
    paint code per slot; for each paint code, as many slots as its required
    batch count; changeover detection for every slot from the second on and
    every paint code; [y[0] = 1]; and the two deviation bounds for every
    paint code, each of its required batches and every slot. The objective
    is 1000 times the sum of the [y] plus once the sum of the [dev]. *)
Theorem model_constraint_families (paint_codes : list string)
    (paint_batches : gmap string Z) (T : Z) (ideal_positions : gmap string (list Z))
    (prob : LpProblem) :
  build_model paint_codes paint_batches T ideal_positions = Ok prob ->
  forall a : LpVariable -> Q,
    (feasible a prob
     <-> stated_families paint_codes paint_batches T ideal_positions a)
    /\ value a (objective prob)
       = stated_objective paint_codes paint_batches T a.
Proof.
  intros Hbuild a. unfold stated_families, stated_objective.
  destruct (build_model_families _ _ _ _ _ Hbuild)
    as (c2 & c0 & c4 & Hc2 & Hc0 & Hc4 & Hobj & _ & Hfeas).
  split; [|apply objective_value, Hobj].
  rewrite (Hfeas a).
  rewrite one_paint_per_batch_holds, (batch_count_holds a _ _ _ _ Hc2),
    changeover_detect_holds, (level_loading_holds a _ _ _ _ _ Hc4).
  destruct (first_batch_setup_holds a T c0 Hc0) as [_ ->].
  tauto.
Qed.

Lemma model_constraint_families_witness :
  exists prob,
    build_model scenario_codes scenario_batches 3 scenario_ideal = Ok prob
    /\ length (constraints prob) = 28%nat
    /\ forall a : LpVariable -> Q,
         (feasible a prob
          <-> stated_families scenario_codes scenario_batches 3 scenario_ideal a)
         /\ value a (objective prob) = stated_objective scenario_codes scenario_batches 3 a.
Proof.
  destruct (build_model scenario_codes scenario_batches 3 scenario_ideal)
    as [prob|e] eqn:Hbuild; [|vm_compute in Hbuild; discriminate].
  exists prob. split; [reflexivity|]. split.
  - vm_compute in Hbuild. injection Hbuild as <-. reflexivity.
  - exact (model_constraint_families scenario_codes scenario_batches 3 scenario_ideal
             prob Hbuild).
Defined.

(** ** The summary and the schedule of the model *)

Lemma analyze_Ok_cases (w : process) (df : list vehicle) (summary : list summary_row) :
  vehicles_df (self w) = Some df ->
  (analyze_paint_distribution w).1 = Ok summary ->
  summary = [] /\ Forall (fun v => paint v = None) df
  \/ summary = summary_of df (batch_size (self w)) /\ batch_size (self w) <> 0.
Proof.
  intros Hdf Hrun. destruct (decide (batch_size (self w) = 0)) as [Hz|Hnz].
  - destruct (decide (Forall (fun v => paint v = None) df)) as [Hnone|Hsome].
    + rewrite (analyze_run_unpainted w df Hdf Hnone) in Hrun.
      injection Hrun as <-. left. split; [reflexivity|exact Hnone].
    + apply not_Forall_Exists in Hsome; [|intros v; apply _].
      rewrite (analyze_run_zero w df Hdf Hz) in Hrun; [discriminate|exact Hsome].
  - rewrite (analyze_run w df Hdf Hnz) in Hrun. injection Hrun as <-.
    right. split; [reflexivity|exact Hnz].
Qed.

(** C9, as stated, fails on a table in which a unit has no paint code: the
    counts of the summary add up to one unit, the table has two. *)
Lemma summary_counts_skip_unpainted :
  exists summary,
    (analyze_paint_distribution (fresh 20 [unit_A1; unit_unpainted])).1 = Ok summary
    /\ sumZ (map vehicle_count summary) = 1
    /\ Z.of_nat (length [unit_A1; unit_unpainted]) = 2.
Proof. eexists. repeat split; vm_compute; reflexivity. Qed.

(** C9, amended. When the analysis returns a summary of a table: each row
    counts the units that carry its paint code, and its required batch
    count is the ceiling of that count over the batch size, so the
    required batch counts add up to the sum of these ceilings. The summary
    is stored in the object, and whenever [optimize_sequence_milp] returns
    on an object that holds it, the model that was handed to the solver is
    the one built for a schedule of that many slots: it starts with one
    constraint for each of these slots, and the batch sequence and the
    number of changeovers are read from the answer for these slots. The
    unit counts add up to the number of units that have a paint code,
    which is the number of all units when no paint code is missing. *)
Theorem distribution_summary_sums (solver : LpProblem -> LpVariable -> Q) (w : process)
    (df : list vehicle) (summary : list summary_row) :
  vehicles_df (self w) = Some df ->
  (analyze_paint_distribution w).1 = Ok summary ->
  let T := sumZ (map (fun r => - ((- units_with df (paint_code r)) / batch_size (self w)))
                     summary) in
  (forall r, r ∈ summary ->
     vehicle_count r = units_with df (paint_code r)
     /\ is_ceiling (total_batches r) (units_with df (paint_code r)) (batch_size (self w)))
  /\ sumZ (map total_batches summary) = T
  /\ paint_summary (self (analyze_paint_distribution w).2) = Some summary
  /\ (forall w' batch_sequence,
        paint_summary (self w') = Some summary ->
        (optimize_sequence_milp solver w').1 = Ok batch_sequence ->
        exists ideal_positions prob rest,
          build_model (map paint_code summary)
            (dict_zip (map paint_code summary) (map total_batches summary))
            T ideal_positions = Ok prob
          /\ constraints prob
             = map named (one_paint_per_batch (map paint_code summary) T) ++ rest
          /\ solved (optimize_sequence_milp solver w').2 = prob :: solved w'
          /\ batch_sequence = extract_solution (solver prob) (map paint_code summary) T
          /\ num_changeovers (self (optimize_sequence_milp solver w').2)
             = count_changeovers (solver prob) T)
  /\ sumZ (map vehicle_count summary) = painted_units df
  /\ (Forall (fun v => paint v <> None) df ->
      sumZ (map vehicle_count summary) = Z.of_nat (length df)).
Proof.
  intros Hdf Hrun T.
  assert ((forall r, r ∈ summary ->
             vehicle_count r = units_with df (paint_code r)
             /\ is_ceiling (total_batches r) (units_with df (paint_code r))
                  (batch_size (self w))
             /\ total_batches r
                = - ((- units_with df (paint_code r)) / batch_size (self w)))
          /\ analyze_paint_distribution w = (Ok summary, with_paint_summary w summary)
          /\ sumZ (map vehicle_count summary) = painted_units df) as (Hrows & Hstate & Hsum).
  { destruct (analyze_Ok_cases w df summary Hdf Hrun) as [[-> Hnone]|[-> Hbs]].
    - split; [intros r Hr; inversion Hr|]. split.
      + apply (analyze_run_unpainted w df); assumption.
      + simpl. unfold painted_units. clear -Hnone.
        induction Hnone as [|v df Hv _ IH]; [reflexivity|]. cbn. rewrite Hv. exact IH.
    - destruct (summary_of_spec df (batch_size (self w))) as (_ & Hrows & _ & Hsum).
      split; [|split; [apply (analyze_run w df); assumption|exact Hsum]].
      intros r Hr. destruct (Hrows r Hr) as (Hc & _ & Htb).
      split; [exact Hc|]. rewrite <- Hc. split; [|exact Htb].
      rewrite Htb. apply ceiling_correct, Hbs. }
  assert (sumZ (map total_batches summary) = T) as HT.
  { unfold T. f_equal. apply map_ext_in. intros r Hr.
    apply list_elem_of_In in Hr. apply (Hrows r Hr). }
  split; [intros r Hr; destruct (Hrows r Hr) as (Hc & Hceil & _); auto|].
  split; [exact HT|]. split; [rewrite Hstate; reflexivity|]. split; [|split].
  - intros w' batch_sequence Hs Hopt.
    rewrite (optimize_run_summary solver w' summary Hs) in Hopt |- *.
    unfold optimize_with in Hopt |- *. rewrite HT in Hopt |- *.
    destruct (ideal_positions_of _ _ T) as [ideal_positions|e]; [|discriminate].
    destruct (build_model _ _ T ideal_positions) as [prob|e] eqn:Hbuild; [|discriminate].
    simpl in Hopt. injection Hopt as <-.
    destruct (build_model_families _ _ _ _ _ Hbuild)
      as (c2 & c0 & c4 & _ & _ & _ & _ & Hcons & _).
    exists ideal_positions, prob,
      (map named (c2 ++ changeover_detect (map paint_code summary) T ++ [c0] ++ c4)).
    split; [exact Hbuild|]. split; [rewrite Hcons, map_app; reflexivity|].
    simpl. auto.
  - exact Hsum.
  - intros Hall. rewrite Hsum. unfold painted_units. clear -Hall.
    induction Hall as [|v df Hv _ IH]; [reflexivity|]. cbn.
    destruct (paint v); [|contradiction]. cbn. lia.
Qed.

Lemma distribution_summary_sums_witness :
  let summary := [SummaryRow "A" 2 0 2 1; SummaryRow "B" 1 0 1 1] in
  let T := sumZ (map (fun r => - ((- units_with [unit_A1; unit_A2; unit_B3] (paint_code r))
                                  / 20)) summary) in
  (forall r, r ∈ summary ->
     vehicle_count r = units_with [unit_A1; unit_A2; unit_B3] (paint_code r)
     /\ is_ceiling (total_batches r)
          (units_with [unit_A1; unit_A2; unit_B3] (paint_code r)) 20)
  /\ sumZ (map total_batches summary) = T
  /\ paint_summary (self (analyze_paint_distribution
                            (fresh 20 [unit_A1; unit_A2; unit_B3])).2) = Some summary
  /\ (forall w' batch_sequence,
        paint_summary (self w') = Some summary ->
        (optimize_sequence_milp (fun _ => scenario_solution) w').1 = Ok batch_sequence ->
        exists ideal_positions prob rest,
          build_model (map paint_code summary)
            (dict_zip (map paint_code summary) (map total_batches summary))
            T ideal_positions = Ok prob
          /\ constraints prob
             = map named (one_paint_per_batch (map paint_code summary) T) ++ rest
          /\ solved (optimize_sequence_milp (fun _ => scenario_solution) w').2
             = prob :: solved w'
          /\ batch_sequence
             = extract_solution (scenario_solution) (map paint_code summary) T
          /\ num_changeovers (self (optimize_sequence_milp (fun _ => scenario_solution) w').2)
             = count_changeovers scenario_solution T)
  /\ sumZ (map vehicle_count summary) = painted_units [unit_A1; unit_A2; unit_B3]
  /\ (Forall (fun v => paint v <> None) [unit_A1; unit_A2; unit_B3] ->
      sumZ (map vehicle_count summary) = Z.of_nat (length [unit_A1; unit_A2; unit_B3])).
Proof.
  apply (distribution_summary_sums (fun _ => scenario_solution)
           (fresh 20 [unit_A1; unit_A2; unit_B3]) [unit_A1; unit_A2; unit_B3]
           [SummaryRow "A" 2 0 2 1; SummaryRow "B" 1 0 1 1]).
  - reflexivity.
  - vm_compute. reflexivity.
Defined.

(** ** Solution extraction *)

Lemma extract_batch_first (val : LpVariable -> Q) (b : Z) (paint_codes : list string)
    (r : batch_row) :
  r ∈ extract_batch val b paint_codes ->
  batch_position r = b
  /\ exists before after,
       paint_codes = before ++ b_paint_code r :: after
       /\ assigned (val (batch_assignment (b_paint_code r) b)) = true
       /\ Forall (fun c => assigned (val (batch_assignment c b)) = false) before.
Proof.
  induction paint_codes as [|c rest IH]; simpl; intros Hr.
  - inversion Hr.
  - destruct (assigned (val (batch_assignment c b))) eqn:Hc.
    + apply list_elem_of_singleton in Hr as ->. simpl. split; [reflexivity|].
      exists [], rest. repeat split; [exact Hc|constructor].
    + destruct (IH Hr) as (Hb & before & after & -> & Ha & Hbefore).
      split; [exact Hb|]. exists (c :: before), after.
      repeat split; [exact Ha|]. constructor; assumption.
Qed.

Lemma extract_batch_some (val : LpVariable -> Q) (b : Z) (paint_codes : list string) :
  (exists c, c ∈ paint_codes /\ assigned (val (batch_assignment c b)) = true) ->
  exists c, extract_batch val b paint_codes = [BatchRow b c].
Proof.
  induction paint_codes as [|c rest IH]; simpl; intros (c' & Hin & Hc').
  - inversion Hin.
  - destruct (assigned (val (batch_assignment c b))) eqn:Hc; [eauto|].
    apply IH. exists c'. split; [|exact Hc'].
    apply elem_of_cons in Hin as [->|Hin]; [congruence|exact Hin].
Qed.

Lemma extract_batch_none (val : LpVariable -> Q) (b : Z) (paint_codes : list string) :
  Forall (fun c => assigned (val (batch_assignment c b)) = false) paint_codes ->
  extract_batch val b paint_codes = [].
Proof.
  induction 1 as [|c rest Hc _ IH]; simpl; [reflexivity|]. rewrite Hc. exact IH.
Qed.

Lemma extract_positions (val : LpVariable -> Q) (paint_codes : list string) (slots : list Z) :
  (forall s, s ∈ slots ->
     exists c, c ∈ paint_codes /\ assigned (val (batch_assignment c s)) = true) ->
  map batch_position (flat_map (fun b => extract_batch val b paint_codes) slots) = slots.
Proof.
  induction slots as [|s slots IH]; simpl; intros H; [reflexivity|].
  destruct (extract_batch_some val s paint_codes) as [c ->]; [apply H; left|].
  simpl. f_equal. apply IH. intros s' Hs'. apply H. right. exact Hs'.
Qed.

(** C7, as stated, fails: with a solver that leaves every variable at 0 no
    paint code exceeds the threshold in any slot, and with one that sets
    every variable to 1 both paint codes exceed it in every slot; in both
    cases the call returns a batch sequence and raises nothing. *)
Lemma extraction_accepts_anomalies :
  (optimize_sequence_milp (fun _ _ => 0%Q) (fresh 1 [unit_A1; unit_A2; unit_B3])).1 = Ok []
  /\ (optimize_sequence_milp (fun _ _ => 1%Q) (fresh 1 [unit_A1; unit_A2; unit_B3])).1
     = Ok [BatchRow 0 "A"; BatchRow 1 "A"; BatchRow 2 "A"].
Proof. split; vm_compute; reflexivity. Qed.

(** The inner loop of the extraction leaves a slot without an entry when
    no paint code is above the threshold, and takes the first that is. *)
Lemma extract_batch_entry (val : LpVariable -> Q) (b : Z) (paint_codes : list string) :
  slot_entry val paint_codes b (extract_batch val b paint_codes).
Proof.
  unfold slot_entry. induction paint_codes as [|c rest IH]; simpl.
  - left. split; [constructor|reflexivity].
  - destruct (assigned (val (batch_assignment c b))) eqn:Hc.
    + right. exists [], c, rest. repeat split; [exact Hc|constructor].
    + destruct IH as [[Hnone ->]|(before & c' & after & -> & Hc' & Hbefore & ->)].
      * left. split; [constructor; assumption|reflexivity].
      * right. exists (c :: before), c', after.
        repeat split; [exact Hc'|constructor; assumption].
Qed.

(** C7, amended. The extraction raises nothing. The batch sequence is made
    slot by slot, in ascending order of the slot index: a slot in which no
    paint code has its assignment variable above 0.5 contributes no entry,
    and any other slot contributes one entry, with the first paint code, in
    the order of the summary, whose variable exceeds 0.5 in that slot;
    further paint codes that exceed it are ignored. So every entry belongs
    to a slot of the schedule and carries the first paint code above the
    threshold there. When in every slot some paint code exceeds the
    threshold, the batch sequence has one entry for each slot, in the order
    of the slot index, so its length is [total_batches]. *)
Theorem extraction_selects_first_assigned (val : LpVariable -> Q)
    (paint_codes : list string) (T : Z) :
  (exists entries,
     extract_solution val paint_codes T = concat entries
     /\ Forall2 (slot_entry val paint_codes) (range T) entries)
  /\ (forall r, r ∈ extract_solution val paint_codes T ->
        0 <= batch_position r < T
        /\ exists before after,
             paint_codes = before ++ b_paint_code r :: after
             /\ assigned (val (batch_assignment (b_paint_code r) (batch_position r))) = true
             /\ Forall (fun c => assigned (val (batch_assignment c (batch_position r))) = false)
                       before)
  /\ ((forall s, 0 <= s < T ->
         exists c, c ∈ paint_codes /\ assigned (val (batch_assignment c s)) = true) ->
      map batch_position (extract_solution val paint_codes T) = range T
      /\ Z.of_nat (length (extract_solution val paint_codes T)) = Z.max 0 T).
Proof.
  unfold extract_solution. split; [|split].
  - exists (map (fun b => extract_batch val b paint_codes) (range T)).
    split; [apply flat_map_concat_map|].
    induction (range T) as [|s slots IH]; simpl; constructor;
      [apply extract_batch_entry|exact IH].
  - intros r Hr. apply list_elem_of_In, in_flat_map in Hr as (s & Hs & Hr).
    apply list_elem_of_In in Hs, Hr. apply range_elem in Hs.
    destruct (extract_batch_first val s paint_codes r Hr) as (-> & Hfirst).
    split; [exact Hs|exact Hfirst].
  - intros Hslots.
    assert (map batch_position
              (flat_map (fun b => extract_batch val b paint_codes) (range T)) = range T)
      as Hpos.
    { apply extract_positions. intros s Hs. apply Hslots, range_elem, Hs. }
    split; [exact Hpos|].
    rewrite <- (length_map batch_position), Hpos, range_length. lia.
Qed.

Lemma extraction_selects_first_assigned_witness :
  (exists entries,
     extract_solution (fun v => match v with
                                | batch_assignment _ 1 => 0%Q
                                | _ => 1%Q
                                end) ["A"; "B"] 3 = concat entries
     /\ Forall2 (slot_entry (fun v => match v with
                                      | batch_assignment _ 1 => 0%Q
                                      | _ => 1%Q
                                      end) ["A"; "B"]) [0; 1; 2] entries)
  /\ map batch_position (extract_solution (fun _ => 1%Q) ["A"; "B"] 2) = range 2
  /\ Z.of_nat (length (extract_solution (fun _ => 1%Q) ["A"; "B"] 2)) = Z.max 0 2.
Proof.
  split.
  - exact (proj1 (extraction_selects_first_assigned
                    (fun v => match v with
                              | batch_assignment _ 1 => 0%Q
                              | _ => 1%Q
                              end) ["A"; "B"] 3)).
  - apply (extraction_selects_first_assigned (fun _ => 1%Q) ["A"; "B"] 2).
    intros s _. exists "A". split; [left|reflexivity].
Defined.

(** ** Assignment of vehicles to batches *)

Lemma batch_rows_source (batch_pos seq : Z) (vs : list vehicle) :
  map source (batch_rows batch_pos seq vs) = map unit_key vs.
Proof.
  revert seq. induction vs as [|v vs IH]; intros seq; simpl; [reflexivity|].
  rewrite IH. reflexivity.
Qed.

Lemma batch_rows_vin (batch_pos seq : Z) (vs : list vehicle) :
  map s_vin (batch_rows batch_pos seq vs) = map vin vs.
Proof.
  revert seq. induction vs as [|v vs IH]; intros seq; simpl; [reflexivity|].
  rewrite IH. reflexivity.
Qed.

Lemma batch_rows_paint (batch_pos seq : Z) (vs : list vehicle) :
  map s_paint (batch_rows batch_pos seq vs) = map paint vs.
Proof.
  revert seq. induction vs as [|v vs IH]; intros seq; simpl; [reflexivity|].
  rewrite IH. reflexivity.
Qed.

Lemma batch_rows_length (batch_pos seq : Z) (vs : list vehicle) :
  length (batch_rows batch_pos seq vs) = length vs.
Proof.
  revert seq. induction vs as [|v vs IH]; intros seq; simpl; [reflexivity|].
  rewrite IH. reflexivity.
Qed.

Lemma batch_rows_sequence (batch_pos seq : Z) (vs : list vehicle) (i : nat)
    (r : solution_row) :
  batch_rows batch_pos seq vs !! i = Some r ->
  s_production_sequence r = seq + Z.of_nat i.
Proof.
  revert seq i. induction vs as [|v vs IH]; intros seq i; simpl.
  - rewrite lookup_nil. discriminate.
  - destruct i as [|i]; simpl.
    + intros [= <-]. simpl. lia.
    + intros Hr. rewrite (IH _ _ Hr). lia.
Qed.

Lemma foldl_append_vehicle (batch_pos : Z) (st : list solution_row * Z) (vs : list vehicle) :
  foldl (append_vehicle batch_pos) st vs
  = (st.1 ++ batch_rows batch_pos st.2 vs, st.2 + Z.of_nat (length vs)).
Proof.
  revert st. induction vs as [|v vs IH]; intros [rows seq]; simpl.
  - rewrite app_nil_r. f_equal. lia.
  - rewrite IH. unfold append_vehicle. simpl. rewrite <- app_assoc. simpl.
    f_equal. lia.
Qed.

Lemma assign_batch_eq (vehicles : list vehicle) (bs : Z) (st : list solution_row * Z)
    (batch : batch_row) :
  assign_batch vehicles bs st batch
  = (st.1 ++ batch_rows (batch_position batch) st.2
                (paint_vehicles_of vehicles bs st.1 (b_paint_code batch)),
     st.2 + Z.of_nat (length (paint_vehicles_of vehicles bs st.1 (b_paint_code batch)))).
Proof. unfold assign_batch. apply foldl_append_vehicle. Qed.

Lemma head_prefix {A : Type} (n : Z) (l : list A) : head n l `prefix_of` l.
Proof. unfold head. destruct (n <? 0); apply prefix_take. Qed.

Lemma head_nonneg {A : Type} (n : Z) (l : list A) :
  0 <= n -> head n l = take (Z.to_nat n) l.
Proof. intros Hn. unfold head. destruct (Z.ltb_spec n 0); [lia|reflexivity]. Qed.

(** A prefix of the rows that pass a filter is what passes the filter in a
    prefix of the rows. *)
Lemma prefix_filter_split {A : Type} (P : A -> Prop) `{!forall a, Decision (P a)}
    (l p : list A) :
  p `prefix_of` filter P l ->
  exists la lb, l = la ++ lb /\ filter P la = p.
Proof.
  revert p. induction l as [|a l IH]; intros p Hp.
  - apply prefix_nil_inv in Hp as ->. exists [], []. split; reflexivity.
  - destruct p as [|x p].
    + exists [], (a :: l). split; reflexivity.
    + rewrite filter_cons in Hp. destruct (decide (P a)) as [Ha|Ha].
      * pose proof (prefix_cons_inv_1 _ _ _ _ Hp) as ->.
        apply prefix_cons_inv_2 in Hp. destruct (IH p Hp) as (la & lb & -> & <-).
        exists (a :: la), lb. split; [reflexivity|].
        rewrite filter_cons_True by exact Ha. reflexivity.
      * destruct (IH (x :: p) Hp) as (la & lb & -> & Hla).
        exists (a :: la), lb. split; [reflexivity|].
        rewrite filter_cons_False by exact Ha. exact Hla.
Qed.

Lemma filter_and {A : Type} (P Q : A -> Prop)
    `{!forall a, Decision (P a), !forall a, Decision (Q a)} (l : list A) :
  filter (fun a => P a /\ Q a) l = filter Q (filter P l).
Proof.
  induction l as [|a l IH]; [reflexivity|].
  rewrite (filter_cons P). destruct (decide (P a)) as [Hp|Hp].
  - rewrite (filter_cons Q). destruct (decide (Q a)) as [Hq|Hq].
    + rewrite filter_cons_True by tauto. rewrite IH. reflexivity.
    + rewrite filter_cons_False by tauto. exact IH.
  - rewrite filter_cons_False by tauto. exact IH.
Qed.

(** The vehicles picked for a batch: they carry the paint code of the
    batch, none of them is assigned yet, and they are the first of the
    units of that paint code that are not assigned yet. *)
Lemma paint_vehicles_of_split (vehicles : list vehicle) (bs : Z)
    (rows : list solution_row) (c : string) (l1 l2 : list vehicle) :
  of_paint c vehicles = l1 ++ l2 ->
  Forall (fun v => vin v ∈ map s_vin rows) l1 ->
  exists l2a l2b,
    l2 = l2a ++ l2b
    /\ paint_vehicles_of vehicles bs rows c
       = filter (fun v => vin v ∉ map s_vin rows) l2a.
Proof.
  intros Hsplit Hl1. unfold paint_vehicles_of.
  assert (filter (fun v => paint v = Some c /\ vin v ∉ map s_vin rows) vehicles
          = filter (fun v => vin v ∉ map s_vin rows) l2) as ->.
  { rewrite (filter_and (fun v => paint v = Some c)
                        (fun v => vin v ∉ map s_vin rows)).
    fold (of_paint c vehicles). rewrite Hsplit, filter_app.
    rewrite (filter_none (fun v => vin v ∉ map s_vin rows) l1); [reflexivity|].
    eapply Forall_impl; [exact Hl1|]. intros v Hv Hn. contradiction. }
  destruct (prefix_filter_split (fun v => vin v ∉ map s_vin rows) l2 _ (head_prefix bs _))
    as (l2a & l2b & -> & <-).
  exists l2a, l2b. split; reflexivity.
Qed.

Lemma sublist_map {A B : Type} (f : A -> B) (l1 l2 : list A) :
  l1 `sublist_of` l2 -> map f l1 `sublist_of` map f l2.
Proof. induction 1; simpl; constructor; assumption. Qed.

Lemma sublist_StronglySorted {A : Type} (R : A -> A -> Prop) (l1 l2 : list A) :
  l1 `sublist_of` l2 -> StronglySorted R l2 -> StronglySorted R l1.
Proof.
  induction 1 as [|x l1 l2 Hsub IH|x l1 l2 Hsub IH]; intros Hs.
  - constructor.
  - apply StronglySorted_inv in Hs as [Hs Hx]. constructor; [apply IH, Hs|].
    apply Forall_forall. intros y Hy. rewrite Forall_forall in Hx. apply Hx.
    apply (sublist_subseteq _ _ Hsub). exact Hy.
  - apply StronglySorted_inv in Hs as [Hs _]. apply IH, Hs.
Qed.

Lemma paint_vehicles_of_elem (vehicles : list vehicle) (bs : Z)
    (rows : list solution_row) (c : string) (v : vehicle) :
  v ∈ paint_vehicles_of vehicles bs rows c ->
  paint v = Some c /\ (vin v ∉ map s_vin rows) /\ v ∈ vehicles.
Proof.
  unfold paint_vehicles_of. intros Hv.
  destruct (head_prefix bs
    (filter (fun v => paint v = Some c /\ vin v ∉ map s_vin rows) vehicles)) as [k Hk].
  assert (v ∈ filter (fun v => paint v = Some c /\ vin v ∉ map s_vin rows) vehicles) as Hin
    by (rewrite Hk; apply elem_of_app; left; exact Hv).
  apply list_elem_of_filter in Hin. tauto.
Qed.

Lemma rows_of_paint_batch_rows (c cb : string) (batch_pos seq : Z) (vs : list vehicle) :
  Forall (fun v => paint v = Some cb) vs ->
  rows_of_paint c (batch_rows batch_pos seq vs)
  = if decide (c = cb) then batch_rows batch_pos seq vs else [].
Proof.
  intros Hvs. unfold rows_of_paint.
  assert (Forall (fun r => s_paint r = Some cb) (batch_rows batch_pos seq vs)) as Hrows.
  { clear -Hvs. revert seq. induction Hvs as [|v vs Hv _ IH]; intros seq; simpl;
      constructor; [exact Hv|apply IH]. }
  destruct (decide (c = cb)) as [->|Hne].
  - apply filter_all. exact Hrows.
  - apply filter_none. eapply Forall_impl; [exact Hrows|].
    intros r Hr. rewrite Hr. congruence.
Qed.

(** What holds of the state of the outer loop after any number of batches:
    the sequence numbers count the rows from 1, and for each paint code the
    rows of that code were taken, in table order, from an initial stretch of
    the units of that code, all of whose VINs are assigned by now. *)
Lemma assign_fold_general (vehicles : list vehicle) (bs : Z) (batch_sequence : list batch_row) :
  let st := foldl (assign_batch vehicles bs) ([], 1) batch_sequence in
  st.2 = 1 + Z.of_nat (length st.1)
  /\ (forall i r, st.1 !! i = Some r -> s_production_sequence r = 1 + Z.of_nat i)
  /\ forall c, exists l1 l2,
       of_paint c vehicles = l1 ++ l2
       /\ map source (rows_of_paint c st.1) `sublist_of` map unit_key l1
       /\ Forall (fun v => vin v ∈ map s_vin st.1) l1.
Proof.
  induction batch_sequence as [|batch done IH] using rev_ind; simpl.
  - split; [reflexivity|]. split; [intros i r Hr; rewrite lookup_nil in Hr; discriminate|].
    intros c. exists [], (of_paint c vehicles). repeat split; constructor.
  - rewrite foldl_app. simpl. rewrite assign_batch_eq.
    simpl in IH. destruct IH as (Hseq & Hlook & Hinv).
    set (st := foldl (assign_batch vehicles bs) ([], 1) done) in *.
    set (cb := b_paint_code batch).
    set (picked := paint_vehicles_of vehicles bs st.1 cb).
    assert (Forall (fun v => paint v = Some cb) picked) as Hpaint.
    { apply Forall_forall. intros v Hv. apply (paint_vehicles_of_elem _ _ _ _ _ Hv). }
    simpl. split; [|split].
    + rewrite length_app, batch_rows_length. lia.
    + intros i r Hr. destruct (decide (i < length st.1)%nat) as [Hi|Hi].
      * rewrite lookup_app_l in Hr by exact Hi. apply Hlook, Hr.
      * rewrite lookup_app_r in Hr by lia.
        rewrite (batch_rows_sequence _ _ _ _ _ Hr). lia.
    + intros c. destruct (Hinv c) as (l1 & l2 & Hsplit & Hsub & Hall).
      unfold rows_of_paint. rewrite filter_app. fold (rows_of_paint c st.1).
      fold (rows_of_paint c (batch_rows (batch_position batch) st.2 picked)).
      rewrite (rows_of_paint_batch_rows c cb) by exact Hpaint.
      destruct (decide (c = cb)) as [->|Hne].
      * destruct (paint_vehicles_of_split vehicles bs st.1 cb l1 l2 Hsplit Hall)
          as (l2a & l2b & -> & Hpicked).
        fold picked in Hpicked.
        exists (l1 ++ l2a), l2b. split; [rewrite <- app_assoc; exact Hsplit|]. split.
        -- rewrite !map_app, batch_rows_source. apply sublist_app; [exact Hsub|].
           rewrite Hpicked. apply sublist_map, sublist_filter.
        -- apply Forall_app. split.
           ++ eapply Forall_impl; [exact Hall|]. intros v Hv.
              rewrite map_app. apply elem_of_app. left. exact Hv.
           ++ apply Forall_forall. intros v Hv. rewrite map_app, batch_rows_vin.
              apply elem_of_app.
              destruct (decide (vin v ∈ map s_vin st.1)) as [Hin|Hnot]; [left; exact Hin|].
              right. apply list_elem_of_fmap. exists v. split; [reflexivity|].
              rewrite Hpicked. apply list_elem_of_filter. split; assumption.
      * rewrite app_nil_r. exists l1, l2. split; [exact Hsplit|]. split; [exact Hsub|].
        eapply Forall_impl; [exact Hall|]. intros v Hv.
        rewrite map_app. apply elem_of_app. left. exact Hv.
Qed.

Lemma assign_run (batch_sequence : list batch_row) (w : process) (vehicles : list vehicle) :
  vehicles_df (self w) = Some vehicles ->
  batch_sequence <> [] ->
  assign_vehicles_to_batches batch_sequence w
  = (Ok (assign_rows vehicles (batch_size (self w)) (by_position batch_sequence)),
     with_solution_df w
       (assign_rows vehicles (batch_size (self w)) (by_position batch_sequence))).
Proof.
  intros Hdf Hne.
  unfold assign_vehicles_to_batches, mthen, get_self, lift, ret, frame, set_solution_df,
    with_solution_df, by_position.
  rewrite decide_False by exact Hne. rewrite Hdf. reflexivity.
Qed.

Lemma assign_run_Ok (batch_sequence : list batch_row) (w : process)
    (vehicles : list vehicle) (out : list solution_row) :
  vehicles_df (self w) = Some vehicles ->
  (assign_vehicles_to_batches batch_sequence w).1 = Ok out ->
  batch_sequence <> []
  /\ out = assign_rows vehicles (batch_size (self w)) (by_position batch_sequence).
Proof.
  intros Hdf Hrun. destruct (decide (batch_sequence = [])) as [->|Hne].
  - discriminate.
  - rewrite (assign_run _ _ _ Hdf Hne) in Hrun. injection Hrun as <-. auto.
Qed.

Lemma StronglySorted_map {A B : Type} (R : B -> B -> Prop) (f : A -> B) (l : list A) :
  StronglySorted (fun a b => R (f a) (f b)) l -> StronglySorted R (map f l).
Proof.
  induction 1 as [|a l _ IH Ha]; simpl; constructor; [exact IH|].
  apply Forall_map_iff. intros b Hb. rewrite Forall_forall in Ha. apply Ha, Hb.
Qed.

(** In a table in original order the rows of one paint code stand in the
    solution table in the order of their original sequence index. *)
Lemma assign_rows_order (vehicles : list vehicle) (bs : Z) (batch_sequence : list batch_row)
    (i j : nat) (r1 r2 : solution_row) (c : string) :
  in_original_order vehicles ->
  assign_rows vehicles bs batch_sequence !! i = Some r1 ->
  assign_rows vehicles bs batch_sequence !! j = Some r2 ->
  s_paint r1 = Some c -> s_paint r2 = Some c ->
  s_original_sequence r1 < s_original_sequence r2 ->
  (i < j)%nat.
Proof.
  intros Hsorted Hi Hj Hp1 Hp2 Hlt. unfold assign_rows in *.
  destruct (assign_fold_general vehicles bs batch_sequence) as (_ & _ & Hinv).
  set (rows := (foldl (assign_batch vehicles bs) ([], 1) batch_sequence).1) in *.
  destruct (Hinv c) as (l1 & l2 & Hsplit & Hsub & _).
  assert (StronglySorted (fun a b : string * option string * Z => a.2 <= b.2)
            (map source (rows_of_paint c rows))) as Hs.
  { apply (sublist_StronglySorted _ _ (map unit_key vehicles)).
    - etransitivity; [exact Hsub|].
      apply sublist_map. transitivity (of_paint c vehicles).
      + rewrite Hsplit. apply sublist_inserts_r. reflexivity.
      + apply sublist_filter.
    - apply StronglySorted_map. exact Hsorted. }
  destruct (decide (i < j)%nat) as [|Hge]; [assumption|exfalso].
  assert (j <> i) as Hne by (intros ->; rewrite Hi in Hj; injection Hj as ->; lia).
  assert (j < i)%nat as Hji by lia.
  rewrite <- (take_drop_middle rows i r1 Hi) in Hs.
  unfold rows_of_paint in Hs. rewrite filter_app, filter_cons_True in Hs by exact Hp1.
  rewrite map_app in Hs. simpl in Hs.
  assert (source r2 ∈ map source (filter (fun r => s_paint r = Some c) (take i rows)))
    as Hin.
  { apply list_elem_of_fmap. exists r2. split; [reflexivity|].
    apply list_elem_of_filter. split; [exact Hp2|].
    apply list_elem_of_lookup. exists j. rewrite lookup_take_lt by exact Hji. exact Hj. }
  pose proof (StronglySorted_app_1_elem_of _ _ _ (source r2) (source r1) Hs Hin) as Hle.
  simpl in Hle. specialize (Hle ltac:(left)). lia.
Qed.

(** The outer loop batch by batch: the units of the rows it collects are
    those of one group for each batch, in the order of the batches, and the
    group of a batch is what [head(batch_size)] takes of the rows of the
    table that have the paint code of the batch and a VIN that is in none
    of the groups before. *)
Lemma assign_fold_groups (vehicles : list vehicle) (bs : Z) (batches : list batch_row) :
  exists groups,
    length groups = length batches
    /\ map source (foldl (assign_batch vehicles bs) ([], 1) batches).1
       = map unit_key (concat groups)
    /\ forall k batch, batches !! k = Some batch ->
         groups !! k
         = Some (head bs
                   (filter (fun v => paint v = Some (b_paint_code batch)
                                     /\ vin v ∉ map vin (concat (take k groups)))
                           vehicles)).
Proof.
  induction batches as [|batch done IH] using rev_ind.
  - exists []. split; [reflexivity|]. split; [reflexivity|].
    intros k b Hk. rewrite lookup_nil in Hk. discriminate.
  - destruct IH as (groups & Hlen & Hsrc & Hsel).
    rewrite foldl_app. simpl. rewrite assign_batch_eq.
    set (st := foldl (assign_batch vehicles bs) ([], 1) done) in *.
    assert (map s_vin st.1 = map vin (concat groups)) as Hvin.
    { apply (f_equal (map (fun k : string * option string * Z => k.1.1))) in Hsrc.
      rewrite !map_map in Hsrc. exact Hsrc. }
    exists (groups ++ [paint_vehicles_of vehicles bs st.1 (b_paint_code batch)]).
    split; [rewrite !length_app; simpl; lia|]. split.
    + simpl. rewrite map_app, batch_rows_source, Hsrc, concat_app, map_app. simpl.
      rewrite app_nil_r. reflexivity.
    + intros k b Hk. destruct (decide (k < length done)%nat) as [Hlt|Hge].
      * rewrite lookup_app_l in Hk by exact Hlt.
        rewrite lookup_app_l by lia. rewrite take_app_le by lia. apply Hsel, Hk.
      * assert (k = length done) as ->.
        { apply lookup_lt_Some in Hk. rewrite length_app in Hk. simpl in Hk. lia. }
        rewrite lookup_app_r in Hk by lia. rewrite Nat.sub_diag in Hk.
        injection Hk as <-.
        rewrite lookup_app_r by lia. rewrite Hlen, Nat.sub_diag. simpl.
        rewrite <- Hlen, take_app_length.
        unfold paint_vehicles_of. rewrite Hvin. reflexivity.
Qed.

(** C4, as stated, fails on a table whose rows are not in the order of the
    original sequence index: the unit with original index 1 stands after
    the unit with original index 2 in the table, and it comes after it in
    the new sequence as well. *)
Lemma assignment_follows_table_order :
  (assign_vehicles_to_batches [BatchRow 0 "A"] (fresh 20 [unit_late; unit_early])).1
  = Ok [ SolutionRow "V1" (Some "A") 1 1 2 None;
         SolutionRow "V2" (Some "A") 1 2 1 None ].
Proof. vm_compute. reflexivity. Qed.

(** C4, amended. The batches are taken in ascending order of position, and
    the units of the new sequence are those selected for the first batch,
    then those selected for the second, and so on. For each batch the
    units are selected in the order of the rows of the unit table: they
    are the first [batch_size] rows, as [head] counts them, among the rows
    that have the paint code of the batch and are not assigned to a batch
    before. When the rows of the table are in ascending order of the
    original sequence index, any two units of the new sequence that have
    the same paint code keep their order: the one with the smaller
    original index has the smaller new sequence index. *)
Theorem assignment_preserves_table_order (batch_sequence : list batch_row) (w : process)
    (vehicles : list vehicle) (out : list solution_row) :
  vehicles_df (self w) = Some vehicles ->
  (assign_vehicles_to_batches batch_sequence w).1 = Ok out ->
  (exists ordered groups,
     ordered ≡ₚ batch_sequence
     /\ StronglySorted (fun a b => batch_position a <= batch_position b) ordered
     /\ length groups = length ordered
     /\ map source out = map unit_key (concat groups)
     /\ forall k batch, ordered !! k = Some batch ->
          groups !! k
          = Some (head (batch_size (self w))
                    (filter (fun v => paint v = Some (b_paint_code batch)
                                      /\ vin v ∉ map vin (concat (take k groups)))
                            vehicles)))
  /\ (in_original_order vehicles ->
      forall r1 r2 c,
        r1 ∈ out -> r2 ∈ out ->
        s_paint r1 = Some c -> s_paint r2 = Some c ->
        s_original_sequence r1 < s_original_sequence r2 ->
        s_production_sequence r1 < s_production_sequence r2).
Proof.
  intros Hdf Hrun.
  destruct (assign_run_Ok _ _ _ _ Hdf Hrun) as [_ ->]. split.
  - destruct (assign_fold_groups vehicles (batch_size (self w)) (by_position batch_sequence))
      as (groups & Hlen & Hsrc & Hsel).
    exists (by_position batch_sequence), groups.
    split; [apply sort_by_Permutation|]. split; [apply by_position_sorted|].
    split; [exact Hlen|]. split; [exact Hsrc|exact Hsel].
  - intros Hsorted r1 r2 c Hr1 Hr2 Hp1 Hp2 Hlt.
    apply list_elem_of_lookup in Hr1 as [i Hi]. apply list_elem_of_lookup in Hr2 as [j Hj].
    pose proof (assign_rows_order _ _ _ i j r1 r2 c Hsorted Hi Hj Hp1 Hp2 Hlt) as Hij.
    unfold assign_rows in Hi, Hj.
    destruct (assign_fold_general vehicles (batch_size (self w)) (by_position batch_sequence))
      as (_ & Hlook & _).
    rewrite (Hlook i r1 Hi), (Hlook j r2 Hj). lia.
Qed.

Lemma assignment_preserves_table_order_witness :
  (exists ordered groups,
     ordered ≡ₚ [BatchRow 1 "B"; BatchRow 0 "A"]
     /\ StronglySorted (fun a b => batch_position a <= batch_position b) ordered
     /\ length groups = length ordered
     /\ map source [ SolutionRow "V1" (Some "A") 1 1 1 None;
                     SolutionRow "V3" (Some "B") 2 2 3 None ]
        = map unit_key (concat groups)
     /\ forall k batch, ordered !! k = Some batch ->
          groups !! k
          = Some (head 1
                    (filter (fun v => paint v = Some (b_paint_code batch)
                                      /\ vin v ∉ map vin (concat (take k groups)))
                            [unit_A1; unit_A2; unit_B3])))
  /\ s_production_sequence (SolutionRow "V1" (Some "A") 1 1 1 None)
     < s_production_sequence (SolutionRow "V2" (Some "A") 1 2 2 None).
Proof.
  split.
  - apply (assignment_preserves_table_order [BatchRow 1 "B"; BatchRow 0 "A"]
             (fresh 1 [unit_A1; unit_A2; unit_B3]) [unit_A1; unit_A2; unit_B3]
             [ SolutionRow "V1" (Some "A") 1 1 1 None;
               SolutionRow "V3" (Some "B") 2 2 3 None ]).
    + reflexivity.
    + vm_compute. reflexivity.
  - apply (assignment_preserves_table_order [BatchRow 0 "A"]
             (fresh 20 [unit_A1; unit_A2; unit_B3]) [unit_A1; unit_A2; unit_B3]
             [ SolutionRow "V1" (Some "A") 1 1 1 None;
               SolutionRow "V2" (Some "A") 1 2 2 None ])
      with (c := "A").
    + reflexivity.
    + vm_compute. reflexivity.
    + repeat constructor; simpl; lia.
    + left.
    + right. left.
    + reflexivity.
    + reflexivity.
    + simpl. lia.
Defined.

(** *** Tables with distinct VINs *)

Lemma take_elem {A : Type} (l : list A) (n : nat) (x : A) : x ∈ take n l -> x ∈ l.
Proof. apply (sublist_subseteq _ _ (sublist_take l n)). Qed.

Lemma drop_elem {A : Type} (l : list A) (n : nat) (x : A) : x ∈ drop n l -> x ∈ l.
Proof. apply (sublist_subseteq _ _ (sublist_drop l n)). Qed.

Lemma filter_length_Permutation {A : Type} (P : A -> Prop) `{!forall a, Decision (P a)}
    (l1 l2 : list A) :
  l1 ≡ₚ l2 -> length (filter P l1) = length (filter P l2).
Proof.
  induction 1 as [|x l1 l2 _ IH|x y l|l1 l2 l3 _ IH1 _ IH2].
  - reflexivity.
  - rewrite !filter_cons. destruct (decide (P x)); simpl; rewrite IH; reflexivity.
  - rewrite !filter_cons. destruct (decide (P x)), (decide (P y)); reflexivity.
  - congruence.
Qed.

Lemma batches_of_by_position (c : string) (batch_sequence : list batch_row) :
  batches_of c (by_position batch_sequence) = batches_of c batch_sequence.
Proof.
  unfold batches_of, by_position. f_equal.
  apply filter_length_Permutation, sort_by_Permutation.
Qed.

Lemma batches_of_snoc (c : string) (done : list batch_row) (batch : batch_row) :
  batches_of c (done ++ [batch])
  = batches_of c done + (if decide (b_paint_code batch = c) then 1 else 0).
Proof.
  unfold batches_of. rewrite filter_app, length_app, filter_cons, filter_nil.
  destruct (decide (b_paint_code batch = c)); simpl; lia.
Qed.

Lemma batches_of_nonneg (c : string) (batch_sequence : list batch_row) :
  0 <= batches_of c batch_sequence.
Proof. unfold batches_of. lia. Qed.

(** With distinct VINs, when the rows of each paint code are the first
    [m c] units of that code, the vehicles picked for a batch are the next
    units of its code, at most [batch_size] of them. *)
Lemma paint_vehicles_of_unique (vehicles : list vehicle) (bs : Z)
    (rows : list solution_row) (cb : string) (m : string -> nat) :
  NoDup (map vin vehicles) -> 0 <= bs ->
  Forall (fun r => is_Some (s_paint r)) rows ->
  (forall c, map source (rows_of_paint c rows)
             = map unit_key (take (m c) (of_paint c vehicles))) ->
  paint_vehicles_of vehicles bs rows cb
  = take (Z.to_nat bs) (drop (m cb) (of_paint cb vehicles)).
Proof.
  intros Hnd Hbs Hpainted Hinv. unfold paint_vehicles_of.
  rewrite head_nonneg by exact Hbs. f_equal.
  rewrite (filter_and (fun v => paint v = Some cb) (fun v => vin v ∉ map s_vin rows)).
  fold (of_paint cb vehicles). set (L := of_paint cb vehicles) in *.
  assert (forall v, v ∈ take (m cb) L -> vin v ∈ map s_vin rows) as Hin.
  { intros v Hv.
    assert (unit_key v ∈ map source (rows_of_paint cb rows)) as Hk.
    { rewrite Hinv. apply list_elem_of_fmap. exists v. auto. }
    apply list_elem_of_fmap in Hk as (r & Hr & Hrin).
    apply list_elem_of_filter in Hrin as [_ Hrin].
    apply list_elem_of_fmap. exists r. split; [|exact Hrin].
    unfold unit_key, source in Hr. congruence. }
  assert (forall v, v ∈ L -> vin v ∈ map s_vin rows -> v ∈ take (m cb) L) as Hout.
  { intros v Hv Hvin. apply list_elem_of_filter in Hv as [Hpaint Hv].
    apply list_elem_of_fmap in Hvin as (r & Hr & Hrin).
    rewrite Forall_forall in Hpainted. destruct (Hpainted r Hrin) as [c' Hc'].
    assert (source r ∈ map unit_key (take (m c') (of_paint c' vehicles))) as Hk.
    { rewrite <- Hinv. apply list_elem_of_fmap. exists r. split; [reflexivity|].
      apply list_elem_of_filter. auto. }
    apply list_elem_of_fmap in Hk as (v' & Hv' & Hv'in).
    assert (v' ∈ of_paint c' vehicles) as Hv'L
      by (apply (take_elem _ _ _ Hv'in)).
    apply list_elem_of_filter in Hv'L as [Hpaint' Hv'veh].
    assert (v' = v) as ->.
    { apply (NoDup_map_inj vin vehicles); [exact Hnd|exact Hv'veh|exact Hv|].
      unfold unit_key, source in Hv'. congruence. }
    assert (c' = cb) as -> by congruence. exact Hv'in. }
  assert (NoDup L) as HndL by (apply NoDup_filter, (NoDup_of_map vin), Hnd).
  rewrite <- (take_drop (m cb) L) at 1. rewrite filter_app.
  rewrite (filter_none (fun v => vin v ∉ map s_vin rows) (take (m cb) L)).
  - simpl. apply filter_all. apply Forall_forall. intros v Hv Hvin.
    assert (v ∈ take (m cb) L) as Htake.
    { apply Hout; [|exact Hvin]. apply (drop_elem _ _ _ Hv). }
    rewrite <- (take_drop (m cb) L) in HndL. apply NoDup_app in HndL as (_ & Hdisj & _).
    apply (Hdisj v Htake Hv).
  - apply Forall_forall. intros v Hv Hn. apply Hn, Hin, Hv.
Qed.

(** With distinct VINs and a batch size that is not negative, after the
    batches of a sequence the rows of each paint code are the first units
    of that code, as many as its batches hold between them. *)
Lemma assign_fold_unique (vehicles : list vehicle) (bs : Z) (batch_sequence : list batch_row) :
  NoDup (map vin vehicles) -> 0 <= bs ->
  let st := foldl (assign_batch vehicles bs) ([], 1) batch_sequence in
  Forall (fun r => is_Some (s_paint r)) st.1
  /\ forall c, map source (rows_of_paint c st.1)
               = map unit_key (take (Z.to_nat (batches_of c batch_sequence * bs))
                                    (of_paint c vehicles)).
Proof.
  intros Hnd Hbs.
  induction batch_sequence as [|batch done IH] using rev_ind; simpl.
  - split; [constructor|]. intros c. reflexivity.
  - rewrite foldl_app. simpl. rewrite assign_batch_eq.
    simpl in IH. destruct IH as (Hpainted & Hinv).
    set (st := foldl (assign_batch vehicles bs) ([], 1) done) in *.
    set (cb := b_paint_code batch).
    rewrite (paint_vehicles_of_unique vehicles bs st.1 cb
               (fun c => Z.to_nat (batches_of c done * bs)) Hnd Hbs Hpainted Hinv).
    set (picked := take (Z.to_nat bs)
                     (drop (Z.to_nat (batches_of cb done * bs)) (of_paint cb vehicles))).
    assert (Forall (fun v => paint v = Some cb) picked) as Hpaint.
    { apply Forall_forall. intros v Hv.
      apply take_elem, drop_elem in Hv.
      apply list_elem_of_filter in Hv. tauto. }
    simpl. split.
    + apply Forall_app. split; [exact Hpainted|].
      apply Forall_forall. intros r Hr.
      assert (s_paint r ∈ map s_paint (batch_rows (batch_position batch) st.2 picked))
        as Hp by (apply list_elem_of_fmap; exists r; auto).
      rewrite batch_rows_paint in Hp. apply list_elem_of_fmap in Hp as (v & -> & Hv).
      rewrite Forall_forall in Hpaint. rewrite (Hpaint v Hv). eauto.
    + intros c. unfold rows_of_paint. rewrite filter_app. fold (rows_of_paint c st.1).
      fold (rows_of_paint c (batch_rows (batch_position batch) st.2 picked)).
      rewrite (rows_of_paint_batch_rows c cb) by exact Hpaint.
      rewrite map_app, Hinv, batches_of_snoc. fold cb.
      pose proof (batches_of_nonneg c done) as Hk.
      destruct (decide (c = cb)) as [->|Hne].
      * rewrite decide_True by reflexivity. rewrite batch_rows_source, <- map_app.
        f_equal. unfold picked. rewrite take_take_drop. f_equal. nia.
      * rewrite decide_False by congruence. simpl. rewrite app_nil_r.
        do 3 f_equal. lia.
Qed.

(** C8, as stated, fails: one unit of paint A and two batches of A of size
    one; the second batch finds no unit left, and the call returns the one
    row it has. *)
Lemma assignment_accepts_shortfall :
  (assign_vehicles_to_batches [BatchRow 0 "A"; BatchRow 1 "A"] (fresh 1 [unit_A1])).1
  = Ok [SolutionRow "V1" (Some "A") 1 1 1 None].
Proof. vm_compute. reflexivity. Qed.

(** C8, amended. The assignment has no shortfall check. For a loaded table
    with distinct VINs, a batch size that is not negative and a batch
    sequence that is not empty, the call returns, and the number of units it
    assigns for a paint code is the smaller of the number of units of that
    code and the capacity of the batches of that code: a batch for which
    fewer units remain than its size takes what remains, possibly nothing,
    and the output is then shorter. *)
Theorem assignment_takes_what_remains (batch_sequence : list batch_row) (w : process)
    (vehicles : list vehicle) :
  vehicles_df (self w) = Some vehicles ->
  NoDup (map vin vehicles) ->
  0 <= batch_size (self w) ->
  batch_sequence <> [] ->
  exists out,
    (assign_vehicles_to_batches batch_sequence w).1 = Ok out
    /\ forall c,
         Z.of_nat (length (rows_of_paint c out))
         = Z.min (units_with vehicles c) (batches_of c batch_sequence * batch_size (self w)).
Proof.
  intros Hdf Hnd Hbs Hne. rewrite (assign_run _ _ _ Hdf Hne). simpl.
  eexists. split; [reflexivity|]. intros c. unfold assign_rows.
  destruct (assign_fold_unique vehicles (batch_size (self w)) (by_position batch_sequence)
              Hnd Hbs) as (_ & Hinv).
  rewrite <- (length_map source), Hinv, length_map, length_take, batches_of_by_position.
  unfold units_with, of_paint. pose proof (batches_of_nonneg c batch_sequence). nia.
Qed.

Lemma assignment_takes_what_remains_witness :
  exists out,
    (assign_vehicles_to_batches [BatchRow 0 "A"; BatchRow 1 "A"] (fresh 1 [unit_A1])).1
    = Ok out
    /\ forall c,
         Z.of_nat (length (rows_of_paint c out))
         = Z.min (units_with [unit_A1] c)
                 (batches_of c [BatchRow 0 "A"; BatchRow 1 "A"]
                  * batch_size (self (fresh 1 [unit_A1]))).
Proof.
  apply (assignment_takes_what_remains [BatchRow 0 "A"; BatchRow 1 "A"]
           (fresh 1 [unit_A1]) [unit_A1]).
  - reflexivity.
  - vm_compute. repeat constructor. intros H. inversion H.
  - simpl. lia.
  - discriminate.
Defined.

(** ** Changeovers *)

Example scenario_run :
  exists solution m w',
    run_full_optimization (fun _ => scenario_solution) (fresh 1 [unit_A1; unit_A2; unit_B3])
    = (Ok (solution, m), w')
    /\ map s_vin solution = ["V1"; "V2"; "V3"]
    /\ m_total_changeovers m = 1
    /\ m_changeover_positions m = [3]
    /\ num_changeovers (self w') = 2.
Proof. do 3 eexists. split; [vm_compute; reflexivity|]. repeat split. Qed.

Lemma transitions_snoc_replicate (l : list (option string)) (n : nat) (b : option string) :
  transitions (l ++ replicate (S n) b)
  = (transitions l
     + match last l with
       | Some a => if paint_differs b a then 1 else 0
       | None => 0
       end
     + transitions (replicate (S n) b))%nat.
Proof.
  induction l as [|a l IH]; [reflexivity|].
  destruct l as [|a' l].
  - reflexivity.
  - change (transitions ((a :: a' :: l) ++ replicate (S n) b))
      with ((if paint_differs a' a then 1 else 0)
            + transitions ((a' :: l) ++ replicate (S n) b))%nat.
    rewrite IH. rewrite last_cons_cons.
    change (transitions (a :: a' :: l))
      with ((if paint_differs a' a then 1 else 0) + transitions (a' :: l))%nat.
    lia.
Qed.

Lemma transitions_replicate (n : nat) (c : string) :
  transitions (replicate n (Some c)) = 0%nat.
Proof.
  induction n as [|n IH]; [reflexivity|].
  destruct n as [|n]; [reflexivity|].
  change (transitions (replicate (S (S n)) (Some c)))
    with ((if paint_differs (Some c) (Some c) then 1 else 0)
          + transitions (replicate (S n) (Some c)))%nat.
  rewrite IH. simpl. rewrite bool_decide_eq_false_2; [reflexivity|]. intros H. apply H.
  reflexivity.
Qed.

Lemma last_snoc_replicate {A : Type} (l : list A) (n : nat) (b : A) :
  last (l ++ replicate (S n) b) = Some b.
Proof. rewrite replicate_S_end, app_assoc. apply last_snoc. Qed.

Lemma map_paint_replicate (c : string) (vs : list vehicle) :
  Forall (fun v => paint v = Some c) vs -> map paint vs = replicate (length vs) (Some c).
Proof. induction 1 as [|v vs Hv _ IH]; simpl; [reflexivity|]. rewrite Hv, IH. reflexivity. Qed.

(** The changeover analysis of the metrics counts the places at which the
    paint column of the solution table changes. *)
Lemma foldl_changeover_step (rows : list solution_row) (acc : list Z) (p : option string) :
  length (foldl changeover_step (acc, Some p) rows).1
  = (length acc + transitions (p :: map s_paint rows))%nat.
Proof.
  revert acc p. induction rows as [|r rows IH]; intros acc p.
  - simpl. lia.
  - change (foldl changeover_step (acc, Some p) (r :: rows))
      with (foldl changeover_step (changeover_step (acc, Some p) r) rows).
    unfold changeover_step at 2. simpl fst. simpl snd.
    rewrite IH.
    change (transitions (p :: map s_paint (r :: rows)))
      with ((if paint_differs (s_paint r) p then 1 else 0)
            + transitions (s_paint r :: map s_paint rows))%nat.
    destruct (paint_differs (s_paint r) p); [rewrite length_app; simpl|]; lia.
Qed.

Lemma changeover_positions_length (rows : list solution_row) :
  length (changeover_positions rows) = transitions (map s_paint rows).
Proof.
  unfold changeover_positions. destruct rows as [|r rows]; [reflexivity|].
  change (foldl changeover_step ([], None) (r :: rows))
    with (foldl changeover_step ([], Some (s_paint r)) rows).
  rewrite foldl_changeover_step. reflexivity.
Qed.

(** *** Values of the solver *)

Lemma assigned_one (v : Q) : (v == 1)%Q -> assigned v = true.
Proof.
  intros Hv. unfold assigned. destruct (Qle_bool v (1 # 2)) eqn:Hle; [|reflexivity].
  apply Qle_bool_iff in Hle. rewrite Hv in Hle. exfalso. revert Hle. apply Qlt_not_le.
  reflexivity.
Qed.

Lemma assigned_zero (v : Q) : (v == 0)%Q -> assigned v = false.
Proof.
  intros Hv. unfold assigned.
  assert (Qle_bool v (1 # 2) = true) as ->; [|reflexivity].
  apply Qle_bool_iff. rewrite Hv. discriminate.
Qed.

(** The sum of values that are 0 or 1 is the number of those above the
    threshold. *)
Lemma sum_binary {A : Type} (f : A -> Q) (l : list A) :
  (forall s, s ∈ l -> (f s == 0)%Q \/ (f s == 1)%Q) ->
  (sumQ (map f l)
   == inject_Z (Z.of_nat (length (filter (fun s => assigned (f s) = true) l))))%Q.
Proof.
  induction l as [|s l IH]; intros Hbin; [reflexivity|].
  simpl. rewrite filter_cons. rewrite IH by (intros s' Hs'; apply Hbin; right; exact Hs').
  destruct (Hbin s ltac:(left)) as [Hs|Hs].
  - rewrite (assigned_zero _ Hs), Hs. rewrite decide_False by discriminate.
    apply Qplus_0_l.
  - rewrite (assigned_one _ Hs), Hs. rewrite decide_True by reflexivity.
    simpl length. rewrite Nat2Z.inj_succ, <- Z.add_1_l, inject_Z_plus. reflexivity.
Qed.

Lemma extract_batch_cases (val : LpVariable -> Q) (b : Z) (paint_codes : list string) :
  extract_batch val b paint_codes = []
  \/ exists c, extract_batch val b paint_codes = [BatchRow b c]
               /\ c ∈ paint_codes
               /\ assigned (val (batch_assignment c b)) = true.
Proof.
  induction paint_codes as [|c rest IH]; simpl; [left; reflexivity|].
  destruct (assigned (val (batch_assignment c b))) eqn:Hc.
  - right. exists c. repeat split; [left|exact Hc].
  - destruct IH as [IH|(c' & IH & Hin & Hc')]; [left; exact IH|].
    right. exists c'. repeat split; [exact IH|right; exact Hin|exact Hc'].
Qed.

(** A paint code has at most as many batches in the extracted sequence as
    it has slots in which its variable is above the threshold. *)
Lemma batches_of_extract_le (val : LpVariable -> Q) (paint_codes : list string)
    (c : string) (slots : list Z) :
  (length (filter (fun r => b_paint_code r = c)
             (flat_map (fun b => extract_batch val b paint_codes) slots))
   <= length (filter (fun s => assigned (val (batch_assignment c s)) = true) slots))%nat.
Proof.
  induction slots as [|s slots IH]; [reflexivity|].
  simpl flat_map. rewrite filter_app, length_app, (filter_cons _ s).
  destruct (extract_batch_cases val s paint_codes) as [->|(c' & -> & _ & Hc')].
  - simpl. destruct (decide _); simpl; lia.
  - rewrite filter_cons, filter_nil. simpl b_paint_code.
    destruct (decide (c' = c)) as [->|Hne].
    + rewrite decide_True by exact Hc'. simpl. lia.
    + simpl. destruct (decide _); simpl; lia.
Qed.

(** *** The batch sequence of a solved model *)

Lemma StronglySorted_seqZ (m : Z) (n : nat) :
  StronglySorted (fun a b => (a <=? b) = true) (seqZ m (Z.of_nat n)).
Proof.
  revert m. induction n as [|n IH]; intros m.
  - constructor.
  - rewrite seqZ_cons by lia. replace (Z.pred (Z.of_nat (S n))) with (Z.of_nat n) by lia.
    constructor; [apply IH|].
    apply Forall_forall. intros k Hk. apply elem_of_seqZ in Hk. apply Z.leb_le. lia.
Qed.

Lemma StronglySorted_of_map {A B : Type} (R : B -> B -> Prop) (f : A -> B) (l : list A) :
  StronglySorted R (map f l) -> StronglySorted (fun a b => R (f a) (f b)) l.
Proof.
  induction l as [|a l IH]; simpl; intros Hs; [constructor|].
  apply StronglySorted_inv in Hs as [Hs Ha]. constructor; [apply IH, Hs|].
  apply Forall_forall. intros b Hb. rewrite Forall_map_iff in Ha. apply Ha, Hb.
Qed.

Lemma by_position_slots (batch_sequence : list batch_row) (T : Z) :
  map batch_position batch_sequence = range T ->
  by_position batch_sequence = batch_sequence.
Proof.
  intros Hpos. unfold by_position. apply sort_by_sorted.
  apply (StronglySorted_of_map (fun a b => (a <=? b) = true) batch_position).
  rewrite Hpos. unfold range. destruct (Z_le_gt_dec 0 T) as [HT|HT].
  - rewrite <- (Z2Nat.id T HT). apply StronglySorted_seqZ.
  - fold (range T). rewrite range_nonpos by lia. constructor.
Qed.

Lemma extract_solution_codes (val : LpVariable -> Q) (paint_codes : list string) (T : Z)
    (r : batch_row) :
  r ∈ extract_solution val paint_codes T -> b_paint_code r ∈ paint_codes.
Proof.
  unfold extract_solution. intros Hr.
  apply list_elem_of_In, in_flat_map in Hr as (s & _ & Hr). apply list_elem_of_In in Hr.
  destruct (extract_batch_first val s paint_codes r Hr) as (_ & before & after & -> & _).
  apply elem_of_app. right. left.
Qed.

Lemma slot_paints_extract (val : LpVariable -> Q) (paint_codes : list string)
    (slots : list Z) :
  (forall s, s ∈ slots ->
     exists c, c ∈ paint_codes /\ assigned (val (batch_assignment c s)) = true) ->
  map (fun b => Some (b_paint_code b))
      (flat_map (fun b => extract_batch val b paint_codes) slots)
  = map (slot_paint val paint_codes) slots
  /\ Forall (fun s => is_Some (slot_paint val paint_codes s)) slots.
Proof.
  induction slots as [|s slots IH]; intros H; [split; [reflexivity|constructor]|].
  destruct IH as [IH1 IH2]; [intros s' Hs'; apply H; right; exact Hs'|].
  destruct (extract_batch_some val s paint_codes (H s ltac:(left))) as [c Hc].
  split.
  - simpl. rewrite Hc. simpl. f_equal; [|exact IH1].
    unfold slot_paint. rewrite Hc. reflexivity.
  - constructor; [|exact IH2]. unfold slot_paint. rewrite Hc. simpl. eauto.
Qed.

(** What follows for the extraction from a solution with assignment
    variables in 0 and 1 that satisfies the constraints of the built model:
    the schedule has a slot, in every slot some paint code is above the
    threshold, and no paint code gets more batches than it requires. *)
Lemma solved_model_extraction (paint_codes : list string) (paint_batches : gmap string Z)
    (T : Z) (ideal_positions : gmap string (list Z)) (prob : LpProblem)
    (val : LpVariable -> Q) :
  build_model paint_codes paint_batches T ideal_positions = Ok prob ->
  feasible val prob ->
  binary_assignment val paint_codes T ->
  0 < T
  /\ (forall s, 0 <= s < T ->
        exists c, c ∈ paint_codes /\ assigned (val (batch_assignment c s)) = true)
  /\ (forall c n, c ∈ paint_codes -> paint_batches !! c = Some n ->
        batches_of c (extract_solution val paint_codes T) <= n).
Proof.
  intros Hbuild Hfeasible Hbin.
  destruct (feasible_assignment _ _ _ _ _ _ Hbuild Hfeasible) as [Hone Hcount].
  split; [exact (build_model_slots _ _ _ _ _ Hbuild)|]. split.
  - intros s Hs. specialize (Hone s Hs).
    rewrite (sum_binary (fun c => val (batch_assignment c s)) paint_codes) in Hone
      by (intros c Hc; apply Hbin; assumption).
    change 1%Q with (inject_Z 1) in Hone.
    apply (proj1 (inject_Z_injective _ _)) in Hone.
    destruct (filter (fun c => assigned (val (batch_assignment c s)) = true) paint_codes)
      as [|c l] eqn:Hf; [simpl in Hone; lia|].
    assert (c ∈ filter (fun c => assigned (val (batch_assignment c s)) = true) paint_codes)
      as Hc by (rewrite Hf; left).
    apply list_elem_of_filter in Hc as [Hc Hin]. eauto.
  - intros c n Hc Hn. specialize (Hcount c n Hc Hn).
    rewrite (sum_binary (fun s => val (batch_assignment c s)) (range T)) in Hcount
      by (intros s Hs; apply Hbin; [exact Hc|apply range_elem, Hs]).
    apply (proj1 (inject_Z_injective _ _)) in Hcount.
    rewrite <- Hcount. unfold batches_of, extract_solution.
    apply inj_le, batches_of_extract_le.
Qed.

(** *** Changeovers of the unit sequence and of the batch sequence *)

(** When every batch finds at least one unit, the paint column of the unit
    sequence changes where the paint code of the batch sequence changes. *)
Lemma assign_rows_transitions (vehicles : list vehicle) (bs : Z)
    (batch_sequence : list batch_row) :
  NoDup (map vin vehicles) -> 0 < bs ->
  (forall c, (batches_of c batch_sequence - 1) * bs < units_with vehicles c) ->
  transitions (map s_paint (assign_rows vehicles bs batch_sequence))
  = transitions (map (fun b => Some (b_paint_code b)) batch_sequence)
  /\ last (map s_paint (assign_rows vehicles bs batch_sequence))
     = last (map (fun b => Some (b_paint_code b)) batch_sequence).
Proof.
  intros Hnd Hbs. unfold assign_rows.
  induction batch_sequence as [|batch done IH] using rev_ind; intros Hroom.
  - split; reflexivity.
  - destruct IH as [Htr Hlast].
    { intros c. specialize (Hroom c). rewrite batches_of_snoc in Hroom.
      destruct (decide (b_paint_code batch = c)); nia. }
    rewrite foldl_app. simpl. rewrite assign_batch_eq.
    destruct (assign_fold_unique vehicles bs done Hnd ltac:(lia)) as (Hpainted & Hinv).
    set (st := foldl (assign_batch vehicles bs) ([], 1) done) in *.
    set (cb := b_paint_code batch).
    rewrite (paint_vehicles_of_unique vehicles bs st.1 cb
               (fun c => Z.to_nat (batches_of c done * bs)) Hnd ltac:(lia) Hpainted Hinv).
    set (picked := take (Z.to_nat bs)
                     (drop (Z.to_nat (batches_of cb done * bs)) (of_paint cb vehicles))).
    assert (Forall (fun v => paint v = Some cb) picked) as Hpaint.
    { apply Forall_forall. intros v Hv. apply take_elem, drop_elem in Hv.
      apply list_elem_of_filter in Hv. tauto. }
    assert (exists n, length picked = S n) as [n Hn].
    { specialize (Hroom cb). rewrite batches_of_snoc in Hroom. fold cb in Hroom.
      rewrite decide_True in Hroom by reflexivity.
      pose proof (batches_of_nonneg cb done) as Hk.
      unfold units_with in Hroom. fold (of_paint cb vehicles) in Hroom.
      exists (Nat.pred (length picked)). unfold picked.
      rewrite length_take, length_drop. nia. }
    simpl. rewrite !map_app, batch_rows_paint, (map_paint_replicate cb picked Hpaint), Hn.
    change (map (fun b => Some (b_paint_code b)) [batch]) with (replicate 1 (Some cb)).
    rewrite !transitions_snoc_replicate, !last_snoc_replicate, !transitions_replicate.
    rewrite Htr, Hlast. split; reflexivity.
Qed.

Lemma seqZ_S (m : Z) (n : nat) :
  seqZ m (Z.of_nat (S n)) = m :: seqZ (m + 1) (Z.of_nat n).
Proof.
  rewrite seqZ_cons by lia. f_equal. f_equal; lia.
Qed.

Lemma sum_tight_from (g : Z -> option string) (f : Z -> Q) (n : nat) (start : Z) :
  (forall s, start < s <= start + Z.of_nat n ->
     (f s == if decide (g s = g (s - 1)%Z) then 0 else 1)%Q) ->
  (forall s, start <= s <= start + Z.of_nat n -> is_Some (g s)) ->
  (sumQ (map f (seqZ (start + 1) (Z.of_nat n)))
   == inject_Z (Z.of_nat (transitions (map g (seqZ start (Z.of_nat (S n)))))))%Q.
Proof.
  revert start. induction n as [|n IH]; intros start Htight Hsome.
  - reflexivity.
  - specialize (IH (start + 1)).
    rewrite (seqZ_S start (S n)), (seqZ_S (start + 1) n) in *.
    simpl map in *. simpl sumQ.
    change (transitions (g start :: g (start + 1)%Z :: ?l))
      with ((if paint_differs (g (start + 1)%Z) (g start) then 1 else 0)
            + transitions (g (start + 1)%Z :: l))%nat.
    rewrite IH; [|intros s Hs; apply Htight; lia|intros s Hs; apply Hsome; lia].
    rewrite (Htight (start + 1)) by lia.
    replace (start + 1 - 1) with start by lia.
    destruct (Hsome start ltac:(lia)) as [a Ha].
    destruct (Hsome (start + 1) ltac:(lia)) as [b Hb].
    rewrite Ha, Hb. simpl paint_differs.
    rewrite Nat2Z.inj_add, inject_Z_plus.
    destruct (decide (Some b = Some a)) as [Heq|Hne].
    + rewrite bool_decide_eq_false_2 by (intros H; apply H; congruence). reflexivity.
    + rewrite bool_decide_eq_true_2 by congruence. reflexivity.
Qed.

(** With tight changeover variables the sum of [y] is one more than the
    number of places at which the paint code of the slots changes. *)
Lemma sum_changeovers_tight (val : LpVariable -> Q) (paint_codes : list string) (T : Z) :
  0 < T ->
  tight_changeovers val paint_codes T ->
  (forall s, 0 <= s < T -> is_Some (slot_paint val paint_codes s)) ->
  (sum_changeovers val T
   == inject_Z (1 + Z.of_nat (transitions (map (slot_paint val paint_codes) (range T)))))%Q.
Proof.
  intros HT [Hfirst Htight] Hsome. unfold sum_changeovers, range.
  assert (exists n, T = Z.of_nat (S n)) as [n ->] by (exists (Z.to_nat (T - 1)); lia).
  rewrite (seqZ_S 0 n) at 1.
  simpl map. simpl sumQ. rewrite Hfirst.
  rewrite (sum_tight_from (slot_paint val paint_codes) (fun s => val (changeover s)) n 0).
  - rewrite inject_Z_plus. reflexivity.
  - intros s Hs. apply Htight. lia.
  - intros s Hs. apply Hsome. lia.
Qed.

(** With tight changeover variables the number of [y] above the threshold,
    which the method keeps in [num_changeovers], is the sum of [y]. *)
Lemma count_changeovers_tight (val : LpVariable -> Q) (paint_codes : list string) (T : Z) :
  tight_changeovers val paint_codes T ->
  (inject_Z (count_changeovers val T) == sum_changeovers val T)%Q.
Proof.
  intros [Hfirst Htight]. unfold count_changeovers, sum_changeovers.
  symmetry. apply (sum_binary (fun s => val (changeover s))).
  intros s Hs. apply range_elem in Hs.
  destruct (decide (s = 0)) as [->|Hne]; [right; exact Hfirst|].
  specialize (Htight s ltac:(lia)).
  destruct (decide _); [left|right]; exact Htight.
Qed.

(** *** The workflow *)

Lemma mthen_Ok {A B : Type} (m : method A) (k : A -> method B) (w w' : process) (a : A) :
  m w = (Ok a, w') -> mthen m k w = k a w'.
Proof. intros H. unfold mthen. rewrite H. reflexivity. Qed.

Lemma update_timestamps_run (w : process) (vehicles : list vehicle)
    (rows : list solution_row) :
  vehicles_df (self w) = Some vehicles ->
  solution_df (self w) = Some rows ->
  exists rows',
    update_timestamps None 1 w = (Ok rows', with_solution_df w rows')
    /\ map kept_columns rows' = map kept_columns rows.
Proof.
  intros Hdf Hrows.
  unfold update_timestamps, mthen, get_self, lift, ret, frame, set_solution_df,
    with_solution_df.
  rewrite Hdf. simpl. rewrite Hrows. simpl. rewrite ?Hdf. eexists. split; [reflexivity|].
  apply set_planned_kept. rewrite length_map, range_length. lia.
Qed.

Lemma kept_columns_paint (rows rows' : list solution_row) :
  map kept_columns rows' = map kept_columns rows -> map s_paint rows' = map s_paint rows.
Proof.
  intros H.
  assert (forall l, map s_paint l = map (fun k : string * option string * Z * Z * Z =>
                                           k.1.1.1.2) (map kept_columns l)) as Hp
    by (intros l; rewrite map_map; reflexivity).
  rewrite (Hp rows'), (Hp rows), H. reflexivity.
Qed.

Lemma generate_summary_metrics_run (w : process) (rows : list solution_row) :
  solution_df (self w) = Some rows ->
  rows <> [] ->
  exists m,
    generate_summary_metrics w = (Ok m, w)
    /\ m_total_changeovers m = Z.of_nat (transitions (map s_paint rows)).
Proof.
  intros Hrows Hne. unfold generate_summary_metrics, mthen, get_self, lift, ret.
  rewrite Hrows. simpl. rewrite decide_False by exact Hne. simpl.
  eexists. split; [reflexivity|]. simpl. rewrite changeover_positions_length. reflexivity.
Qed.

Lemma optimize_with_model (summary : list summary_row)
    (solver : LpProblem -> LpVariable -> Q) (w : process) (prob : LpProblem) :
  model_of summary = Ok prob ->
  exists ideal_positions,
    build_model (summary_codes summary)
      (dict_zip (map paint_code summary) (map total_batches summary))
      (schedule_length summary) ideal_positions = Ok prob
    /\ optimize_with summary solver w
       = (Ok (extract_solution (solver prob) (summary_codes summary)
                (schedule_length summary)),
          Process (Optimizer (batch_size (self w)) (vehicles_df (self w))
                             (paint_summary (self w)) (solution_df (self w))
                             (count_changeovers (solver prob) (schedule_length summary)))
                  (prob :: solved w)).
Proof.
  unfold model_of, optimize_with, summary_codes, schedule_length. intros Hmodel.
  destruct (ideal_positions_of _ _ _) as [ip|e]; simpl in Hmodel; [|discriminate].
  exists ip. split; [exact Hmodel|]. rewrite Hmodel. reflexivity.
Qed.

(** Every paint code has room for its batches: the batches before its last
    one do not use up its units. *)
Lemma solved_model_room (vehicles : list vehicle) (bs : Z) (prob : LpProblem)
    (ideal_positions : gmap string (list Z)) (val : LpVariable -> Q) (c : string) :
  0 < bs ->
  build_model (summary_codes (summary_of vehicles bs))
    (dict_zip (map paint_code (summary_of vehicles bs))
              (map total_batches (summary_of vehicles bs)))
    (schedule_length (summary_of vehicles bs)) ideal_positions = Ok prob ->
  feasible val prob ->
  binary_assignment val (summary_codes (summary_of vehicles bs))
    (schedule_length (summary_of vehicles bs)) ->
  (batches_of c (extract_solution val (summary_codes (summary_of vehicles bs))
                   (schedule_length (summary_of vehicles bs))) - 1) * bs
  < units_with vehicles c.
Proof.
  intros Hbs Hbuild Hfeasible Hbin.
  destruct (solved_model_extraction _ _ _ _ _ _ Hbuild Hfeasible Hbin) as (_ & _ & Hle).
  set (summary := summary_of vehicles bs) in *.
  destruct (decide (c ∈ summary_codes summary)) as [Hc|Hc].
  - destruct (paint_batches_lookup summary c Hc) as (r & Hr & Hcode & Hlook).
    specialize (Hle c (total_batches r) Hc Hlook).
    destruct (summary_of_spec vehicles bs) as (_ & Hrows & _).
    destruct (Hrows r Hr) as (Hcount & _ & Htb). fold summary in Hr.
    pose proof (ceiling_correct (vehicle_count r) bs ltac:(lia)) as Hceil.
    rewrite <- Htb in Hceil. unfold is_ceiling in Hceil.
    rewrite Hcode in Hcount. nia.
  - assert (batches_of c (extract_solution val (summary_codes summary)
                            (schedule_length summary)) = 0) as ->.
    { unfold batches_of. rewrite filter_none; [reflexivity|].
      apply Forall_forall. intros r Hr Heq. apply Hc. rewrite <- Heq.
      apply (extract_solution_codes _ _ _ _ Hr). }
    unfold units_with. lia.
Qed.

(** C3, as stated, fails: for three units (two of paint A, one of paint B)
    in batches of one and the solution A, A, B with tight changeover
    variables, which satisfies the model, the metrics count one changeover;
    the sum of [y] is two. *)
Lemma metrics_omit_the_setup :
  exists prob solution m w',
    model_of (summary_of [unit_A1; unit_A2; unit_B3] 1) = Ok prob
    /\ feasible scenario_solution prob
    /\ tight_changeovers scenario_solution ["A"; "B"] 3
    /\ run_full_optimization (fun _ => scenario_solution)
         (fresh 1 [unit_A1; unit_A2; unit_B3]) = (Ok (solution, m), w')
    /\ m_total_changeovers m = 1
    /\ (sum_changeovers scenario_solution 3 == 2)%Q.
Proof.
  do 4 eexists. split; [vm_compute; reflexivity|]. split; [|split; [|split; [|split]]].
  - unfold feasible. simpl constraints.
    repeat (apply Forall_cons; split; [unfold holds; vm_compute;
                                       first [reflexivity | discriminate]|]).
    constructor.
  - split; [reflexivity|]. intros s Hs.
    assert (s = 1 \/ s = 2) as [-> | ->] by lia; vm_compute; reflexivity.
  - vm_compute. reflexivity.
  - reflexivity.
  - reflexivity.
Qed.

(** C3, amended. For a table with distinct VINs and a positive batch size,
    and a solution of the built model whose assignment variables are 0 or 1
    and whose changeover variables are tight: the workflow returns, the
    changeover count of its metrics is the sum of [y[s]] over all slots
    less one (the metrics count the places at which the paint code of the
    unit sequence changes, and not the setup of the first slot, for which
    [y[0] = 1]), and the changeover count that the optimisation step keeps
    in [num_changeovers] is the sum of [y[s]] itself. *)
Theorem metrics_changeovers_plus_setup (solver : LpProblem -> LpVariable -> Q)
    (w : process) (vehicles : list vehicle) (prob : LpProblem) :
  vehicles_df (self w) = Some vehicles ->
  0 < batch_size (self w) ->
  NoDup (map vin vehicles) ->
  model_of (summary_of vehicles (batch_size (self w))) = Ok prob ->
  feasible (solver prob) prob ->
  binary_assignment (solver prob)
    (summary_codes (summary_of vehicles (batch_size (self w))))
    (schedule_length (summary_of vehicles (batch_size (self w)))) ->
  tight_changeovers (solver prob)
    (summary_codes (summary_of vehicles (batch_size (self w))))
    (schedule_length (summary_of vehicles (batch_size (self w)))) ->
  exists solution m w',
    run_full_optimization solver w = (Ok (solution, m), w')
    /\ (inject_Z (m_total_changeovers m) + 1
        == sum_changeovers (solver prob)
             (schedule_length (summary_of vehicles (batch_size (self w)))))%Q
    /\ (inject_Z (num_changeovers (self w'))
        == sum_changeovers (solver prob)
             (schedule_length (summary_of vehicles (batch_size (self w)))))%Q.
Proof.
  intros Hdf Hbs Hnd Hmodel Hfeasible Hbin Htight.
  set (bs := batch_size (self w)) in *.
  set (summary := summary_of vehicles bs) in *.
  set (codes := summary_codes summary) in *.
  set (T := schedule_length summary) in *.
  set (val := solver prob) in *.
  destruct (optimize_with_model summary solver (with_paint_summary w summary) prob Hmodel)
    as (ip & Hbuild & Hopt).
  fold codes T val in Hbuild, Hopt.
  destruct (solved_model_extraction _ _ _ _ _ _ Hbuild Hfeasible Hbin)
    as (HT & Hslots & _).
  set (bseq := extract_solution val codes T) in *.
  assert (map batch_position bseq = range T) as Hpos.
  { apply extract_positions. intros s Hs. apply Hslots, range_elem, Hs. }
  assert (bseq <> []) as Hne.
  { intros Hnil. rewrite Hnil in Hpos. apply (f_equal length) in Hpos.
    rewrite range_length in Hpos. simpl in Hpos. lia. }
  destruct (assign_rows_transitions vehicles bs bseq Hnd Hbs) as [Htr Hlast].
  { intros c. apply (solved_model_room vehicles bs prob ip val c Hbs Hbuild Hfeasible Hbin). }
  destruct (slot_paints_extract val codes (range T)) as [Hpaints Hsome].
  { intros s Hs. apply Hslots, range_elem, Hs. }
  fold (extract_solution val codes T) in Hpaints. fold bseq in Hpaints.
  set (rows := assign_rows vehicles bs bseq) in *.
  assert (rows <> []) as Hrows.
  { intros Hnil. rewrite Hnil in Hlast. simpl in Hlast. symmetry in Hlast.
    apply last_None in Hlast. destruct bseq; [congruence|discriminate]. }
  (* the run *)
  unfold run_full_optimization.
  rewrite (mthen_Ok _ _ _ _ _ (analyze_run w vehicles Hdf ltac:(lia))).
  fold bs summary.
  rewrite (mthen_Ok _ _ _ _ _
             (eq_trans (optimize_run_summary solver (with_paint_summary w summary) summary
                          eq_refl) Hopt)).
  match goal with
  | |- context [mthen (assign_vehicles_to_batches bseq) _ ?w2] =>
      rewrite (mthen_Ok _ _ w2 _ _ (assign_run bseq w2 vehicles Hdf Hne))
  end.
  rewrite (by_position_slots bseq T Hpos). simpl batch_size. fold bs rows.
  match goal with
  | |- context [mthen (update_timestamps None 1) _ ?w3] =>
      destruct (update_timestamps_run w3 vehicles rows Hdf eq_refl)
        as (rows' & Hupdate & Hkept);
      rewrite (mthen_Ok _ _ w3 _ _ Hupdate)
  end.
  assert (rows' <> []) as Hrows'.
  { intros Hnil. rewrite Hnil in Hkept. destruct rows; [congruence|discriminate]. }
  match goal with
  | |- context [mthen generate_summary_metrics _ ?w4] =>
      destruct (generate_summary_metrics_run w4 rows' eq_refl Hrows') as (m & Hm & Hcount);
      rewrite (mthen_Ok _ _ w4 _ _ Hm)
  end.
  eexists rows', m, _. split; [reflexivity|]. split.
  - rewrite Hcount, (kept_columns_paint _ _ Hkept), Htr, Hpaints.
    rewrite (sum_changeovers_tight val codes T HT Htight).
    + rewrite inject_Z_plus. apply Qplus_comm.
    + intros s Hs. rewrite Forall_forall in Hsome. apply Hsome, range_elem, Hs.
  - simpl. apply (count_changeovers_tight val codes T Htight).
Qed.

Lemma metrics_changeovers_plus_setup_witness :
  exists solution m w',
    run_full_optimization (fun _ => scenario_solution) (fresh 1 [unit_A1; unit_A2; unit_B3])
    = (Ok (solution, m), w')
    /\ (inject_Z (m_total_changeovers m) + 1 == sum_changeovers scenario_solution 3)%Q
    /\ (inject_Z (num_changeovers (self w')) == sum_changeovers scenario_solution 3)%Q.
Proof.
  assert (schedule_length (summary_of [unit_A1; unit_A2; unit_B3] 1) = 3) as HT
    by (vm_compute; reflexivity).
  assert (summary_codes (summary_of [unit_A1; unit_A2; unit_B3] 1) = ["A"; "B"]) as Hcodes
    by (vm_compute; reflexivity).
  destruct (model_of (summary_of [unit_A1; unit_A2; unit_B3] 1)) as [prob|e] eqn:Hmodel;
    [|vm_compute in Hmodel; discriminate].
  rewrite <- HT.
  apply (metrics_changeovers_plus_setup (fun _ => scenario_solution)
           (fresh 1 [unit_A1; unit_A2; unit_B3]) [unit_A1; unit_A2; unit_B3] prob).
  - reflexivity.
  - simpl. lia.
  - apply (proj1 (bool_decide_eq_true _)). vm_compute. reflexivity.
  - exact Hmodel.
  - vm_compute in Hmodel. injection Hmodel as <-.
    unfold feasible. simpl constraints.
    repeat (apply Forall_cons; split; [unfold holds; vm_compute;
                                       first [reflexivity | discriminate]|]).
    constructor.
  - simpl batch_size. rewrite HT, Hcodes. intros c s Hc Hs.
    assert (s = 0 \/ s = 1 \/ s = 2) as [-> | [-> | ->]] by lia;
      apply elem_of_cons in Hc as [->|Hc];
      try (apply list_elem_of_singleton in Hc as ->);
      first [left; vm_compute; reflexivity | right; vm_compute; reflexivity].
  - simpl batch_size. rewrite HT, Hcodes. split; [reflexivity|]. intros s Hs.
    assert (s = 1 \/ s = 2) as [-> | ->] by lia; vm_compute; reflexivity.
Defined.

(* ================================================================== *)
(** * Further properties of the methods *)

(** ** Ideal positions of short schedules *)

Lemma ideal_positions_checked :
  Forall (fun T => Forall (fun n => ideal_positions_check n T = true) (seqZ 1 T))
         (seqZ 1 checked_slots).
Proof. apply (proj1 (bool_decide_eq_true _)). vm_compute. reflexivity. Qed.

(** X1. In a schedule of at most [checked_slots] slots, for a paint code
    that needs between one and all of the batches, the method returns
    positions: as many as the batches, strictly increasing, each a slot of
    the schedule, and each the evenly spaced position [floor(i * T / n)] or
    the slot before it. *)
Theorem ideal_positions_well_spaced (c : string) (n T : Z) :
  1 <= n <= T -> T <= checked_slots ->
  exists l,
    calculate_ideal_positions c n T = Ok l
    /\ well_spaced n T l
    /\ Forall2 (fun p q => q - 1 <= p <= q) l (evenly_spaced n T).
Proof.
  intros Hn HT. pose proof ideal_positions_checked as Hall.
  rewrite Forall_forall in Hall.
  specialize (Hall T ltac:(apply elem_of_seqZ; lia)).
  rewrite Forall_forall in Hall.
  specialize (Hall n ltac:(apply elem_of_seqZ; lia)).
  unfold ideal_positions_check in Hall.
  change (calculate_ideal_positions c n T) with (calculate_ideal_positions "" n T).
  destruct (calculate_ideal_positions "" n T) as [l|e]; [|discriminate].
  apply andb_true_iff in Hall as [H1 H2].
  apply bool_decide_eq_true in H1, H2. exists l. auto.
Qed.

Lemma ideal_positions_well_spaced_witness :
  exists l,
    calculate_ideal_positions "A" 4 10 = Ok l
    /\ well_spaced 4 10 l
    /\ Forall2 (fun p q => q - 1 <= p <= q) l (evenly_spaced 4 10).
Proof.
  apply (ideal_positions_well_spaced "A" 4 10); [lia|unfold checked_slots; lia].
Defined.


(** ** The summary of the analysis *)

Lemma summary_of_rows (df : list vehicle) (bs : Z) (r : summary_row) :
  r ∈ summary_of df bs ->
  full_batches r = vehicle_count r / bs
  /\ remainder r = vehicle_count r mod bs
  /\ total_batches r = - ((- vehicle_count r) / bs).
Proof.
  unfold summary_of. intros Hr.
  rewrite (elem_of_Permutation_proper _ _ _ (sort_by_Permutation _ _)) in Hr.
  apply list_elem_of_fmap in Hr as ([c n] & -> & _). simpl. auto.
Qed.

Lemma ceiling_floor (a b : Z) :
  b <> 0 -> - ((- a) / b) = a / b + (if decide (a mod b = 0) then 0 else 1).
Proof.
  intros Hb. destruct (decide (a mod b = 0)) as [Hz|Hnz].
  - rewrite Z.div_opp_l_z by assumption. lia.
  - rewrite Z.div_opp_l_nz by assumption. lia.
Qed.

(** X3. In every row of a summary that the analysis returns, the unit count
    is the full batches times the batch size plus the remainder, the
    required batch count is the number of full batches plus one more when
    there is a remainder, and for a positive batch size the remainder is
    less than the batch size. *)
Theorem summary_row_arithmetic (w : process) (df : list vehicle)
    (summary : list summary_row) :
  vehicles_df (self w) = Some df ->
  (analyze_paint_distribution w).1 = Ok summary ->
  forall r, r ∈ summary ->
    vehicle_count r = full_batches r * batch_size (self w) + remainder r
    /\ total_batches r = full_batches r + (if decide (remainder r = 0) then 0 else 1)
    /\ (0 < batch_size (self w) -> 0 <= remainder r < batch_size (self w)).
Proof.
  intros Hdf Hrun r Hr.
  destruct (analyze_Ok_cases w df summary Hdf Hrun) as [[-> _]|[-> Hbs]];
    [inversion Hr|].
  destruct (summary_of_rows df _ r Hr) as (-> & -> & ->).
  split; [|split].
  - pose proof (Z.div_mod (vehicle_count r) (batch_size (self w)) Hbs). lia.
  - apply ceiling_floor, Hbs.
  - intros Hpos. apply Z.mod_pos_bound, Hpos.
Qed.

Lemma summary_row_arithmetic_witness :
  vehicle_count (SummaryRow "A" 2 0 2 1) = full_batches (SummaryRow "A" 2 0 2 1) * 20
                                           + remainder (SummaryRow "A" 2 0 2 1)
  /\ total_batches (SummaryRow "A" 2 0 2 1)
     = full_batches (SummaryRow "A" 2 0 2 1)
       + (if decide (remainder (SummaryRow "A" 2 0 2 1) = 0) then 0 else 1)
  /\ (0 < 20 -> 0 <= remainder (SummaryRow "A" 2 0 2 1) < 20).
Proof.
  apply (summary_row_arithmetic (fresh 20 [unit_A1; unit_A2; unit_B3])
           [unit_A1; unit_A2; unit_B3]
           [SummaryRow "A" 2 0 2 1; SummaryRow "B" 1 0 1 1]).
  - reflexivity.
  - vm_compute. reflexivity.
  - left.
Defined.

(** X4. A summary that the analysis returns lists each paint code once,
    counts at least one unit for each, and is in descending order of the
    unit count. *)
Theorem summary_distinct_and_descending (w : process) (df : list vehicle)
    (summary : list summary_row) :
  vehicles_df (self w) = Some df ->
  (analyze_paint_distribution w).1 = Ok summary ->
  NoDup (map paint_code summary)
  /\ Forall (fun r => 1 <= vehicle_count r) summary
  /\ StronglySorted (fun a b => vehicle_count b <= vehicle_count a) summary.
Proof.
  intros Hdf Hrun.
  destruct (analyze_Ok_cases w df summary Hdf Hrun) as [[-> _]|[-> Hbs]].
  - repeat split; constructor.
  - destruct (summary_of_spec df (batch_size (self w))) as (Hnd & Hrows & _).
    split; [exact Hnd|]. split.
    + apply Forall_forall. intros r Hr. apply (Hrows r Hr).
    + unfold summary_of.
      pose proof (sort_by_StronglySorted
        (fun a b : summary_row => vehicle_count b <=? vehicle_count a)
        (map (fun pc : string * Z =>
                SummaryRow pc.1 pc.2 (pc.2 / batch_size (self w))
                  (pc.2 mod batch_size (self w)) (- ((- pc.2) / batch_size (self w))))
             (value_counts (map paint df)))) as Hs.
      assert (forall l : list summary_row,
                StronglySorted (fun a b => (vehicle_count b <=? vehicle_count a) = true) l ->
                StronglySorted (fun a b => vehicle_count b <= vehicle_count a) l) as Hconv.
      { induction 1 as [|a l _ IH Ha]; constructor; [exact IH|].
        eapply Forall_impl; [exact Ha|]. intros b Hb. apply Z.leb_le, Hb. }
      apply Hconv, Hs.
      * intros x y. destruct (Z.leb_spec (vehicle_count y) (vehicle_count x));
          [left; reflexivity|right; apply Z.leb_le; lia].
      * intros x y z Hxy Hyz. apply Z.leb_le in Hxy, Hyz. apply Z.leb_le. lia.
Qed.

Lemma summary_distinct_and_descending_witness :
  NoDup (map paint_code [SummaryRow "A" 2 0 2 1; SummaryRow "B" 1 0 1 1])
  /\ Forall (fun r => 1 <= vehicle_count r) [SummaryRow "A" 2 0 2 1; SummaryRow "B" 1 0 1 1]
  /\ StronglySorted (fun a b => vehicle_count b <= vehicle_count a)
       [SummaryRow "A" 2 0 2 1; SummaryRow "B" 1 0 1 1].
Proof.
  apply (summary_distinct_and_descending (fresh 20 [unit_B3; unit_A1; unit_A2])
           [unit_B3; unit_A1; unit_A2]).
  - reflexivity.
  - vm_compute. reflexivity.
Defined.

(** X5. What the analysis does to the object: without a loaded table it
    raises [TypeError]; whenever it raises, the object is as it was; and
    when it returns a summary, that summary is stored in
    [paint_summary] and nothing else is changed. *)
Theorem analyze_paint_distribution_effect (w : process) :
  (vehicles_df (self w) = None ->
     analyze_paint_distribution w = (Raise "TypeError", w))
  /\ (forall e, (analyze_paint_distribution w).1 = Raise e ->
        (analyze_paint_distribution w).2 = w)
  /\ (forall summary, (analyze_paint_distribution w).1 = Ok summary ->
        (analyze_paint_distribution w).2 = with_paint_summary w summary).
Proof.
  unfold analyze_paint_distribution, mthen, get_self, lift, ret, frame, set_paint_summary,
    with_paint_summary.
  destruct (vehicles_df (self w)) as [df|] eqn:Hdf; simpl.
  - destruct (for_each _ _) as [rows|e]; simpl.
    + split; [discriminate|]. split; [discriminate|].
      intros summary [= <-]. reflexivity.
    + split; [discriminate|]. split; [reflexivity|discriminate].
  - split; [reflexivity|]. split; [reflexivity|discriminate].
Qed.

(** ** Construction of the model *)

(** X6. When [paint_batches] holds a batch count for every paint code and
    PuLP writes two of the paint codes alike, the construction of the
    model raises [PulpError] in the loop of the second family, whatever
    the length of the schedule and the ideal positions. *)
Theorem build_model_overlapping_names (paint_codes : list string)
    (paint_batches : gmap string Z) (T : Z) (ideal_positions : gmap string (list Z)) :
  Forall (fun c => is_Some (paint_batches !! c)) paint_codes ->
  ~ NoDup (map sanitize paint_codes) ->
  build_model paint_codes paint_batches T ideal_positions = Raise "PulpError".
Proof.
  intros Hkeys Hdup. apply build_model_overlap; assumption.
Qed.

Lemma build_model_overlapping_names_witness :
  build_model ["A-B"; "A_B"] (dict_zip ["A-B"; "A_B"] [1; 1]) 2 ∅ = Raise "PulpError".
Proof.
  apply (build_model_overlapping_names ["A-B"; "A_B"] (dict_zip ["A-B"; "A_B"] [1; 1]) 2 ∅).
  - repeat constructor; exists 1; vm_compute; reflexivity.
  - intros Hnd. apply NoDup_cons in Hnd as [Hnew _]. apply Hnew. left.
Defined.

Lemma level_loading_succeeds (paint_codes : list string) (paint_batches : gmap string Z)
    (T : Z) (ideal_positions : gmap string (list Z)) :
  Forall (fun c => exists n positions,
            paint_batches !! c = Some n /\ ideal_positions !! c = Some positions
            /\ n <= Z.of_nat (length positions)) paint_codes ->
  exists c4, level_loading paint_codes paint_batches T ideal_positions = Ok c4.
Proof.
  intros Hkeys. unfold level_loading.
  destruct (for_each_succeeds
    (fun c => do n <- getitem paint_batches c;
              do per_batch <- for_each (fun i =>
                  do positions <- getitem ideal_positions c;
                  do ideal_pos <- list_getitem positions i;
                  Ok (flat_map (dev_pair c i ideal_pos) (range T))) (range n);
              Ok (concat per_batch)) paint_codes) as [r ->]; [|simpl; eauto].
  eapply Forall_impl; [exact Hkeys|]. intros c (n & positions & Hn & Hp & Hlen).
  unfold getitem at 1. rewrite Hn. simpl.
  destruct (for_each_succeeds
    (fun i => do positions <- getitem ideal_positions c;
              do ideal_pos <- list_getitem positions i;
              Ok (flat_map (dev_pair c i ideal_pos) (range T))) (range n)) as [r ->];
    [|simpl; eauto].
  apply Forall_forall. intros i Hi. apply range_elem in Hi.
  unfold getitem. rewrite Hp. simpl.
  destruct (lookup_lt_is_Some_2 positions (Z.to_nat i) ltac:(lia)) as [p Hpi].
  rewrite (proj2 (list_getitem_nonneg positions i p (proj1 Hi)) Hpi). simpl. eauto.
Qed.

(** ** The names of the constraints *)

Lemma is_digit_pretty_N_char (x : N) : is_digit (pretty_N_char x) = true.
Proof. unfold pretty_N_char. repeat case_match; reflexivity. Qed.

Lemma numeral_pretty_N_go (x : N) (s : string) :
  numeral s = true -> numeral (pretty_N_go x s) = true.
Proof.
  revert s. induction (N.lt_wf_0 x) as [x _ IH]; intros s Hs.
  assert (x = 0 \/ 0 < x)%N as [->|Hx] by lia.
  - rewrite pretty_N_go_0. exact Hs.
  - rewrite pretty_N_go_step by exact Hx. apply IH.
    + apply N.div_lt; [exact Hx|reflexivity].
    + simpl. rewrite is_digit_pretty_N_char. exact Hs.
Qed.

(** The decimal form of an integer that is not negative. *)
Lemma numeral_pretty (b : Z) : 0 <= b -> numeral (pretty b) = true.
Proof.
  intros Hb. destruct b as [|p|p]; [reflexivity| |lia].
  unfold pretty, pretty_Z, pretty, pretty_positive, pretty, pretty_N.
  destruct (decide (N.pos p = 0%N)); [reflexivity|].
  apply numeral_pretty_N_go. reflexivity.
Qed.

Lemma sanitize_numeral (s : string) : numeral s = true -> sanitize s = s.
Proof.
  induction s as [|a s IH]; simpl; [reflexivity|].
  intros H. apply andb_true_iff in H as [Ha Hs]. rewrite (IH Hs). f_equal.
  unfold is_digit in Ha. apply bool_decide_eq_true in Ha.
  repeat (apply elem_of_cons in Ha as [->|Ha]; [reflexivity|]). inversion Ha.
Qed.

Lemma numeral_no_underscore (s1 s2 : string) : numeral (s1 +:+ "_" +:+ s2) = false.
Proof.
  induction s1 as [|a s1 IH]; simpl; [reflexivity|].
  rewrite IH. apply andb_false_r.
Qed.

(** A string is cut at its last underscore in one way. *)
Lemma append_numeral_inj (s1 s2 d1 d2 : string) :
  numeral d1 = true -> numeral d2 = true ->
  s1 +:+ "_" +:+ d1 = s2 +:+ "_" +:+ d2 -> s1 = s2 /\ d1 = d2.
Proof.
  intros Hd1 Hd2. revert s2. induction s1 as [|a s1 IH]; intros [|b s2] H; simpl in H.
  - injection H as H. auto.
  - injection H as _ H. change (d1 = s2 +:+ "_" +:+ d2) in H. subst d1.
    rewrite numeral_no_underscore in Hd1. discriminate.
  - injection H as _ H. change (s1 +:+ "_" +:+ d1 = d2) in H. subst d2.
    rewrite numeral_no_underscore in Hd2. discriminate.
  - injection H as -> H. destruct (IH s2 H) as [-> ->]. auto.
Qed.

Lemma append_empty (s : string) : "" +:+ s = s.
Proof. reflexivity. Qed.

Lemma append_assoc (s1 s2 s3 : string) : (s1 +:+ s2) +:+ s3 = s1 +:+ s2 +:+ s3.
Proof.
  induction s1 as [|a s1 IH]; [reflexivity|].
  change (String a ((s1 +:+ s2) +:+ s3) = String a (s1 +:+ s2 +:+ s3)).
  rewrite IH. reflexivity.
Qed.

Lemma dev_name_inj (c1 c2 : string) (i1 i2 b1 b2 : Z) :
  0 <= i1 -> 0 <= i2 -> 0 <= b1 -> 0 <= b2 ->
  c1 +:+ "_" +:+ pretty i1 +:+ "_" +:+ pretty b1
  = c2 +:+ "_" +:+ pretty i2 +:+ "_" +:+ pretty b2 ->
  c1 = c2 /\ i1 = i2 /\ b1 = b2.
Proof.
  intros Hi1 Hi2 Hb1 Hb2 H.
  rewrite <- (append_assoc c1 "_" (pretty i1 +:+ "_" +:+ pretty b1)) in H.
  rewrite <- (append_assoc (c1 +:+ "_") (pretty i1) ("_" +:+ pretty b1)) in H.
  rewrite <- (append_assoc c2 "_" (pretty i2 +:+ "_" +:+ pretty b2)) in H.
  rewrite <- (append_assoc (c2 +:+ "_") (pretty i2) ("_" +:+ pretty b2)) in H.
  apply append_numeral_inj in H as [H Hb]; [|apply numeral_pretty; assumption..].
  rewrite !append_assoc in H.
  apply append_numeral_inj in H as [Hc Hi]; [|apply numeral_pretty; assumption..].
  apply (inj pretty) in Hb, Hi. auto.
Qed.

(** Keys with numbers that are not negative are written differently. *)
Lemma written_inj (k1 k2 : constraint_key) :
  Forall (fun n => 0 <= n) (key_numbers k1) ->
  Forall (fun n => 0 <= n) (key_numbers k2) ->
  written k1 = written k2 -> k1 = k2.
Proof.
  intros H1 H2 H.
  destruct k1 as [b1|c1|c1 b1| |[|] c1 i1 b1], k2 as [b2|c2|c2 b2| |[|] c2 i2 b2];
    cbn in H; try discriminate; try reflexivity.
  - injection H as H. rewrite !append_empty in H. apply (inj pretty) in H. congruence.
  - injection H as H. rewrite !append_empty in H. congruence.
  - injection H as H. rewrite !append_empty in H.
    apply Forall_cons in H1 as [H1 _]. apply Forall_cons in H2 as [H2 _].
    apply append_numeral_inj in H as [-> H]; [|apply numeral_pretty; assumption..].
    apply (inj pretty) in H. congruence.
  - injection H as H.
    apply Forall_cons in H1 as [Hi1 H1]. apply Forall_cons in H1 as [Hb1 _].
    apply Forall_cons in H2 as [Hi2 H2]. apply Forall_cons in H2 as [Hb2 _].
    rewrite !append_empty in H.
    destruct (dev_name_inj _ _ _ _ _ _ Hi1 Hi2 Hb1 Hb2 H) as (-> & -> & ->). reflexivity.
  - injection H as H.
    apply Forall_cons in H1 as [Hi1 H1]. apply Forall_cons in H1 as [Hb1 _].
    apply Forall_cons in H2 as [Hi2 H2]. apply Forall_cons in H2 as [Hb2 _].
    rewrite !append_empty in H.
    destruct (dev_name_inj _ _ _ _ _ _ Hi1 Hi2 Hb1 Hb2 H) as (-> & -> & ->). reflexivity.
Qed.

Lemma map_ext_elem {A B : Type} (f g : A -> B) (l : list A) :
  (forall a, a ∈ l -> f a = g a) -> map f l = map g l.
Proof.
  intros H. apply map_ext_in. intros a Ha. apply H, list_elem_of_In, Ha.
Qed.

Lemma flat_map_ext_elem {A B : Type} (f g : A -> list B) (l : list A) :
  (forall a, a ∈ l -> f a = g a) -> flat_map f l = flat_map g l.
Proof.
  induction l as [|a l IH]; simpl; intros H; [reflexivity|].
  rewrite (H a ltac:(left)), IH; [reflexivity|]. intros a' Ha'. apply H. right. exact Ha'.
Qed.

Lemma map_flat_map {A B C : Type} (g : B -> C) (f : A -> list B) (l : list A) :
  map g (flat_map f l) = flat_map (fun a => map g (f a)) l.
Proof.
  induction l as [|a l IH]; simpl; [reflexivity|]. rewrite map_app, IH. reflexivity.
Qed.

Lemma elem_of_flat_map {A B : Type} (f : A -> list B) (l : list A) (y : B) :
  y ∈ flat_map f l <-> exists x, x ∈ l /\ y ∈ f x.
Proof.
  rewrite list_elem_of_In, in_flat_map. split; intros (x & Hx & Hy); exists x;
    rewrite ?list_elem_of_In in *; auto.
Qed.

Lemma NoDup_flat_map {A B : Type} (f : A -> list B) (l : list A) :
  (forall x1 x2 y, x1 ∈ l -> x2 ∈ l -> y ∈ f x1 -> y ∈ f x2 -> x1 = x2) ->
  (forall x, x ∈ l -> NoDup (f x)) -> NoDup l -> NoDup (flat_map f l).
Proof.
  intros Hinj Hf. induction 1 as [|x l Hx Hl IH]; simpl; [constructor|].
  apply NoDup_app. split; [apply Hf; left|]. split.
  - intros y Hy Hy'. apply elem_of_flat_map in Hy' as (x' & Hx' & Hy').
    assert (x = x') as <-; [|contradiction].
    apply (Hinj x x' y); [left|right; exact Hx'|exact Hy|exact Hy'].
  - apply IH.
    + intros x1 x2 y H1 H2. apply Hinj; right; assumption.
    + intros x' Hx'. apply Hf. right. exact Hx'.
Qed.

(** The results of a loop, joined, under a function of the elements. *)
Lemma for_each_concat_map {A B C : Type} (f : A -> result (list B)) (g : B -> C)
    (h : A -> list C) (l : list A) (r : list (list B)) :
  for_each f l = Ok r ->
  (forall a b, a ∈ l -> f a = Ok b -> map g b = h a) ->
  map g (concat r) = flat_map h l.
Proof.
  revert r. induction l as [|a l IH]; simpl; intros r Hr Hg.
  - injection Hr as <-. reflexivity.
  - destruct (f a) as [b|e] eqn:Ha; simpl in Hr; [|discriminate].
    destruct (for_each f l) as [bs|e] eqn:Hl; simpl in Hr; [|discriminate].
    injection Hr as <-. simpl. rewrite map_app, (Hg a b ltac:(left) Ha).
    rewrite (IH bs eq_refl); [reflexivity|].
    intros a' b' Ha'. apply Hg. right. exact Ha'.
Qed.

(** The names of the families, as PuLP writes them. *)
Lemma one_paint_per_batch_names (paint_codes : list string) (T : Z) :
  map fst (map named (one_paint_per_batch paint_codes T))
  = map written (map key_one_paint (range T)).
Proof.
  unfold one_paint_per_batch. rewrite !map_map. apply map_ext_elem.
  intros b Hb. apply range_elem in Hb. simpl.
  rewrite sanitize_app, (sanitize_numeral (pretty b)); [reflexivity|].
  apply numeral_pretty. lia.
Qed.

Lemma batch_count_written (paint_codes : list string) (c2 : list (string * LpConstraint)) :
  map fst c2 = map (fun c => "batch_count_" +:+ c) paint_codes ->
  map fst (map named c2)
  = map written (map (fun c => key_batch_count (sanitize c)) paint_codes).
Proof.
  intros Hnames. rewrite !map_map.
  replace (map (fun x => (named x).1) c2)
    with (map sanitize (map fst c2)) by (rewrite map_map; reflexivity).
  rewrite Hnames, map_map. apply map_ext. intros c. cbn [written].
  rewrite sanitize_app. reflexivity.
Qed.

Lemma changeover_detect_names (paint_codes : list string) (T : Z) :
  map fst (map named (changeover_detect paint_codes T))
  = map written (detect_keys paint_codes T).
Proof.
  unfold changeover_detect, detect_keys. rewrite map_map, !map_flat_map.
  apply flat_map_ext_elem. intros b Hb. apply range_from_elem in Hb.
  unfold changeover_detect_at. rewrite !map_map. apply map_ext. intros c. simpl.
  rewrite !sanitize_app, (sanitize_numeral (pretty b)); [reflexivity|].
  apply numeral_pretty. lia.
Qed.

Lemma first_batch_setup_name (T : Z) (c0 : string * LpConstraint) :
  first_batch_setup T = Ok c0 -> (named c0).1 = written key_first.
Proof.
  unfold first_batch_setup. intros H. apply rbind_Ok in H as (y0 & _ & [= <-]).
  reflexivity.
Qed.

Lemma dev_pair_names (c : string) (i p b : Z) :
  0 <= i -> 0 <= b ->
  map (fun nc => (named nc).1) (dev_pair c i p b) = map written (dev_keys_at c i b).
Proof.
  intros Hi Hb. unfold dev_pair, dev_keys_at, named. simpl.
  rewrite !sanitize_app, (sanitize_numeral (pretty b)), (sanitize_numeral (pretty i));
    [reflexivity|apply numeral_pretty; lia..].
Qed.

Lemma level_loading_names (paint_codes : list string) (paint_batches : gmap string Z)
    (T : Z) (ideal_positions : gmap string (list Z)) (c4 : list (string * LpConstraint)) :
  level_loading paint_codes paint_batches T ideal_positions = Ok c4 ->
  map fst (map named c4) = map written (dev_keys paint_codes paint_batches T).
Proof.
  unfold level_loading, dev_keys. intros H.
  apply rbind_Ok in H as (per_paint & Hper & [= <-]).
  rewrite map_map, map_flat_map.
  apply (for_each_concat_map _ _ _ _ _ Hper). intros c ncs _ Hc.
  apply rbind_Ok in Hc as (n & Hn & Hc).
  apply rbind_Ok in Hc as (per_batch & Hbatch & [= <-]).
  unfold getitem in Hn. destruct (paint_batches !! c) as [n'|]; [|discriminate].
  injection Hn as ->. simpl. rewrite map_flat_map.
  apply (for_each_concat_map _ _ _ _ _ Hbatch). intros i ncs Hi Hncs.
  apply range_elem in Hi.
  apply rbind_Ok in Hncs as (positions & _ & Hncs).
  apply rbind_Ok in Hncs as (p & _ & [= <-]).
  rewrite !map_flat_map. apply flat_map_ext_elem. intros b Hb. apply range_elem in Hb.
  apply dev_pair_names; lia.
Qed.

(** The names of a model are those of its keys. *)
Lemma model_names (paint_codes : list string) (paint_batches : gmap string Z) (T : Z)
    (ideal_positions : gmap string (list Z)) (c2 : list (string * LpConstraint))
    (c0 : string * LpConstraint) (c4 : list (string * LpConstraint)) :
  batch_count paint_codes paint_batches T = Ok c2 ->
  first_batch_setup T = Ok c0 ->
  level_loading paint_codes paint_batches T ideal_positions = Ok c4 ->
  map fst (map named (one_paint_per_batch paint_codes T ++ c2
                      ++ changeover_detect paint_codes T ++ [c0] ++ c4))
  = map written (model_keys paint_codes paint_batches T).
Proof.
  intros Hc2 Hc0 Hc4. unfold model_keys. rewrite !map_app.
  rewrite one_paint_per_batch_names, changeover_detect_names.
  rewrite (level_loading_names _ _ _ _ _ Hc4).
  assert (map fst c2 = map (fun c => "batch_count_" +:+ c) paint_codes) as Hnames.
  { unfold batch_count in Hc2. rewrite (for_each_map _ (fun c => batch_count_of c
      (default 0 (paint_batches !! c)) T) _ _ Hc2).
    - rewrite map_map. reflexivity.
    - intros c nc _ Hnc. apply rbind_Ok in Hnc as (n & Hn & [= <-]).
      unfold getitem in Hn. destruct (paint_batches !! c); [|discriminate].
      injection Hn as ->. reflexivity. }
  rewrite (batch_count_written _ _ Hnames). simpl map at 5 6.
  change (sanitize c0.1) with (named c0).1.
  rewrite (first_batch_setup_name _ _ Hc0). reflexivity.
Qed.

(** The keys of a model have numbers that are not negative. *)
Lemma model_keys_numbers (paint_codes : list string) (paint_batches : gmap string Z) (T : Z) :
  Forall (fun k => Forall (fun n => 0 <= n) (key_numbers k))
         (model_keys paint_codes paint_batches T).
Proof.
  unfold model_keys, detect_keys, dev_keys. rewrite !Forall_app. repeat split.
  - apply Forall_map_iff. intros b Hb. apply range_elem in Hb.
    repeat constructor. lia.
  - apply Forall_map_iff. intros c _. constructor.
  - apply Forall_flat_map_iff. intros b Hb. apply range_from_elem in Hb.
    apply Forall_map_iff. intros c _. repeat constructor. lia.
  - repeat constructor.
  - apply Forall_flat_map_iff. intros c _.
    apply Forall_flat_map_iff. intros i Hi. apply range_elem in Hi.
    apply Forall_flat_map_iff. intros b Hb. apply range_elem in Hb.
    repeat constructor; lia.
Qed.

Lemma NoDup_app_family (l k : list constraint_key) (n : nat) :
  Forall (fun x => family x = n) l -> Forall (fun x => family x <> n) k ->
  NoDup l -> NoDup k -> NoDup (l ++ k).
Proof.
  intros Hl Hk Hndl Hndk. apply NoDup_app. split; [exact Hndl|]. split; [|exact Hndk].
  intros x Hx Hx'. rewrite Forall_forall in Hl, Hk. apply (Hk x Hx'), Hl, Hx.
Qed.

Lemma NoDup_map_injective {A B : Type} (f : A -> B) (l : list A) :
  (forall a b, f a = f b -> a = b) -> NoDup l -> NoDup (map f l).
Proof. intros Hf. apply (NoDup_fmap_2_strong f). intros a b _ _. apply Hf. Qed.

Lemma NoDup_range (n : Z) : NoDup (range n).
Proof. apply NoDup_seqZ. Qed.

(** Paint codes that PuLP writes differently give keys that differ. *)
Lemma model_keys_distinct (paint_codes : list string) (paint_batches : gmap string Z)
    (T : Z) :
  NoDup (map sanitize paint_codes) -> NoDup (model_keys paint_codes paint_batches T).
Proof.
  intros Hnd. pose proof (NoDup_of_map _ _ Hnd) as Hcodes.
  unfold model_keys, detect_keys, dev_keys.
  apply (NoDup_app_family _ _ 1%nat).
  { apply Forall_map_iff. reflexivity. }
  { rewrite !Forall_app. repeat split.
    - apply Forall_map_iff. discriminate.
    - apply Forall_flat_map_iff. intros b _. apply Forall_map_iff. discriminate.
    - repeat constructor. discriminate.
    - apply Forall_flat_map_iff. intros c _. apply Forall_flat_map_iff. intros i _.
      apply Forall_flat_map_iff. intros b _. repeat constructor; discriminate. }
  { apply NoDup_map_injective; [congruence|apply NoDup_range]. }
  apply (NoDup_app_family _ _ 2%nat).
  { apply Forall_map_iff. reflexivity. }
  { rewrite !Forall_app. repeat split.
    - apply Forall_flat_map_iff. intros b _. apply Forall_map_iff. discriminate.
    - repeat constructor. discriminate.
    - apply Forall_flat_map_iff. intros c _. apply Forall_flat_map_iff. intros i _.
      apply Forall_flat_map_iff. intros b _. repeat constructor; discriminate. }
  { rewrite <- (map_map sanitize key_batch_count).
    apply NoDup_map_injective; [congruence|exact Hnd]. }
  apply (NoDup_app_family _ _ 3%nat).
  { apply Forall_flat_map_iff. intros b _. apply Forall_map_iff. reflexivity. }
  { rewrite !Forall_app. repeat split.
    - repeat constructor. discriminate.
    - apply Forall_flat_map_iff. intros c _. apply Forall_flat_map_iff. intros i _.
      apply Forall_flat_map_iff. intros b _. repeat constructor; discriminate. }
  { apply NoDup_flat_map.
    - intros b1 b2 k _ _ H1 H2.
      apply list_elem_of_fmap in H1 as (c1 & -> & _).
      apply list_elem_of_fmap in H2 as (c2 & [= _ ->] & _). reflexivity.
    - intros b _. rewrite <- (map_map sanitize (fun s => key_detect s b)).
      apply NoDup_map_injective; [congruence|exact Hnd].
    - unfold range_from. apply NoDup_seqZ. }
  apply (NoDup_app_family _ _ 0%nat).
  { repeat constructor. }
  { apply Forall_flat_map_iff. intros c _. apply Forall_flat_map_iff. intros i _.
    apply Forall_flat_map_iff. intros b _. repeat constructor; discriminate. }
  { apply NoDup_singleton. }
  apply NoDup_flat_map; [| |exact Hcodes].
  - intros c1 c2 k Hc1 Hc2 H1 H2.
    apply elem_of_flat_map in H1 as (i1 & _ & H1).
    apply elem_of_flat_map in H1 as (b1 & _ & H1).
    apply elem_of_flat_map in H2 as (i2 & _ & H2).
    apply elem_of_flat_map in H2 as (b2 & _ & H2).
    apply (NoDup_map_inj sanitize paint_codes c1 c2 Hnd Hc1 Hc2).
    unfold dev_keys_at in H1, H2.
    repeat (apply elem_of_cons in H1 as [->|H1]);
      repeat (apply elem_of_cons in H2 as [H2|H2]);
      try congruence; try (inversion H1); try (inversion H2).
  - intros c _. apply NoDup_flat_map; [| |apply NoDup_range].
    + intros i1 i2 k _ _ H1 H2.
      apply elem_of_flat_map in H1 as (b1 & _ & H1).
      apply elem_of_flat_map in H2 as (b2 & _ & H2).
      unfold dev_keys_at in H1, H2.
      repeat (apply elem_of_cons in H1 as [->|H1]);
        repeat (apply elem_of_cons in H2 as [H2|H2]);
        try congruence; try (inversion H1); try (inversion H2).
    + intros i _. apply NoDup_flat_map; [| |apply NoDup_range].
      * intros b1 b2 k _ _ H1 H2. unfold dev_keys_at in H1, H2.
        repeat (apply elem_of_cons in H1 as [->|H1]);
          repeat (apply elem_of_cons in H2 as [H2|H2]);
          try congruence; try (inversion H1); try (inversion H2).
      * intros b _. unfold dev_keys_at. apply NoDup_cons. split.
        -- intros H. apply list_elem_of_singleton in H. discriminate.
        -- apply NoDup_singleton.
Qed.

(** Paint codes that PuLP writes differently give names that do not
    overlap. *)
Lemma model_names_distinct (paint_codes : list string) (paint_batches : gmap string Z)
    (T : Z) :
  NoDup (map sanitize paint_codes) ->
  NoDup (map written (model_keys paint_codes paint_batches T)).
Proof.
  intros Hnd. apply (NoDup_fmap_2_strong written).
  - intros k1 k2 H1 H2. pose proof (model_keys_numbers paint_codes paint_batches T) as Hn.
    rewrite Forall_forall in Hn. apply written_inj; apply Hn; assumption.
  - apply model_keys_distinct, Hnd.
Qed.

(** With a batch count for every paint code, enough ideal positions, a
    slot in the schedule and paint codes that PuLP writes differently,
    every statement of the construction returns. *)
Lemma build_model_succeeds (paint_codes : list string) (paint_batches : gmap string Z)
    (T : Z) (ideal_positions : gmap string (list Z)) :
  Forall (fun c => exists n positions,
            paint_batches !! c = Some n /\ ideal_positions !! c = Some positions
            /\ n <= Z.of_nat (length positions)) paint_codes ->
  NoDup (map sanitize paint_codes) ->
  0 < T ->
  exists prob, build_model paint_codes paint_batches T ideal_positions = Ok prob.
Proof.
  intros Hkeys Hnd HT.
  assert (Forall (fun c => is_Some (paint_batches !! c)) paint_codes) as Hsome.
  { eapply Forall_impl; [exact Hkeys|]. intros c (n & _ & Hn & _). eauto. }
  destruct (deviation_keys_succeeds _ _ T Hsome) as [keys Hk].
  destruct (batch_count_succeeds _ _ T Hsome) as (c2 & Hc2 & _).
  destruct (level_loading_succeeds _ _ T _ Hkeys) as [c4 Hc4].
  assert (exists c0, first_batch_setup T = Ok c0) as [c0 Hc0].
  { unfold first_batch_setup, changeover_getitem.
    rewrite decide_True by (apply range_elem; lia). simpl. eauto. }
  assert (exists obj, minimize_changeovers_and_levelload paint_codes paint_batches T
                      = Ok obj) as [obj Hobj].
  { unfold minimize_changeovers_and_levelload. rewrite Hk. simpl. eauto. }
  exists (Problem (map named (one_paint_per_batch paint_codes T ++ c2
                              ++ changeover_detect paint_codes T ++ [c0] ++ c4)) obj).
  apply build_model_Ok. exists keys, c2, c0, c4. cbn [constraints objective].
  repeat (split; [first [eassumption | reflexivity]|]).
  rewrite (model_names _ _ _ _ _ _ _ Hc2 Hc0 Hc4).
  apply model_names_distinct, Hnd.
Qed.

(** X7. When [paint_batches] holds a batch count for every paint code,
    [ideal_positions] at least as many positions, and PuLP writes the
    paint codes differently, the model is built exactly when the schedule
    has a slot; without a slot the construction raises [KeyError] at
    [y[0]]. *)
Theorem build_model_needs_a_slot (paint_codes : list string) (paint_batches : gmap string Z)
    (T : Z) (ideal_positions : gmap string (list Z)) :
  Forall (fun c => exists n positions,
            paint_batches !! c = Some n /\ ideal_positions !! c = Some positions
            /\ n <= Z.of_nat (length positions)) paint_codes ->
  NoDup (map sanitize paint_codes) ->
  (0 < T -> exists prob, build_model paint_codes paint_batches T ideal_positions = Ok prob)
  /\ (T <= 0 -> build_model paint_codes paint_batches T ideal_positions = Raise "KeyError").
Proof.
  intros Hkeys Hnd. split.
  - apply build_model_succeeds; assumption.
  - intros HT. apply build_model_no_slots; [exact HT| |exact Hnd].
    eapply Forall_impl; [exact Hkeys|]. intros c (n & _ & Hn & _). eauto.
Qed.

Lemma build_model_needs_a_slot_witness :
  (0 < 3 -> exists prob,
     build_model scenario_codes scenario_batches 3 scenario_ideal = Ok prob)
  /\ (3 <= 0 ->
      build_model scenario_codes scenario_batches 3 scenario_ideal = Raise "KeyError").
Proof.
  apply (build_model_needs_a_slot scenario_codes scenario_batches 3 scenario_ideal).
  - repeat constructor.
    + exists 2, [0; 1]. repeat split; vm_compute; first [reflexivity | discriminate].
    + exists 1, [1]. repeat split; vm_compute; first [reflexivity | discriminate].
  - apply NoDup_cons. split; [|apply NoDup_singleton].
    intros Hin. apply list_elem_of_singleton in Hin. discriminate.
Defined.

Lemma length_flat_map_const {A B : Type} (f : A -> list B) (l : list A) (k : Z) :
  Forall (fun a => Z.of_nat (length (f a)) = k) l ->
  Z.of_nat (length (flat_map f l)) = k * Z.of_nat (length l).
Proof.
  induction 1 as [|a l Ha _ IH]; simpl; [lia|].
  rewrite length_app. lia.
Qed.

Lemma length_concat_const {A : Type} (ls : list (list A)) (k : Z) :
  Forall (fun l => Z.of_nat (length l) = k) ls ->
  Z.of_nat (length (concat ls)) = k * Z.of_nat (length ls).
Proof.
  induction 1 as [|l ls Hl _ IH]; simpl; [lia|].
  rewrite length_app. lia.
Qed.

Lemma for_each_length_sum {A B : Type} (f : A -> result (list B)) (g : A -> Z)
    (l : list A) (r : list (list B)) :
  for_each f l = Ok r ->
  (forall a b, a ∈ l -> f a = Ok b -> Z.of_nat (length b) = g a) ->
  Z.of_nat (length (concat r)) = sumZ (map g l).
Proof.
  revert r. induction l as [|a l IH]; simpl; intros r Hr Hg.
  - injection Hr as <-. reflexivity.
  - destruct (f a) as [b|e] eqn:Ha; simpl in Hr; [|discriminate].
    destruct (for_each f l) as [bs|e] eqn:Hl; simpl in Hr; [|discriminate].
    injection Hr as <-. simpl. rewrite length_app, Nat2Z.inj_add.
    rewrite (Hg a b ltac:(left) Ha).
    rewrite (IH bs eq_refl); [reflexivity|].
    intros a' b' Ha'. apply Hg. right. exact Ha'.
Qed.

Lemma dev_pair_length (c : string) (i p : Z) (T : Z) :
  Z.of_nat (length (flat_map (dev_pair c i p) (range T))) = 2 * Z.max 0 T.
Proof.
  rewrite (length_flat_map_const _ _ 2); [rewrite range_length; lia|].
  apply Forall_forall. intros s _. reflexivity.
Qed.

(** X8. The size of a model that is built: one constraint for each slot,
    one for each paint code, one changeover constraint for each paint code
    and each slot after the first, the setup constraint, and two deviation
    constraints for each slot and each required batch of each paint
    code. *)
Theorem build_model_constraint_count (paint_codes : list string)
    (paint_batches : gmap string Z) (T : Z) (ideal_positions : gmap string (list Z))
    (prob : LpProblem) :
  build_model paint_codes paint_batches T ideal_positions = Ok prob ->
  Z.of_nat (length (constraints prob))
  = T + Z.of_nat (length paint_codes) + (T - 1) * Z.of_nat (length paint_codes) + 1
    + sumZ (map (fun c => 2 * T * Z.max 0 (default 0 (paint_batches !! c))) paint_codes).
Proof.
  intros Hbuild. pose proof (build_model_slots _ _ _ _ _ Hbuild) as HT.
  apply build_model_families in Hbuild as (c2 & c0 & c4 & Hc2 & Hc0 & Hc4 & _ & Hcons & _).
  rewrite Hcons, length_map.
  rewrite !length_app, !Nat2Z.inj_add. simpl length.
  assert (Z.of_nat (length (one_paint_per_batch paint_codes T)) = T) as ->.
  { unfold one_paint_per_batch. rewrite length_map, range_length. lia. }
  assert (length c2 = length paint_codes) as ->.
  { unfold batch_count in Hc2. apply for_each_Ok, Forall2_length in Hc2. lia. }
  assert (Z.of_nat (length (changeover_detect paint_codes T))
          = (T - 1) * Z.of_nat (length paint_codes)) as ->.
  { unfold changeover_detect.
    rewrite (length_flat_map_const _ _ (Z.of_nat (length paint_codes))).
    - unfold range_from. rewrite length_seqZ, Z2Nat.id by lia. lia.
    - apply Forall_forall. intros s _. unfold changeover_detect_at.
      rewrite length_map. reflexivity. }
  assert (Z.of_nat (length c4)
          = sumZ (map (fun c => 2 * T * Z.max 0 (default 0 (paint_batches !! c)))
                      paint_codes)) as Hlen; [|rewrite Hlen; lia].
  unfold level_loading in Hc4.
  destruct (for_each _ paint_codes) as [per_paint|e] eqn:Hper; simpl in Hc4; [|discriminate].
  injection Hc4 as <-. apply (for_each_length_sum _ _ _ _ Hper).
  intros c l _ Hl. unfold getitem in Hl at 1.
  destruct (paint_batches !! c) as [n|]; simpl in Hl; [|discriminate].
  destruct (for_each _ (range n)) as [per_batch|e] eqn:Hbatch; simpl in Hl; [|discriminate].
  injection Hl as <-.
  rewrite (length_concat_const _ (2 * Z.max 0 T)).
  - apply for_each_Ok, Forall2_length in Hbatch. rewrite <- Hbatch, range_length.
    simpl default. nia.
  - apply for_each_Ok in Hbatch. apply Forall_forall. intros l Hl.
    apply list_elem_of_lookup in Hl as [k Hk].
    destruct (Forall2_lookup_r _ _ _ _ _ Hbatch Hk) as (i & _ & Hi).
    destruct (getitem ideal_positions c) as [positions|e]; simpl in Hi; [|discriminate].
    destruct (list_getitem positions i) as [p|e]; simpl in Hi; [|discriminate].
    injection Hi as <-. apply dev_pair_length.
Qed.

Lemma build_model_constraint_count_witness :
  exists prob,
    build_model scenario_codes scenario_batches 3 scenario_ideal = Ok prob
    /\ Z.of_nat (length (constraints prob))
       = 3 + Z.of_nat (length scenario_codes) + (3 - 1) * Z.of_nat (length scenario_codes) + 1
         + sumZ (map (fun c => 2 * 3 * Z.max 0 (default 0 (scenario_batches !! c)))
                     scenario_codes).
Proof.
  destruct (build_model scenario_codes scenario_batches 3 scenario_ideal)
    as [prob|e] eqn:Hbuild; [|vm_compute in Hbuild; discriminate].
  exists prob. split; [reflexivity|].
  exact (build_model_constraint_count scenario_codes scenario_batches 3 scenario_ideal
           prob Hbuild).
Defined.

(** X9. The two deviation constraints together bound the deviation variable
    by the distance to the ideal position: under every valuation that
    satisfies the constraints of a built model,
    [dev[c, i, s] >= |s - ideal_pos| * x[c, s]]. *)
Theorem deviation_bounds_distance (paint_codes : list string)
    (paint_batches : gmap string Z) (T : Z) (ideal_positions : gmap string (list Z))
    (prob : LpProblem) (a : LpVariable -> Q) :
  build_model paint_codes paint_batches T ideal_positions = Ok prob ->
  feasible a prob ->
  forall c n positions i p s,
    c ∈ paint_codes -> paint_batches !! c = Some n -> 0 <= i < n ->
    ideal_positions !! c = Some positions -> positions !! Z.to_nat i = Some p ->
    0 <= s < T ->
    (inject_Z (Z.abs (s - p)) * a (batch_assignment c s) <= a (deviation c i s))%Q.
Proof.
  intros Hbuild Hfeasible.
  apply build_model_families in Hbuild as (c2 & c0 & c4 & _ & _ & Hc4 & _ & _ & Hfeas).
  destruct (proj1 (Hfeas a) Hfeasible) as (_ & _ & _ & _ & H4).
  pose proof (proj1 (level_loading_holds a _ _ _ _ _ Hc4) H4) as Hdev. clear H4.
  rename Hdev into H4.
  intros c n positions i p s Hc Hn Hi Hpos Hp Hs.
  destruct (H4 c n positions i p s Hc Hn Hi Hpos Hp Hs) as [Hup Hdown].
  destruct (Z_le_gt_dec 0 (s - p)) as [Hge|Hlt].
  - rewrite Z.abs_eq by exact Hge. exact Hup.
  - rewrite Z.abs_neq by lia. replace (- (s - p)) with (p - s) by lia. exact Hdown.
Qed.

Lemma deviation_bounds_distance_witness :
  exists prob,
    model_of (summary_of [unit_A1; unit_A2; unit_B3] 1) = Ok prob
    /\ (inject_Z (Z.abs (2 - 1)) * scenario_solution (batch_assignment "B" 2)
        <= scenario_solution (deviation "B" 0 2))%Q.
Proof.
  destruct (model_of (summary_of [unit_A1; unit_A2; unit_B3] 1)) as [prob|e] eqn:Hmodel;
    [|vm_compute in Hmodel; discriminate].
  exists prob. split; [reflexivity|].
  apply (deviation_bounds_distance ["A"; "B"] scenario_batches 3 scenario_ideal prob
           scenario_solution) with (n := 1) (positions := [1]).
  - vm_compute in Hmodel. injection Hmodel as <-. vm_compute. reflexivity.
  - vm_compute in Hmodel. injection Hmodel as <-.
    unfold feasible. simpl constraints.
    repeat (apply Forall_cons; split; [unfold holds; vm_compute;
                                       first [reflexivity | discriminate]|]).
    constructor.
  - right. left.
  - vm_compute. reflexivity.
  - lia.
  - vm_compute. reflexivity.
  - reflexivity.
  - lia.
Defined.

(** ** The dictionary of batch counts *)

Lemma foldl_insert_lookup_notin {V : Type} (d : gmap string V) (l : list (string * V))
    (c : string) :
  c ∉ map fst l -> foldl (fun d kv => <[kv.1 := kv.2]> d) d l !! c = d !! c.
Proof.
  induction l as [|[k v] l IH] using rev_ind; intros Hnot; [reflexivity|].
  rewrite foldl_insert_app. simpl. rewrite map_app in Hnot. simpl in Hnot.
  rewrite lookup_insert_ne.
  - apply IH. intros Hin. apply Hnot, elem_of_app. left. exact Hin.
  - intros ->. apply Hnot, elem_of_app. right. left.
Qed.

Lemma zip_lookup_elem {A B : Type} (ks : list A) (vs : list B) (i : nat) (k : A) (v : B) :
  ks !! i = Some k -> vs !! i = Some v -> (k, v) ∈ zip ks vs.
Proof.
  revert vs i. induction ks as [|k' ks IH]; intros [|v' vs] [|i]; simpl;
    try discriminate.
  - intros [= ->] [= ->]. left.
  - intros Hk Hv. right. exact (IH vs i Hk Hv).
Qed.

(** X10. [dict(zip(keys, values))] with distinct keys and as many values:
    looking up the key at an index gives the value at that index, and a key
    that is not among the keys is not found. *)
Theorem dict_zip_lookup {V : Type} (ks : list string) (vs : list V) :
  NoDup ks -> length ks = length vs ->
  (forall i k v, ks !! i = Some k -> vs !! i = Some v -> getitem (dict_zip ks vs) k = Ok v)
  /\ (forall k, k ∉ ks -> getitem (dict_zip ks vs) k = Raise "KeyError").
Proof.
  intros Hnd Hlen. unfold getitem, dict_zip. split.
  - intros i k v Hk Hv.
    rewrite (foldl_insert_lookup_NoDup ∅ (zip ks vs) k v); [reflexivity| |].
    + rewrite zip_fst_same_length by exact Hlen. exact Hnd.
    + exact (zip_lookup_elem ks vs i k v Hk Hv).
  - intros k Hk. rewrite foldl_insert_lookup_notin.
    + rewrite lookup_empty. reflexivity.
    + rewrite zip_fst_same_length by exact Hlen. exact Hk.
Qed.

Lemma dict_zip_lookup_witness :
  (forall i k v, ["A"; "B"] !! i = Some k -> [2; 1] !! i = Some v ->
     getitem (dict_zip ["A"; "B"] [2; 1]) k = Ok v)
  /\ (forall k, k ∉ ["A"; "B"] -> getitem (dict_zip ["A"; "B"] [2; 1]) k = Raise "KeyError").
Proof.
  apply (dict_zip_lookup ["A"; "B"] [2; 1]).
  - apply (proj1 (bool_decide_eq_true _)). vm_compute. reflexivity.
  - reflexivity.
Defined.

(** ** What optimize_sequence_milp does to the object *)




(** ** The extracted batch sequence *)

Lemma sublist_flat_map_slots (val : LpVariable -> Q) (paint_codes : list string)
    (slots : list Z) :
  map batch_position (flat_map (fun b => extract_batch val b paint_codes) slots)
  `sublist_of` slots.
Proof.
  induction slots as [|s slots IH]; simpl; [constructor|].
  destruct (extract_batch_cases val s paint_codes) as [->|(c & -> & _)]; simpl.
  - apply sublist_cons. exact IH.
  - apply sublist_skip. exact IH.
Qed.

(** X12. Whatever the values of the solver, the batch sequence holds at most
    one entry for a slot, its entries are in ascending order of the slot
    index, every slot index is a slot of the schedule, and every paint code
    is one of the summary. *)
Theorem extract_solution_slots (val : LpVariable -> Q) (paint_codes : list string) (T : Z) :
  map batch_position (extract_solution val paint_codes T) `sublist_of` range T
  /\ NoDup (map batch_position (extract_solution val paint_codes T))
  /\ Forall (fun r => 0 <= batch_position r < T /\ b_paint_code r ∈ paint_codes)
            (extract_solution val paint_codes T).
Proof.
  pose proof (sublist_flat_map_slots val paint_codes (range T)) as Hsub.
  fold (extract_solution val paint_codes T) in Hsub.
  split; [exact Hsub|]. split.
  - eapply sublist_NoDup; [apply NoDup_seqZ|exact Hsub].
  - apply Forall_forall. intros r Hr. split.
    + apply range_elem. apply (sublist_subseteq _ _ Hsub).
      apply list_elem_of_fmap. exists r. auto.
    + apply (extract_solution_codes _ _ _ _ Hr).
Qed.

(** ** The rows of the solution table *)

Lemma map_from_index {A : Type} (f : A -> Z) (l : list A) (start : Z) :
  (forall i r, l !! i = Some r -> f r = start + Z.of_nat i) ->
  map f l = seqZ start (Z.of_nat (length l)).
Proof.
  revert start. induction l as [|a l IH]; intros start H; [reflexivity|].
  simpl length. rewrite seqZ_S. simpl. f_equal.
  - rewrite (H 0%nat a eq_refl). lia.
  - apply IH. intros i r Hr. rewrite (H (S i) r Hr). lia.
Qed.

(** X13. The new production sequence numbers of a solution table are 1, 2,
    3, ... in the order of its rows. *)
Theorem assignment_numbers_rows (batch_sequence : list batch_row) (w : process)
    (vehicles : list vehicle) (out : list solution_row) :
  vehicles_df (self w) = Some vehicles ->
  (assign_vehicles_to_batches batch_sequence w).1 = Ok out ->
  map s_production_sequence out = seqZ 1 (Z.of_nat (length out)).
Proof.
  intros Hdf Hrun. destruct (assign_run_Ok _ _ _ _ Hdf Hrun) as [_ ->].
  apply map_from_index. unfold assign_rows.
  apply (assign_fold_general vehicles (batch_size (self w)) (by_position batch_sequence)).
Qed.

Lemma assignment_numbers_rows_witness :
  map s_production_sequence
    [ SolutionRow "V1" (Some "A") 1 1 1 None; SolutionRow "V2" (Some "A") 1 2 2 None ]
  = seqZ 1 (Z.of_nat (length
      [ SolutionRow "V1" (Some "A") 1 1 1 None; SolutionRow "V2" (Some "A") 1 2 2 None ])).
Proof.
  apply (assignment_numbers_rows [BatchRow 0 "A"]
           (fresh 20 [unit_A1; unit_A2; unit_B3]) [unit_A1; unit_A2; unit_B3]).
  - reflexivity.
  - vm_compute. reflexivity.
Defined.

Lemma batch_rows_elem (batch_pos seq : Z) (vs : list vehicle) (r : solution_row) :
  r ∈ batch_rows batch_pos seq vs ->
  exists v, v ∈ vs /\ source r = unit_key v
            /\ s_batch_id r = batch_pos + 1 /\ s_planned r = None.
Proof.
  revert seq. induction vs as [|v vs IH]; intros seq Hr; simpl in Hr; [inversion Hr|].
  apply elem_of_cons in Hr as [->|Hr].
  - exists v. repeat split. left.
  - destruct (IH _ Hr) as (v' & Hv' & H). exists v'. split; [right; exact Hv'|exact H].
Qed.

(** Every row of the state of the outer loop was made from a unit of the
    table for a batch of the sequence that has the paint code of the
    unit. *)
Lemma assign_fold_origin (vehicles : list vehicle) (bs : Z) (batch_sequence : list batch_row) :
  Forall (fun r => exists v b,
            v ∈ vehicles /\ b ∈ batch_sequence /\ source r = unit_key v
            /\ paint v = Some (b_paint_code b)
            /\ s_batch_id r = batch_position b + 1 /\ s_planned r = None)
         (foldl (assign_batch vehicles bs) ([], 1) batch_sequence).1.
Proof.
  induction batch_sequence as [|batch done IH] using rev_ind; [constructor|].
  rewrite foldl_app. simpl. rewrite assign_batch_eq. simpl.
  apply Forall_app. split.
  - eapply Forall_impl; [exact IH|]. intros r (v & b & Hv & Hb & H).
    exists v, b. split; [exact Hv|]. split; [apply elem_of_app; left; exact Hb|exact H].
  - apply Forall_forall. intros r Hr.
    destruct (batch_rows_elem _ _ _ _ Hr) as (v & Hv & Hsrc & Hid & Hplanned).
    destruct (paint_vehicles_of_elem _ _ _ _ _ Hv) as (Hpaint & _ & Hin).
    exists v, batch. split; [exact Hin|]. split; [apply elem_of_app; right; left|].
    auto.
Qed.

(** X14. Every row of a solution table is made from a unit of the unit
    table (its VIN, paint code and original sequence index) for a batch of
    the batch sequence that has the paint code of that unit; its batch id is
    the position of that batch plus one, and it has no timestamp yet. *)
Theorem assignment_rows_origin (batch_sequence : list batch_row) (w : process)
    (vehicles : list vehicle) (out : list solution_row) :
  vehicles_df (self w) = Some vehicles ->
  (assign_vehicles_to_batches batch_sequence w).1 = Ok out ->
  Forall (fun r => exists v b,
            v ∈ vehicles /\ b ∈ batch_sequence /\ source r = unit_key v
            /\ paint v = Some (b_paint_code b)
            /\ s_batch_id r = batch_position b + 1 /\ s_planned r = None) out.
Proof.
  intros Hdf Hrun. destruct (assign_run_Ok _ _ _ _ Hdf Hrun) as [_ ->].
  unfold assign_rows.
  eapply Forall_impl;
    [apply (assign_fold_origin vehicles (batch_size (self w)) (by_position batch_sequence))|].
  intros r (v & b & Hv & Hb & H). exists v, b. split; [exact Hv|]. split; [|exact H].
  unfold by_position in Hb.
  rewrite (elem_of_Permutation_proper _ _ _ (sort_by_Permutation _ _)) in Hb. exact Hb.
Qed.

Lemma assignment_rows_origin_witness :
  Forall (fun r => exists v b,
            v ∈ [unit_A1; unit_A2; unit_B3] /\ b ∈ [BatchRow 0 "A"] /\ source r = unit_key v
            /\ paint v = Some (b_paint_code b)
            /\ s_batch_id r = batch_position b + 1 /\ s_planned r = None)
    [ SolutionRow "V1" (Some "A") 1 1 1 None; SolutionRow "V2" (Some "A") 1 2 2 None ].
Proof.
  apply (assignment_rows_origin [BatchRow 0 "A"]
           (fresh 20 [unit_A1; unit_A2; unit_B3]) [unit_A1; unit_A2; unit_B3]).
  - reflexivity.
  - vm_compute. reflexivity.
Defined.

Lemma paint_vehicles_of_sublist (vehicles : list vehicle) (bs : Z)
    (rows : list solution_row) (c : string) :
  paint_vehicles_of vehicles bs rows c `sublist_of` vehicles.
Proof.
  unfold paint_vehicles_of, head.
  etransitivity;
    [|apply (sublist_filter (fun v => paint v = Some c /\ vin v ∉ map s_vin rows))].
  destruct (bs <? 0); apply sublist_take.
Qed.

(** With distinct VINs in the table no VIN is assigned twice. *)
Lemma assign_fold_NoDup (vehicles : list vehicle) (bs : Z) (batch_sequence : list batch_row) :
  NoDup (map vin vehicles) ->
  NoDup (map s_vin (foldl (assign_batch vehicles bs) ([], 1) batch_sequence).1).
Proof.
  intros Hnd. induction batch_sequence as [|batch done IH] using rev_ind; [constructor|].
  rewrite foldl_app. simpl. rewrite assign_batch_eq. simpl.
  rewrite map_app, batch_rows_vin. apply NoDup_app. split; [exact IH|]. split.
  - intros x Hx Hx'. apply list_elem_of_fmap in Hx' as (v & -> & Hv).
    destruct (paint_vehicles_of_elem _ _ _ _ _ Hv) as (_ & Hnot & _). contradiction.
  - eapply sublist_NoDup; [exact Hnd|]. apply sublist_map, paint_vehicles_of_sublist.
Qed.

(** X15. When the VINs of the unit table are distinct, no unit appears twice
    in the solution table. *)
Theorem assignment_assigns_once (batch_sequence : list batch_row) (w : process)
    (vehicles : list vehicle) (out : list solution_row) :
  vehicles_df (self w) = Some vehicles ->
  NoDup (map vin vehicles) ->
  (assign_vehicles_to_batches batch_sequence w).1 = Ok out ->
  NoDup (map s_vin out).
Proof.
  intros Hdf Hnd Hrun. destruct (assign_run_Ok _ _ _ _ Hdf Hrun) as [_ ->].
  apply assign_fold_NoDup, Hnd.
Qed.

Lemma assignment_assigns_once_witness :
  NoDup (map s_vin [ SolutionRow "V1" (Some "A") 1 1 1 None;
                     SolutionRow "V2" (Some "A") 1 2 2 None ]).
Proof.
  apply (assignment_assigns_once [BatchRow 0 "A"]
           (fresh 20 [unit_A1; unit_A2; unit_B3]) [unit_A1; unit_A2; unit_B3]).
  - reflexivity.
  - apply (proj1 (bool_decide_eq_true _)). vm_compute. reflexivity.
  - vm_compute. reflexivity.
Defined.

Lemma batch_rows_batch_id (batch_pos seq : Z) (vs : list vehicle) :
  map s_batch_id (batch_rows batch_pos seq vs) = replicate (length vs) (batch_pos + 1).
Proof.
  revert seq. induction vs as [|v vs IH]; intros seq; simpl; [reflexivity|].
  rewrite IH. reflexivity.
Qed.

Lemma paint_vehicles_of_length (vehicles : list vehicle) (bs : Z)
    (rows : list solution_row) (c : string) :
  0 <= bs -> Z.of_nat (length (paint_vehicles_of vehicles bs rows c)) <= bs.
Proof.
  intros Hbs. unfold paint_vehicles_of. rewrite head_nonneg by exact Hbs.
  rewrite length_take. lia.
Qed.

(** The rows with one batch id are at most [batch_size] for each batch at
    that position. *)
Lemma assign_fold_capacity (vehicles : list vehicle) (bs : Z)
    (batch_sequence : list batch_row) (p : Z) :
  0 <= bs ->
  Z.of_nat (length (filter (fun r => s_batch_id r = p + 1)
                      (foldl (assign_batch vehicles bs) ([], 1) batch_sequence).1))
  <= bs * Z.of_nat (length (filter (fun b => batch_position b = p) batch_sequence)).
Proof.
  intros Hbs. induction batch_sequence as [|batch done IH] using rev_ind; [simpl; lia|].
  rewrite foldl_app. simpl. rewrite assign_batch_eq. simpl.
  set (st := foldl (assign_batch vehicles bs) ([], 1) done) in *.
  set (picked := paint_vehicles_of vehicles bs st.1 (b_paint_code batch)).
  rewrite !filter_app, !length_app, filter_cons, filter_nil.
  pose proof (paint_vehicles_of_length vehicles bs st.1 (b_paint_code batch) Hbs) as Hlen.
  fold picked in Hlen.
  destruct (decide (batch_position batch = p)) as [Hp|Hp].
  - pose proof (length_filter (fun r => s_batch_id r = p + 1)
                  (batch_rows (batch_position batch) st.2 picked)) as Hle.
    rewrite batch_rows_length in Hle. simpl length. nia.
  - rewrite (filter_none (fun r => s_batch_id r = p + 1)
               (batch_rows (batch_position batch) st.2 picked)).
    + simpl length. nia.
    + apply Forall_forall. intros r Hr.
      destruct (batch_rows_elem _ _ _ _ Hr) as (_ & _ & _ & Hid & _). lia.
Qed.

(** X16. With a batch size that is not negative, the rows of the solution
    table with batch id [p + 1] are at most [batch_size] for each batch of
    the sequence at position [p]: a batch never holds more than
    [batch_size] units. *)
Theorem assignment_respects_batch_size (batch_sequence : list batch_row) (w : process)
    (vehicles : list vehicle) (out : list solution_row) (p : Z) :
  vehicles_df (self w) = Some vehicles ->
  0 <= batch_size (self w) ->
  (assign_vehicles_to_batches batch_sequence w).1 = Ok out ->
  Z.of_nat (length (filter (fun r => s_batch_id r = p + 1) out))
  <= batch_size (self w)
     * Z.of_nat (length (filter (fun b => batch_position b = p) batch_sequence)).
Proof.
  intros Hdf Hbs Hrun. destruct (assign_run_Ok _ _ _ _ Hdf Hrun) as [_ ->].
  unfold assign_rows.
  rewrite <- (filter_length_Permutation (fun b => batch_position b = p)
                (by_position batch_sequence) batch_sequence)
    by apply sort_by_Permutation.
  apply assign_fold_capacity, Hbs.
Qed.

Lemma assignment_respects_batch_size_witness :
  Z.of_nat (length (filter (fun r => s_batch_id r = 0 + 1)
                      [SolutionRow "V1" (Some "A") 1 1 1 None]))
  <= batch_size (self (fresh 1 [unit_A1; unit_A2; unit_B3]))
     * Z.of_nat (length (filter (fun b => batch_position b = 0) [BatchRow 0 "A"])).
Proof.
  apply (assignment_respects_batch_size [BatchRow 0 "A"]
           (fresh 1 [unit_A1; unit_A2; unit_B3]) [unit_A1; unit_A2; unit_B3]).
  - reflexivity.
  - simpl. lia.
  - vm_compute. reflexivity.
Defined.

Lemma StronglySorted_replicate (n : nat) (k : Z) : StronglySorted Z.le (replicate n k).
Proof.
  induction n as [|n IH]; simpl; constructor; [exact IH|].
  apply Forall_forall. intros x Hx. apply elem_of_replicate in Hx as [-> _]. lia.
Qed.

(** For a batch sequence in ascending order of position, the batch ids of
    the state of the outer loop ascend. *)
Lemma assign_fold_ascending (vehicles : list vehicle) (bs : Z)
    (batch_sequence : list batch_row) :
  StronglySorted (fun a b => batch_position a <= batch_position b) batch_sequence ->
  StronglySorted Z.le
    (map s_batch_id (foldl (assign_batch vehicles bs) ([], 1) batch_sequence).1).
Proof.
  induction batch_sequence as [|batch done IH] using rev_ind; intros Hsorted; [constructor|].
  apply StronglySorted_app in Hsorted as (Hle & Hdone & _).
  rewrite foldl_app. simpl. rewrite assign_batch_eq. simpl.
  rewrite map_app, batch_rows_batch_id. apply StronglySorted_app.
  split; [|split; [apply IH, Hdone|apply StronglySorted_replicate]].
  intros x1 x2 Hx1 Hx2. apply elem_of_replicate in Hx2 as [-> _].
  apply list_elem_of_fmap in Hx1 as (r & -> & Hr).
  pose proof (assign_fold_origin vehicles bs done) as Horigin.
  rewrite Forall_forall in Horigin.
  destruct (Horigin r Hr) as (_ & b & _ & Hb & _ & _ & Hid & _).
  rewrite Hid. specialize (Hle b batch Hb). 
  assert (batch ∈ [batch]) as Hin by left. specialize (Hle Hin). lia.
Qed.

(** X17. The rows of a solution table stand in ascending order of batch id,
    whatever the order of the batch sequence that was passed. *)
Theorem assignment_in_batch_order (batch_sequence : list batch_row) (w : process)
    (vehicles : list vehicle) (out : list solution_row) :
  vehicles_df (self w) = Some vehicles ->
  (assign_vehicles_to_batches batch_sequence w).1 = Ok out ->
  StronglySorted Z.le (map s_batch_id out).
Proof.
  intros Hdf Hrun. destruct (assign_run_Ok _ _ _ _ Hdf Hrun) as [_ ->].
  apply assign_fold_ascending. unfold by_position.
  eapply StronglySorted_weaken;
    [|apply (sort_by_StronglySorted (fun a b => batch_position a <=? batch_position b))].
  - intros a b Hab. apply Z.leb_le, Hab.
  - intros x y. destruct (Z.leb_spec (batch_position x) (batch_position y));
      [left; reflexivity|right; apply Z.leb_le; lia].
  - intros x y z Hxy Hyz. apply Z.leb_le. apply Z.leb_le in Hxy, Hyz. lia.
Qed.

Lemma assignment_in_batch_order_witness :
  StronglySorted Z.le
    (map s_batch_id [ SolutionRow "V1" (Some "A") 1 1 1 None;
                      SolutionRow "V2" (Some "A") 1 2 2 None;
                      SolutionRow "V3" (Some "B") 2 3 3 None ]).
Proof.
  apply (assignment_in_batch_order [BatchRow 1 "B"; BatchRow 0 "A"]
           (fresh 20 [unit_A1; unit_A2; unit_B3]) [unit_A1; unit_A2; unit_B3]).
  - reflexivity.
  - vm_compute. reflexivity.
Defined.

(** X18. With distinct VINs and a batch size that is not negative, the rows
    of one paint code in the solution table are made, in table order, from
    the first units of that code: as many of them as the batches of that
    code have room for. *)
Theorem assignment_takes_first_units (batch_sequence : list batch_row) (w : process)
    (vehicles : list vehicle) (out : list solution_row) (c : string) :
  vehicles_df (self w) = Some vehicles ->
  NoDup (map vin vehicles) ->
  0 <= batch_size (self w) ->
  (assign_vehicles_to_batches batch_sequence w).1 = Ok out ->
  map source (rows_of_paint c out)
  = map unit_key
      (take (Z.to_nat (batches_of c batch_sequence * batch_size (self w)))
            (of_paint c vehicles)).
Proof.
  intros Hdf Hnd Hbs Hrun. destruct (assign_run_Ok _ _ _ _ Hdf Hrun) as [_ ->].
  destruct (assign_fold_unique vehicles (batch_size (self w)) (by_position batch_sequence)
              Hnd Hbs) as (_ & Hinv).
  unfold assign_rows. rewrite Hinv, batches_of_by_position. reflexivity.
Qed.

Lemma assignment_takes_first_units_witness :
  map source (rows_of_paint "A" [SolutionRow "V1" (Some "A") 1 1 1 None])
  = map unit_key
      (take (Z.to_nat (batches_of "A" [BatchRow 0 "A"]
                       * batch_size (self (fresh 1 [unit_A1; unit_A2; unit_B3]))))
            (of_paint "A" [unit_A1; unit_A2; unit_B3])).
Proof.
  apply (assignment_takes_first_units [BatchRow 0 "A"]
           (fresh 1 [unit_A1; unit_A2; unit_B3]) [unit_A1; unit_A2; unit_B3]).
  - reflexivity.
  - apply (proj1 (bool_decide_eq_true _)). vm_compute. reflexivity.
  - simpl. lia.
  - vm_compute. reflexivity.
Defined.

(** X19. What a call of the assignment does to the object. An empty batch
    sequence raises [KeyError], and a sequence with rows raises [TypeError]
    when no unit table is loaded; in both cases the object is as before. A
    call that returns has stored the returned table as the solution table
    and changed nothing else. *)
Theorem assignment_effect (batch_sequence : list batch_row) (w : process) :
  (batch_sequence = [] ->
     assign_vehicles_to_batches batch_sequence w = (Raise "KeyError", w))
  /\ (batch_sequence <> [] -> vehicles_df (self w) = None ->
        assign_vehicles_to_batches batch_sequence w = (Raise "TypeError", w))
  /\ (forall out, (assign_vehicles_to_batches batch_sequence w).1 = Ok out ->
        (assign_vehicles_to_batches batch_sequence w).2 = with_solution_df w out).
Proof.
  split; [|split].
  - intros ->. reflexivity.
  - intros Hne Hdf.
    unfold assign_vehicles_to_batches, mthen, get_self, lift, ret, frame.
    rewrite decide_False by exact Hne. rewrite Hdf. reflexivity.
  - intros out Hrun. destruct (vehicles_df (self w)) as [vehicles|] eqn:Hdf.
    + destruct (assign_run_Ok _ _ _ _ Hdf Hrun) as [Hne ->].
      rewrite (assign_run _ _ _ Hdf Hne). reflexivity.
    + revert Hrun.
      unfold assign_vehicles_to_batches, mthen, get_self, lift, ret, frame.
      destruct (decide (batch_sequence = [])); [discriminate|].
      rewrite Hdf. discriminate.
Qed.

(** ** Timestamps *)

Lemma set_planned_lookup (rows : list solution_row) (values : list (option Z)) (i : nat)
    (r : solution_row) :
  set_planned rows values !! i = Some r ->
  exists t, values !! i = Some t /\ s_planned r = Some t.
Proof.
  revert values i. induction rows as [|r0 rows IH]; intros [|t values] i; simpl;
    try (rewrite lookup_nil; discriminate).
  destruct i as [|i]; simpl.
  - intros [= <-]. exists t. split; reflexivity.
  - apply IH.
Qed.

Lemma set_planned_length (rows : list solution_row) (values : list (option Z)) :
  length values = length rows -> length (set_planned rows values) = length rows.
Proof.
  revert values. induction rows as [|r rows IH]; intros [|t values] Hlen;
    simpl in *; try discriminate; try reflexivity.
  f_equal. apply IH. lia.
Qed.

Lemma set_planned_again (rows : list solution_row) (values : list (option Z)) :
  set_planned (set_planned rows values) values = set_planned rows values.
Proof.
  revert values. induction rows as [|r rows IH]; intros [|t values]; simpl;
    try reflexivity.
  f_equal. apply IH.
Qed.

Lemma range_lookup (n : Z) (i : nat) (k : Z) :
  range n !! i = Some k -> k = Z.of_nat i.
Proof. unfold range. intros H. apply lookup_seqZ in H. lia. Qed.

(** What a call of [update_timestamps] that returns has done. *)
Lemma update_timestamps_Ok (start_datetime : option (option Z)) (increment_minutes : Z)
    (w : process) (rows' : list solution_row) :
  (update_timestamps start_datetime increment_minutes w).1 = Ok rows' ->
  exists rows start,
    solution_df (self w) = Some rows
    /\ match start_datetime with
       | Some t => start = t
       | None => exists vehicles,
           vehicles_df (self w) = Some vehicles
           /\ start = column_min (map planned_ga_in_datetime vehicles)
       end
    /\ rows' = set_planned rows
                 (map (fun i => add_minutes start (i * increment_minutes))
                      (range (Z.of_nat (length rows))))
    /\ (update_timestamps start_datetime increment_minutes w).2 = with_solution_df w rows'.
Proof.
  unfold update_timestamps, mthen, get_self, lift, ret, frame, set_solution_df,
    with_solution_df.
  destruct start_datetime as [t|]; simpl.
  - destruct (solution_df (self w)) as [rows|]; simpl; [|discriminate].
    intros [= <-]. exists rows, t. auto.
  - destruct (vehicles_df (self w)) as [vehicles|] eqn:Hdf; simpl; [|discriminate].
    destruct (solution_df (self w)) as [rows|]; simpl; [|discriminate].
    intros [= <-]. exists rows, (column_min (map planned_ga_in_datetime vehicles)).
    split; [reflexivity|]. split; [exists vehicles; auto|]. rewrite Hdf. auto.
Qed.

(** X20. With a start time given, the row at index [i] of the returned
    table carries the start time plus [i] times the increment, or no time
    when the start is not a time; the table has as many rows as the solution
    table had. *)
Theorem update_timestamps_spacing (start : option Z) (increment_minutes : Z)
    (w : process) (rows rows' : list solution_row) :
  solution_df (self w) = Some rows ->
  (update_timestamps (Some start) increment_minutes w).1 = Ok rows' ->
  length rows' = length rows
  /\ forall i r, rows' !! i = Some r ->
       s_planned r = Some (add_minutes start (Z.of_nat i * increment_minutes)).
Proof.
  intros Hrows Hrun.
  destruct (update_timestamps_Ok _ _ _ _ Hrun) as (rows0 & start0 & Hrows0 & -> & -> & _).
  rewrite Hrows in Hrows0. injection Hrows0 as <-. split.
  - apply set_planned_length. rewrite length_map, range_length. lia.
  - intros i r Hr. apply set_planned_lookup in Hr as (t & Ht & ->).
    rewrite list_lookup_fmap in Ht.
    destruct (range (Z.of_nat (length rows)) !! i) as [k|] eqn:Hk; [|discriminate].
    apply range_lookup in Hk as ->. simpl in Ht. congruence.
Qed.

Lemma update_timestamps_spacing_witness :
  length [ SolutionRow "V1" (Some "A") 1 1 7 (Some (Some 600));
           SolutionRow "V2" (Some "B") 2 2 3 (Some (Some 605)) ]
  = length two_row_table
  /\ forall i r,
       [ SolutionRow "V1" (Some "A") 1 1 7 (Some (Some 600));
         SolutionRow "V2" (Some "B") 2 2 3 (Some (Some 605)) ] !! i = Some r ->
       s_planned r = Some (add_minutes (Some 600) (Z.of_nat i * 5)).
Proof.
  apply (update_timestamps_spacing (Some 600) 5
           (Process (Optimizer 20 None None (Some two_row_table) 0) [])).
  - reflexivity.
  - vm_compute. reflexivity.
Defined.

(** X21. Stamping is idempotent: a second call with the same arguments
    returns the same table and leaves the object as the first call left
    it. *)
Theorem update_timestamps_idempotent (start_datetime : option (option Z))
    (increment_minutes : Z) (w : process) (rows' : list solution_row) :
  (update_timestamps start_datetime increment_minutes w).1 = Ok rows' ->
  update_timestamps start_datetime increment_minutes
    (update_timestamps start_datetime increment_minutes w).2
  = (Ok rows', (update_timestamps start_datetime increment_minutes w).2).
Proof.
  intros Hrun.
  destruct (update_timestamps_Ok _ _ _ _ Hrun) as (rows & start & Hrows & Hstart & Hout & ->).
  assert (length rows' = length rows) as Hlen.
  { rewrite Hout. apply set_planned_length. rewrite length_map, range_length. lia. }
  assert (set_planned rows'
            (map (fun i => add_minutes start (i * increment_minutes))
                 (range (Z.of_nat (length rows')))) = rows') as Hsame.
  { rewrite Hlen. rewrite Hout at 1. rewrite set_planned_again. symmetry. exact Hout. }
  unfold update_timestamps, mthen, get_self, lift, ret, frame, set_solution_df,
    with_solution_df.
  destruct start_datetime as [t|]; simpl.
  - subst start. rewrite Hsame. reflexivity.
  - destruct Hstart as (vehicles & Hdf & ->). rewrite Hdf. simpl.
    rewrite Hsame. reflexivity.
Qed.

Lemma update_timestamps_idempotent_witness :
  update_timestamps (Some (Some 600)) 5
    (update_timestamps (Some (Some 600)) 5
       (Process (Optimizer 20 None None (Some two_row_table) 0) [])).2
  = (Ok [ SolutionRow "V1" (Some "A") 1 1 7 (Some (Some 600));
          SolutionRow "V2" (Some "B") 2 2 3 (Some (Some 605)) ],
     (update_timestamps (Some (Some 600)) 5
        (Process (Optimizer 20 None None (Some two_row_table) 0) [])).2).
Proof.
  apply (update_timestamps_idempotent (Some (Some 600)) 5
           (Process (Optimizer 20 None None (Some two_row_table) 0) [])).
  vm_compute. reflexivity.
Defined.

Lemma column_min_fold (col : list (option Z)) (m : option Z) :
  match foldl (fun m cell => match m, cell with
                             | Some a, Some b => Some (Z.min a b)
                             | None, c => c
                             | m, None => m
                             end) m col with
  | None => m = None /\ Forall (fun cell => cell = None) col
  | Some t => (m = Some t \/ Some t ∈ col)
              /\ (forall a, m = Some a -> t <= a)
              /\ Forall (fun cell => forall a, cell = Some a -> t <= a) col
  end.
Proof.
  revert m. induction col as [|cell col IH]; intros m; simpl.
  - destruct m as [a|].
    + split; [left; reflexivity|]. split; [intros ? [= <-]; lia|constructor].
    + split; [reflexivity|constructor].
  - specialize (IH (match m, cell with
                    | Some a, Some b => Some (Z.min a b)
                    | None, c => c
                    | m, None => m
                    end)).
    destruct (foldl _ _ col) as [t|].
    + destruct IH as (Hin & Hle & Hall).
      destruct m as [a|], cell as [b|]; simpl in *.
      * split; [|split].
        -- destruct Hin as [[= <-]|Hin]; [|right; right; exact Hin].
           destruct (Z.min_spec a b) as [[_ ->]|[_ ->]]; [left; reflexivity|right; left].
        -- intros a' [= <-]. specialize (Hle _ eq_refl). lia.
        -- constructor; [|exact Hall]. intros b' [= <-]. specialize (Hle _ eq_refl). lia.
      * split; [|split].
        -- destruct Hin as [Hin|Hin]; [left; exact Hin|right; right; exact Hin].
        -- exact Hle.
        -- constructor; [discriminate|exact Hall].
      * split; [|split].
        -- right. destruct Hin as [[= <-]|Hin]; [left|right; exact Hin].
        -- discriminate.
        -- constructor; [|exact Hall]. intros b' [= <-]. apply Hle. reflexivity.
      * split; [|split].
        -- right. destruct Hin as [Hin|Hin]; [discriminate|right; exact Hin].
        -- discriminate.
        -- constructor; [discriminate|exact Hall].
    + destruct IH as (Hm & Hall).
      destruct m as [a|], cell as [b|]; simpl in *; try discriminate.
      split; [reflexivity|]. constructor; [reflexivity|exact Hall].
Qed.

(** X22. With no start time given, the stamps start at the earliest planned
    time of the unit table, missing cells left aside: the row at index [i]
    carries that time plus [i] times the increment. When no unit has a
    planned time, the rows carry no time. *)
Theorem update_timestamps_default_start (increment_minutes : Z) (w : process)
    (vehicles : list vehicle) (rows' : list solution_row) :
  vehicles_df (self w) = Some vehicles ->
  (update_timestamps None increment_minutes w).1 = Ok rows' ->
  exists start,
    (forall i r, rows' !! i = Some r ->
       s_planned r = Some (add_minutes start (Z.of_nat i * increment_minutes)))
    /\ match start with
       | Some t =>
           (exists v, v ∈ vehicles /\ planned_ga_in_datetime v = Some t)
           /\ Forall (fun v => forall a, planned_ga_in_datetime v = Some a -> t <= a)
                     vehicles
       | None => Forall (fun v => planned_ga_in_datetime v = None) vehicles
       end.
Proof.
  intros Hdf Hrun.
  destruct (update_timestamps_Ok _ _ _ _ Hrun)
    as (rows & start & Hrows & (vehicles0 & Hdf0 & Hstart) & -> & _).
  rewrite Hdf in Hdf0. injection Hdf0 as <-.
  exists start. split.
  - intros i r Hr. apply set_planned_lookup in Hr as (t & Ht & ->).
    rewrite list_lookup_fmap in Ht.
    destruct (range (Z.of_nat (length rows)) !! i) as [k|] eqn:Hk; [|discriminate].
    apply range_lookup in Hk as ->. simpl in Ht. congruence.
  - pose proof (column_min_fold (map planned_ga_in_datetime vehicles) None) as Hmin.
    fold (column_min (map planned_ga_in_datetime vehicles)) in Hmin.
    rewrite <- Hstart in Hmin. destruct start as [t|].
    + destruct Hmin as ([Hin|Hin] & _ & Hall); [discriminate|]. split.
      * apply list_elem_of_fmap in Hin as (v & Hv & Hin). exists v. auto.
      * apply Forall_forall. intros v Hv.
        apply (proj1 (Forall_map_iff _ _ _) Hall v Hv).
    + destruct Hmin as [_ Hall]. apply Forall_forall. intros v Hv.
      apply (proj1 (Forall_map_iff _ _ _) Hall v Hv).
Qed.

Lemma update_timestamps_default_start_witness :
  exists start,
    (forall i r,
       [ SolutionRow "V1" (Some "A") 1 1 7 (Some (Some 600));
         SolutionRow "V2" (Some "B") 2 2 3 (Some (Some 601)) ] !! i = Some r ->
       s_planned r = Some (add_minutes start (Z.of_nat i * 1)))
    /\ match start with
       | Some t =>
           (exists v, v ∈ [unit_late; unit_early] /\ planned_ga_in_datetime v = Some t)
           /\ Forall (fun v => forall a, planned_ga_in_datetime v = Some a -> t <= a)
                     [unit_late; unit_early]
       | None => Forall (fun v => planned_ga_in_datetime v = None) [unit_late; unit_early]
       end.
Proof.
  apply (update_timestamps_default_start 1
           (Process (Optimizer 20 (Some [unit_late; unit_early]) None
                       (Some two_row_table) 0) [])).
  - reflexivity.
  - vm_compute. reflexivity.
Defined.

(** ** Summary metrics *)

(** X23. The metrics are read off the object without changing it. Without a
    solution table the call raises [ValueError], on a solution table without
    rows [KeyError], and on any other solution table it returns. *)
Theorem generate_summary_metrics_effect (w : process) :
  (generate_summary_metrics w).2 = w
  /\ (solution_df (self w) = None -> (generate_summary_metrics w).1 = Raise "ValueError")
  /\ (solution_df (self w) = Some [] -> (generate_summary_metrics w).1 = Raise "KeyError")
  /\ (forall rows, solution_df (self w) = Some rows -> rows <> [] ->
        exists m, (generate_summary_metrics w).1 = Ok m).
Proof.
  unfold generate_summary_metrics, mthen, get_self, lift, ret.
  destruct (solution_df (self w)) as [rows|]; simpl.
  - destruct (decide (rows = [])) as [->|Hne]; simpl.
    + split; [reflexivity|]. split; [discriminate|]. split; [reflexivity|].
      intros rows [= <-] H. contradiction.
    + split; [reflexivity|]. split; [discriminate|]. split; [congruence|].
      intros rows0 _ _. eexists. reflexivity.
  - split; [reflexivity|]. split; [reflexivity|]. split; discriminate.
Qed.

Lemma remove_dups_length {A : Type} `{EqDecision A} (l : list A) :
  (length (remove_dups l) <= length l)%nat.
Proof.
  induction l as [|a l IH]; simpl; [lia|].
  destruct (decide_rel elem_of a l); simpl; lia.
Qed.

Lemma remove_dups_nonempty {A : Type} `{EqDecision A} (l : list A) :
  l <> [] -> (1 <= length (remove_dups l))%nat.
Proof.
  intros Hne. destruct (remove_dups l) as [|a t] eqn:Hl; [|simpl; lia].
  destruct l as [|b l]; [contradiction|].
  assert (b ∈ remove_dups (b :: l)) as Hb by (apply elem_of_remove_dups; left).
  rewrite Hl in Hb. inversion Hb.
Qed.

Lemma omap_id_Some {A B : Type} (f : A -> B) (l : list A) :
  omap id (map (fun a => Some (f a)) l) = map f l.
Proof. induction l as [|a l IH]; [reflexivity|]. cbn. f_equal. exact IH. Qed.

Lemma transitions_length (l : list (option string)) :
  (transitions l <= length l - 1)%nat.
Proof.
  induction l as [|a [|b t] IH]; [simpl; lia|simpl; lia|].
  change (transitions (a :: b :: t))
    with ((if paint_differs b a then 1 else 0) + transitions (b :: t))%nat.
  simpl length in *. destruct (paint_differs b a); lia.
Qed.

(** A column in which [k] distinct paint codes occur changes its value at
    [k - 1] places or more. *)
Lemma nunique_transitions (l : list (option string)) :
  nunique l - 1 <= Z.of_nat (transitions l).
Proof.
  unfold nunique. induction l as [|a [|b t] IH].
  - simpl. lia.
  - destruct a as [p|]; cbn; [|lia].
    destruct (decide_rel elem_of p []); simpl; lia.
  - change (transitions (a :: b :: t))
      with ((if paint_differs b a then 1 else 0) + transitions (b :: t))%nat.
    destruct a as [p|]; [|cbn in *; destruct (paint_differs b None); lia].
    change (omap id (Some p :: b :: t)) with (p :: omap id (b :: t)).
    assert (b = Some p -> p ∈ omap id (b :: t)) as Hsame by (intros ->; left).
    revert IH Hsame. generalize (omap id (b :: t)). intros L IH Hsame.
    simpl remove_dups.
    destruct (decide_rel elem_of p L) as [Hin|Hnot].
    + destruct (paint_differs b (Some p)); lia.
    + destruct b as [q|]; [|simpl paint_differs; simpl length; cbv iota; lia].
      simpl paint_differs. rewrite bool_decide_eq_true_2.
      * simpl length. lia.
      * intros ->. apply Hnot, Hsame. reflexivity.
Qed.

Lemma changeover_step_positions (rows : list solution_row) (st : list Z * option (option string)) :
  exists l, (foldl changeover_step st rows).1 = st.1 ++ l
            /\ l `sublist_of` map s_production_sequence rows.
Proof.
  revert st. induction rows as [|r rows IH]; intros st.
  - exists []. simpl. rewrite app_nil_r. split; [reflexivity|constructor].
  - simpl foldl. destruct (IH (changeover_step st r)) as (l & -> & Hl).
    unfold changeover_step at 1. simpl fst.
    destruct st.2 as [prev|]; [destruct (paint_differs (s_paint r) prev)|].
    + exists (s_production_sequence r :: l). rewrite <- app_assoc. simpl.
      split; [reflexivity|]. apply sublist_skip, Hl.
    + exists l. split; [reflexivity|]. simpl. apply sublist_cons, Hl.
    + exists l. split; [reflexivity|]. simpl. apply sublist_cons, Hl.
Qed.

(** X24. The figures of the metrics bound each other: there is at least one
    batch and at most one for each row; the changeovers are fewer than the
    rows by one or more and are at least the number of paint codes less one;
    and the changeover positions are sequence numbers of the table, in the
    order of its rows. *)
Theorem metrics_bounds (w : process) (rows : list solution_row) (m : metrics) :
  solution_df (self w) = Some rows ->
  (generate_summary_metrics w).1 = Ok m ->
  m_total_vehicles m = Z.of_nat (length rows)
  /\ 1 <= m_total_batches m <= m_total_vehicles m
  /\ m_unique_paint_codes m - 1 <= m_total_changeovers m <= m_total_vehicles m - 1
  /\ m_total_changeovers m = Z.of_nat (length (m_changeover_positions m))
  /\ m_changeover_positions m `sublist_of` map s_production_sequence rows.
Proof.
  intros Hrows. unfold generate_summary_metrics, mthen, get_self, lift, ret.
  rewrite Hrows. simpl. destruct (decide (rows = [])) as [->|Hne]; [discriminate|].
  simpl. intros [= <-]. simpl.
  assert (1 <= length rows)%nat as Hlen by (destruct rows; [contradiction|simpl; lia]).
  split; [reflexivity|]. split; [|split; [|split; [reflexivity|]]].
  - unfold nunique. rewrite (omap_id_Some s_batch_id).
    pose proof (remove_dups_length (map s_batch_id rows)) as Hle.
    pose proof (remove_dups_nonempty (map s_batch_id rows)) as Hge.
    rewrite length_map in Hle.
    assert (map s_batch_id rows <> []) as Hne' by (destruct rows; [contradiction|discriminate]).
    specialize (Hge Hne'). lia.
  - rewrite changeover_positions_length.
    pose proof (nunique_transitions (map s_paint rows)).
    pose proof (transitions_length (map s_paint rows)) as Htr.
    rewrite length_map in Htr. lia.
  - destruct (changeover_step_positions rows ([], None)) as (l & Hl & Hsub).
    unfold changeover_positions. rewrite Hl. exact Hsub.
Qed.

Lemma metrics_bounds_witness :
  m_total_vehicles (Metrics 2 2 2 1 50%float (paint_per_100 two_row_table) [2])
  = Z.of_nat (length two_row_table)
  /\ 1 <= m_total_batches (Metrics 2 2 2 1 50%float (paint_per_100 two_row_table) [2])
     <= m_total_vehicles (Metrics 2 2 2 1 50%float (paint_per_100 two_row_table) [2])
  /\ m_unique_paint_codes (Metrics 2 2 2 1 50%float (paint_per_100 two_row_table) [2]) - 1
     <= m_total_changeovers (Metrics 2 2 2 1 50%float (paint_per_100 two_row_table) [2])
     <= m_total_vehicles (Metrics 2 2 2 1 50%float (paint_per_100 two_row_table) [2]) - 1
  /\ m_total_changeovers (Metrics 2 2 2 1 50%float (paint_per_100 two_row_table) [2])
     = Z.of_nat (length (m_changeover_positions
                           (Metrics 2 2 2 1 50%float (paint_per_100 two_row_table) [2])))
  /\ m_changeover_positions (Metrics 2 2 2 1 50%float (paint_per_100 two_row_table) [2])
     `sublist_of` map s_production_sequence two_row_table.
Proof.
  apply (metrics_bounds (Process (Optimizer 20 None None (Some two_row_table) 0) [])).
  - reflexivity.
  - vm_compute. reflexivity.
Defined.

Lemma kept_columns_eq (rows rows' : list solution_row) :
  map kept_columns rows = map kept_columns rows' ->
  length rows = length rows'
  /\ map s_paint rows = map s_paint rows'
  /\ map s_batch_id rows = map s_batch_id rows'
  /\ forall st, foldl changeover_step st rows = foldl changeover_step st rows'.
Proof.
  revert rows'. induction rows as [|r rows IH]; intros [|r' rows'] H;
    try discriminate.
  - repeat split.
  - simpl in H. apply (f_equal tail) in H as Hrest. simpl in Hrest.
    apply (f_equal (fun l => l !! 0%nat)) in H as Hr. simpl in Hr.
    destruct (IH _ Hrest) as (Hlen & Hpaint & Hid & Hfold).
    unfold kept_columns in Hr. injection Hr as Hvin Hp Hb Hs Ho.
    split; [simpl; lia|]. split; [simpl; congruence|]. split; [simpl; congruence|].
    intros st. simpl.
    assert (changeover_step st r = changeover_step st r') as ->
      by (unfold changeover_step; rewrite Hp, Hs; reflexivity).
    apply Hfold.
Qed.

(** X25. The metrics do not depend on the timestamps: after a call of
    [update_timestamps], whatever its arguments and whether it returned or
    raised, the metrics are computed as before it. *)
Theorem metrics_ignore_timestamps (start_datetime : option (option Z))
    (increment_minutes : Z) (w : process) :
  (generate_summary_metrics (update_timestamps start_datetime increment_minutes w).2).1
  = (generate_summary_metrics w).1.
Proof.
  assert (forall w1 w2 rows rows',
            solution_df (self w1) = Some rows -> solution_df (self w2) = Some rows' ->
            map kept_columns rows' = map kept_columns rows ->
            (generate_summary_metrics w1).1 = (generate_summary_metrics w2).1) as Hkept.
  { intros w1 w2 rows rows' H1 H2 Heq.
    destruct (kept_columns_eq _ _ Heq) as (Hlen & Hpaint & Hid & Hfold).
    unfold generate_summary_metrics, mthen, get_self, lift, ret.
    rewrite H1, H2. simpl.
    destruct (decide (rows = [])) as [Hnil|Hne], (decide (rows' = [])) as [Hnil'|Hne'];
      [reflexivity
      |subst rows; destruct rows'; [contradiction|discriminate]
      |subst rows'; destruct rows; [contradiction|discriminate]
      |].
    simpl. unfold paint_per_100, changeover_positions, nunique.
    assert (omap s_paint rows' = omap s_paint rows) as ->.
    { clear -Hpaint. revert rows Hpaint.
      induction rows' as [|r' rows' IH]; intros [|r rows] H; try discriminate;
        [reflexivity|].
      simpl in H. injection H as Hp Hrest. cbn. rewrite Hp, (IH _ Hrest). reflexivity. }
    rewrite (omap_id_Some s_batch_id rows), (omap_id_Some s_batch_id rows').
    rewrite Hlen, Hpaint, Hid, Hfold. reflexivity. }
  unfold update_timestamps, mthen, get_self, lift, ret, frame.
  destruct start_datetime as [t|]; simpl.
  - destruct (solution_df (self w)) as [rows|] eqn:Hrows; simpl; [|reflexivity].
    eapply Hkept; [reflexivity|exact Hrows|].
    symmetry. apply set_planned_kept. rewrite length_map, range_length. lia.
  - destruct (vehicles_df (self w)) as [vehicles|]; simpl; [|reflexivity].
    destruct (solution_df (self w)) as [rows|] eqn:Hrows; simpl; [|reflexivity].
    eapply Hkept; [reflexivity|exact Hrows|].
    symmetry. apply set_planned_kept. rewrite length_map, range_length. lia.
Qed.

(** ** The workflow on a solved model *)

(** In a solution of the model whose assignment variables are 0 or 1, one
    paint code is set at each slot. *)
Lemma slot_has_one_code (paint_codes : list string) (paint_batches : gmap string Z)
    (T : Z) (ideal_positions : gmap string (list Z)) (prob : LpProblem)
    (val : LpVariable -> Q) (s : Z) :
  build_model paint_codes paint_batches T ideal_positions = Ok prob ->
  feasible val prob ->
  binary_assignment val paint_codes T ->
  0 <= s < T ->
  length (filter (fun c => assigned (val (batch_assignment c s)) = true) paint_codes)
  = 1%nat.
Proof.
  intros Hbuild Hfeasible Hbin Hs.
  destruct (feasible_assignment _ _ _ _ _ _ Hbuild Hfeasible) as [Hone _].
  specialize (Hone s Hs).
  rewrite (sum_binary (fun c => val (batch_assignment c s)) paint_codes) in Hone
    by (intros c Hc; apply Hbin; assumption).
  change 1%Q with (inject_Z 1) in Hone.
  apply (proj1 (inject_Z_injective _ _)) in Hone. lia.
Qed.

Lemma one_code_unique (val : LpVariable -> Q) (paint_codes : list string) (s : Z)
    (c c' : string) :
  length (filter (fun c => assigned (val (batch_assignment c s)) = true) paint_codes)
  = 1%nat ->
  c ∈ paint_codes -> assigned (val (batch_assignment c s)) = true ->
  c' ∈ paint_codes -> assigned (val (batch_assignment c' s)) = true ->
  c = c'.
Proof.
  intros Hone Hc Ha Hc' Ha'.
  assert (c ∈ filter (fun c => assigned (val (batch_assignment c s)) = true) paint_codes)
    as Hin by (apply list_elem_of_filter; auto).
  assert (c' ∈ filter (fun c => assigned (val (batch_assignment c s)) = true) paint_codes)
    as Hin' by (apply list_elem_of_filter; auto).
  destruct (filter _ paint_codes) as [|a [|b l]]; try discriminate.
  apply list_elem_of_singleton in Hin, Hin'. congruence.
Qed.

Lemma extract_batch_of_assigned (val : LpVariable -> Q) (paint_codes : list string)
    (s : Z) (c : string) :
  length (filter (fun c => assigned (val (batch_assignment c s)) = true) paint_codes)
  = 1%nat ->
  c ∈ paint_codes -> assigned (val (batch_assignment c s)) = true ->
  extract_batch val s paint_codes = [BatchRow s c].
Proof.
  intros Hone Hc Ha.
  destruct (extract_batch_some val s paint_codes) as [c0 He]; [eauto|].
  assert (BatchRow s c0 ∈ extract_batch val s paint_codes) as Hin by (rewrite He; left).
  destruct (extract_batch_first _ _ _ _ Hin) as (_ & before & after & Hsplit & Ha0 & _).
  simpl in Hsplit, Ha0.
  assert (c0 ∈ paint_codes) as Hc0 by (rewrite Hsplit; apply elem_of_app; right; left).
  rewrite He, (one_code_unique val paint_codes s c c0 Hone Hc Ha Hc0 Ha0). reflexivity.
Qed.

Lemma slot_paint_assigned (val : LpVariable -> Q) (paint_codes : list string) (s : Z)
    (c : string) :
  slot_paint val paint_codes s = Some c ->
  c ∈ paint_codes /\ assigned (val (batch_assignment c s)) = true.
Proof.
  unfold slot_paint. destruct (extract_batch val s paint_codes) as [|r l] eqn:He;
    [discriminate|].
  intros [= <-].
  assert (r ∈ extract_batch val s paint_codes) as Hin by (rewrite He; left).
  destruct (extract_batch_first _ _ _ _ Hin) as (_ & before & after & Hsplit & Ha & _).
  split; [|exact Ha]. rewrite Hsplit. apply elem_of_app. right. left.
Qed.

(** With one paint code set at each slot, the batches that the extraction
    gives to a paint code are the slots at which that code is set. *)
Lemma batches_of_extract_eq (val : LpVariable -> Q) (paint_codes : list string)
    (c : string) (slots : list Z) :
  c ∈ paint_codes ->
  (forall s, s ∈ slots ->
     length (filter (fun c => assigned (val (batch_assignment c s)) = true) paint_codes)
     = 1%nat) ->
  length (filter (fun r => b_paint_code r = c)
            (flat_map (fun b => extract_batch val b paint_codes) slots))
  = length (filter (fun s => assigned (val (batch_assignment c s)) = true) slots).
Proof.
  intros Hc. induction slots as [|s slots IH]; intros Hone; [reflexivity|].
  simpl flat_map. rewrite filter_app, length_app, filter_cons.
  rewrite IH by (intros s' Hs'; apply Hone; right; exact Hs').
  destruct (decide (assigned (val (batch_assignment c s)) = true)) as [Ha|Ha].
  - rewrite (extract_batch_of_assigned val paint_codes s c (Hone s ltac:(left)) Hc Ha).
    rewrite filter_cons_True by reflexivity. reflexivity.
  - rewrite (filter_none (fun r => b_paint_code r = c) (extract_batch val s paint_codes));
      [reflexivity|].
    apply Forall_forall. intros r Hr Heq.
    destruct (extract_batch_first _ _ _ _ Hr) as (_ & _ & _ & _ & Ha' & _).
    rewrite Heq in Ha'. contradiction.
Qed.

(** A solved model gives every paint code the number of batches that the
    summary requires. *)
Lemma solved_model_batches (paint_codes : list string) (paint_batches : gmap string Z)
    (T : Z) (ideal_positions : gmap string (list Z)) (prob : LpProblem)
    (val : LpVariable -> Q) (c : string) (n : Z) :
  build_model paint_codes paint_batches T ideal_positions = Ok prob ->
  feasible val prob ->
  binary_assignment val paint_codes T ->
  c ∈ paint_codes -> paint_batches !! c = Some n ->
  batches_of c (extract_solution val paint_codes T) = n.
Proof.
  intros Hbuild Hfeasible Hbin Hc Hn.
  destruct (feasible_assignment _ _ _ _ _ _ Hbuild Hfeasible) as [_ Hcount].
  specialize (Hcount c n Hc Hn).
  rewrite (sum_binary (fun s => val (batch_assignment c s)) (range T)) in Hcount
    by (intros s Hs; apply Hbin; [exact Hc|apply range_elem, Hs]).
  apply (proj1 (inject_Z_injective _ _)) in Hcount.
  rewrite <- Hcount. unfold batches_of, extract_solution. f_equal.
  apply batches_of_extract_eq; [exact Hc|].
  intros s Hs. apply (slot_has_one_code _ _ _ _ _ _ s Hbuild Hfeasible Hbin).
  apply range_elem, Hs.
Qed.

(** The batches of a paint code have room for all its units. *)
Lemma solved_model_capacity (vehicles : list vehicle) (bs : Z) (prob : LpProblem)
    (ideal_positions : gmap string (list Z)) (val : LpVariable -> Q) (c : string) :
  0 < bs ->
  build_model (summary_codes (summary_of vehicles bs))
    (dict_zip (map paint_code (summary_of vehicles bs))
              (map total_batches (summary_of vehicles bs)))
    (schedule_length (summary_of vehicles bs)) ideal_positions = Ok prob ->
  feasible val prob ->
  binary_assignment val (summary_codes (summary_of vehicles bs))
    (schedule_length (summary_of vehicles bs)) ->
  units_with vehicles c
  <= batches_of c (extract_solution val (summary_codes (summary_of vehicles bs))
                     (schedule_length (summary_of vehicles bs))) * bs.
Proof.
  intros Hbs Hbuild Hfeasible Hbin.
  set (summary := summary_of vehicles bs) in *.
  destruct (summary_of_spec vehicles bs) as (_ & Hrows & Hcodes & _). fold summary in Hrows, Hcodes.
  destruct (decide (c ∈ summary_codes summary)) as [Hc|Hc].
  - destruct (paint_batches_lookup summary c Hc) as (r & Hr & Hcode & Hlook).
    rewrite (solved_model_batches _ _ _ _ _ _ c (total_batches r) Hbuild Hfeasible Hbin Hc Hlook).
    destruct (Hrows r Hr) as (Hcount & _ & Htb).
    pose proof (ceiling_correct (vehicle_count r) bs ltac:(lia)) as Hceil.
    rewrite <- Htb in Hceil. unfold is_ceiling in Hceil.
    rewrite Hcode in Hcount. nia.
  - assert (units_with vehicles c = 0) as ->.
    { unfold units_with. rewrite filter_none; [reflexivity|].
      apply Forall_forall. intros v Hv Hp. apply Hc, Hcodes.
      rewrite <- Hp. apply list_elem_of_fmap. exists v. auto. }
    pose proof (batches_of_nonneg c (extract_solution val (summary_codes summary)
                                       (schedule_length summary))). nia.
Qed.

(** The run of the workflow on a solved model: every step returns. *)
Lemma workflow_run (solver : LpProblem -> LpVariable -> Q)
    (w : process) (vehicles : list vehicle) (prob : LpProblem) :
  vehicles_df (self w) = Some vehicles ->
  0 < batch_size (self w) ->
  NoDup (map vin vehicles) ->
  model_of (summary_of vehicles (batch_size (self w))) = Ok prob ->
  feasible (solver prob) prob ->
  binary_assignment (solver prob)
    (summary_codes (summary_of vehicles (batch_size (self w))))
    (schedule_length (summary_of vehicles (batch_size (self w)))) ->
  exists solution m w',
    run_full_optimization solver w = (Ok (solution, m), w')
    /\ map kept_columns solution
       = map kept_columns
           (assign_rows vehicles (batch_size (self w))
              (extract_solution (solver prob)
                 (summary_codes (summary_of vehicles (batch_size (self w))))
                 (schedule_length (summary_of vehicles (batch_size (self w))))))
    /\ m_total_vehicles m = Z.of_nat (length solution)
    /\ m_total_changeovers m = Z.of_nat (transitions (map s_paint solution))
    /\ num_changeovers (self w')
       = count_changeovers (solver prob)
           (schedule_length (summary_of vehicles (batch_size (self w))))
    /\ solution_df (self w') = Some solution
    /\ solved w' = prob :: solved w.
Proof.
  intros Hdf Hbs Hnd Hmodel Hfeasible Hbin.
  set (bs := batch_size (self w)) in *.
  set (summary := summary_of vehicles bs) in *.
  set (codes := summary_codes summary) in *.
  set (T := schedule_length summary) in *.
  set (val := solver prob) in *.
  destruct (optimize_with_model summary solver (with_paint_summary w summary) prob Hmodel)
    as (ip & Hbuild & Hopt).
  fold codes T val in Hbuild, Hopt.
  destruct (solved_model_extraction _ _ _ _ _ _ Hbuild Hfeasible Hbin)
    as (HT & Hslots & _).
  set (bseq := extract_solution val codes T) in *.
  assert (map batch_position bseq = range T) as Hpos.
  { apply extract_positions. intros s Hs. apply Hslots, range_elem, Hs. }
  assert (bseq <> []) as Hne.
  { intros Hnil. rewrite Hnil in Hpos. apply (f_equal length) in Hpos.
    rewrite range_length in Hpos. simpl in Hpos. lia. }
  destruct (assign_rows_transitions vehicles bs bseq Hnd Hbs) as [_ Hlast].
  { intros c. apply (solved_model_room vehicles bs prob ip val c Hbs Hbuild Hfeasible Hbin). }
  set (rows := assign_rows vehicles bs bseq) in *.
  assert (rows <> []) as Hrows.
  { intros Hnil. rewrite Hnil in Hlast. simpl in Hlast. symmetry in Hlast.
    apply last_None in Hlast. destruct bseq; [congruence|discriminate]. }
  unfold run_full_optimization.
  rewrite (mthen_Ok _ _ _ _ _ (analyze_run w vehicles Hdf ltac:(lia))).
  fold bs summary.
  rewrite (mthen_Ok _ _ _ _ _
             (eq_trans (optimize_run_summary solver (with_paint_summary w summary) summary
                          eq_refl) Hopt)).
  match goal with
  | |- context [mthen (assign_vehicles_to_batches bseq) _ ?w2] =>
      rewrite (mthen_Ok _ _ w2 _ _ (assign_run bseq w2 vehicles Hdf Hne))
  end.
  rewrite (by_position_slots bseq T Hpos). simpl batch_size. fold bs rows.
  match goal with
  | |- context [mthen (update_timestamps None 1) _ ?w3] =>
      destruct (update_timestamps_run w3 vehicles rows Hdf eq_refl)
        as (rows' & Hupdate & Hkept);
      rewrite (mthen_Ok _ _ w3 _ _ Hupdate)
  end.
  assert (rows' <> []) as Hrows'.
  { intros Hnil. rewrite Hnil in Hkept. destruct rows; [congruence|discriminate]. }
  unfold generate_summary_metrics, mthen, get_self, lift, ret. simpl.
  rewrite decide_False by exact Hrows'. simpl.
  eexists rows', _, _. split; [reflexivity|]. simpl.
  split; [exact Hkept|]. split; [reflexivity|].
  split; [rewrite changeover_positions_length; reflexivity|]. auto.
Qed.

Lemma kept_columns_rows_of_paint (c : string) (rows rows' : list solution_row) :
  map kept_columns rows' = map kept_columns rows ->
  map source (rows_of_paint c rows') = map source (rows_of_paint c rows).
Proof.
  revert rows. induction rows' as [|r' rows' IH]; intros [|r rows] H; try discriminate;
    [reflexivity|].
  simpl in H. apply (f_equal tail) in H as Hrest. simpl in Hrest.
  apply (f_equal (fun l => l !! 0%nat)) in H as Hr. simpl in Hr.
  unfold kept_columns in Hr. injection Hr as Hvin Hp Hb Hs Ho.
  unfold rows_of_paint in *. rewrite !filter_cons, Hp.
  destruct (decide (s_paint r = Some c)); [|apply IH, Hrest].
  simpl. rewrite (IH _ Hrest). unfold source. rewrite Hvin, Hp, Ho. reflexivity.
Qed.

Lemma sumZ_map_add {A : Type} (f g : A -> Z) (l : list A) :
  sumZ (map (fun a => f a + g a) l) = sumZ (map f l) + sumZ (map g l).
Proof. induction l as [|a l IH]; simpl; lia. Qed.

Lemma sumZ_map_ext {A : Type} (f g : A -> Z) (l : list A) :
  (forall a, a ∈ l -> f a = g a) -> sumZ (map f l) = sumZ (map g l).
Proof.
  induction l as [|a l IH]; intros H; simpl; [reflexivity|].
  rewrite (H a ltac:(left)), IH; [reflexivity|]. intros b Hb. apply H. right. exact Hb.
Qed.

Lemma sum_indicator (codes : list string) (c0 : string) :
  NoDup codes ->
  sumZ (map (fun c => if decide (Some c0 = Some c) then 1 else 0) codes)
  = if decide (c0 ∈ codes) then 1 else 0.
Proof.
  induction 1 as [|c codes Hc _ IH]; simpl.
  - destruct (decide (c0 ∈ [])) as [H|_]; [inversion H|reflexivity].
  - rewrite IH. destruct (decide (Some c0 = Some c)) as [[= ->]|Hne].
    + rewrite decide_False by exact Hc. rewrite decide_True by left. reflexivity.
    + destruct (decide (c0 ∈ codes)) as [Hin|Hnot].
      * rewrite decide_True by (right; exact Hin). reflexivity.
      * rewrite decide_False; [reflexivity|].
        intros Hin. apply elem_of_cons in Hin as [->|Hin]; [congruence|contradiction].
Qed.

(** Rows that all carry one of the codes of a list without repetitions are
    as many as the rows of the single codes together. *)
Lemma length_by_code {A : Type} (k : A -> option string) (codes : list string)
    (l : list A) :
  NoDup codes ->
  Forall (fun a => exists c, k a = Some c /\ c ∈ codes) l ->
  Z.of_nat (length l)
  = sumZ (map (fun c => Z.of_nat (length (filter (fun a => k a = Some c) l))) codes).
Proof.
  intros Hnd. induction 1 as [|a l (c0 & Hk & Hc0) _ IH]; simpl.
  - induction codes as [|c codes IHc]; [reflexivity|].
    simpl. apply NoDup_cons in Hnd as [_ Hnd]. rewrite <- (IHc Hnd). reflexivity.
  - rewrite (sumZ_map_ext _
               (fun c => (if decide (Some c0 = Some c) then 1 else 0)
                         + Z.of_nat (length (filter (fun a => k a = Some c) l)))).
    + rewrite sumZ_map_add, <- IH, (sum_indicator codes c0 Hnd).
      rewrite decide_True by exact Hc0. lia.
    + intros c _. rewrite filter_cons, Hk.
      destruct (decide (Some c0 = Some c)); simpl; lia.
Qed.

(** X26. On a solved model the workflow sequences every painted unit once:
    for a table with distinct VINs, a positive batch size and a solution of
    the built model whose assignment variables are 0 or 1, the workflow
    returns, the rows of each paint code in the returned table are made from
    all the units of that code, in table order, and the metrics count as
    many vehicles as the table has painted units. *)
Theorem workflow_sequences_every_unit (solver : LpProblem -> LpVariable -> Q)
    (w : process) (vehicles : list vehicle) (prob : LpProblem) :
  vehicles_df (self w) = Some vehicles ->
  0 < batch_size (self w) ->
  NoDup (map vin vehicles) ->
  model_of (summary_of vehicles (batch_size (self w))) = Ok prob ->
  feasible (solver prob) prob ->
  binary_assignment (solver prob)
    (summary_codes (summary_of vehicles (batch_size (self w))))
    (schedule_length (summary_of vehicles (batch_size (self w)))) ->
  exists solution m w',
    run_full_optimization solver w = (Ok (solution, m), w')
    /\ (forall c, map source (rows_of_paint c solution)
                  = map unit_key (of_paint c vehicles))
    /\ m_total_vehicles m = painted_units vehicles.
Proof.
  intros Hdf Hbs Hnd Hmodel Hfeasible Hbin.
  destruct (workflow_run solver w vehicles prob Hdf Hbs Hnd Hmodel Hfeasible Hbin)
    as (solution & m & w' & Hrun & Hkept & Htotal & _).
  set (bs := batch_size (self w)) in *.
  set (summary := summary_of vehicles bs) in *.
  set (codes := summary_codes summary) in *.
  set (T := schedule_length summary) in *.
  set (val := solver prob) in *.
  destruct (optimize_with_model summary solver w prob Hmodel) as (ip & Hbuild & _).
  fold codes T val in Hbuild.
  set (bseq := extract_solution val codes T) in *.
  assert (forall c, map source (rows_of_paint c (assign_rows vehicles bs bseq))
                    = map unit_key (of_paint c vehicles)) as Hall.
  { intros c. unfold assign_rows.
    destruct (assign_fold_unique vehicles bs bseq Hnd ltac:(lia)) as (_ & Hinv).
    rewrite Hinv. f_equal. apply take_ge.
    pose proof (solved_model_capacity vehicles bs prob ip val c Hbs Hbuild Hfeasible Hbin)
      as Hroom.
    fold summary codes T bseq in Hroom. unfold units_with in Hroom.
    unfold of_paint. lia. }
  exists solution, m, w'. split; [exact Hrun|]. split.
  - intros c. rewrite (kept_columns_rows_of_paint c _ _ Hkept). apply Hall.
  - rewrite Htotal.
    destruct (summary_of_spec vehicles bs) as (Hcodes & Hrows & _ & Hsum).
    fold summary in Hcodes, Hrows, Hsum.
    assert (length solution = length (assign_rows vehicles bs bseq)) as ->
      by (rewrite <- (length_map kept_columns solution), Hkept, length_map; reflexivity).
    rewrite (length_by_code s_paint codes _ Hcodes).
    + rewrite <- Hsum. unfold codes, summary_codes. rewrite map_map.
      apply sumZ_map_ext. intros r Hr.
      destruct (Hrows r Hr) as (-> & _).
      fold (rows_of_paint (paint_code r) (assign_rows vehicles bs bseq)).
      rewrite <- (length_map source), Hall, length_map. reflexivity.
    + unfold assign_rows.
      eapply Forall_impl; [apply (assign_fold_origin vehicles bs bseq)|].
      intros r (v & b & _ & Hb & Hsrc & Hpaint & _).
      exists (b_paint_code b). split.
      * unfold source, unit_key in Hsrc. congruence.
      * apply (extract_solution_codes val codes T b Hb).
Qed.

Lemma workflow_sequences_every_unit_witness :
  exists solution m w',
    run_full_optimization (fun _ => scenario_solution) (fresh 1 [unit_A1; unit_A2; unit_B3])
    = (Ok (solution, m), w')
    /\ (forall c, map source (rows_of_paint c solution)
                  = map unit_key (of_paint c [unit_A1; unit_A2; unit_B3]))
    /\ m_total_vehicles m = painted_units [unit_A1; unit_A2; unit_B3].
Proof.
  assert (schedule_length (summary_of [unit_A1; unit_A2; unit_B3] 1) = 3) as HT
    by (vm_compute; reflexivity).
  assert (summary_codes (summary_of [unit_A1; unit_A2; unit_B3] 1) = ["A"; "B"]) as Hcodes
    by (vm_compute; reflexivity).
  destruct (model_of (summary_of [unit_A1; unit_A2; unit_B3] 1)) as [prob|e] eqn:Hmodel;
    [|vm_compute in Hmodel; discriminate].
  apply (workflow_sequences_every_unit (fun _ => scenario_solution)
           (fresh 1 [unit_A1; unit_A2; unit_B3]) [unit_A1; unit_A2; unit_B3] prob).
  - reflexivity.
  - simpl. lia.
  - apply (proj1 (bool_decide_eq_true _)). vm_compute. reflexivity.
  - exact Hmodel.
  - vm_compute in Hmodel. injection Hmodel as <-.
    unfold feasible. simpl constraints.
    repeat (apply Forall_cons; split; [unfold holds; vm_compute;
                                       first [reflexivity | discriminate]|]).
    constructor.
  - simpl batch_size. rewrite HT, Hcodes. intros c s Hc Hs.
    assert (s = 0 \/ s = 1 \/ s = 2) as [-> | [-> | ->]] by lia;
      apply elem_of_cons in Hc as [->|Hc];
      try (apply list_elem_of_singleton in Hc as ->);
      first [left; vm_compute; reflexivity | right; vm_compute; reflexivity].
Defined.

Lemma assigned_from_one (v : Q) : (1 <= v)%Q -> assigned v = true.
Proof.
  intros Hv. unfold assigned. destruct (Qle_bool v (1 # 2)) eqn:Hle; [|reflexivity].
  apply Qle_bool_iff in Hle.
  assert (1 <= 1 # 2)%Q as Habs by (eapply Qle_trans; eassumption).
  vm_compute in Habs. contradiction.
Qed.

(** The slots at which a flag is set are at least the places at which the
    value of the slots changes, when the flag is set at every such place. *)
Lemma count_from (g : Z -> option string) (f : Z -> bool) (n : nat) (start : Z) :
  (forall s, start < s <= start + Z.of_nat n -> g s <> g (s - 1)%Z -> f s = true) ->
  (forall s, start <= s <= start + Z.of_nat n -> is_Some (g s)) ->
  (transitions (map g (seqZ start (Z.of_nat (S n))))
   <= length (filter (fun s => f s = true) (seqZ (start + 1) (Z.of_nat n))))%nat.
Proof.
  revert start. induction n as [|n IH]; intros start Hflag Hsome.
  - simpl. lia.
  - specialize (IH (start + 1)).
    rewrite (seqZ_S start (S n)), (seqZ_S (start + 1) n) in *.
    simpl map in *.
    change (transitions (g start :: g (start + 1)%Z :: ?l))
      with ((if paint_differs (g (start + 1)%Z) (g start) then 1 else 0)
            + transitions (g (start + 1)%Z :: l))%nat.
    rewrite filter_cons.
    specialize (IH ltac:(intros s Hs; apply Hflag; lia) ltac:(intros s Hs; apply Hsome; lia)).
    destruct (Hsome start ltac:(lia)) as [a Ha].
    destruct (Hsome (start + 1) ltac:(lia)) as [b Hb].
    destruct (decide (f (start + 1) = true)) as [Hf|Hf].
    + simpl length. destruct (paint_differs _ _); lia.
    + assert (g (start + 1) = g start) as Hsame.
      { destruct (decide (g (start + 1) = g start)) as [H|H]; [exact H|].
        exfalso. apply Hf, Hflag; [lia|].
        replace (start + 1 - 1) with start by lia. exact H. }
      rewrite Hsame, Ha in IH |- *. simpl paint_differs.
      rewrite bool_decide_eq_false_2 by (intros H; apply H; reflexivity). lia.
Qed.

(** In a solved model the changeover variable is set at the first slot and
    wherever the paint code of a slot differs from the one before. *)
Lemma count_changeovers_lower (paint_codes : list string) (paint_batches : gmap string Z)
    (T : Z) (ideal_positions : gmap string (list Z)) (prob : LpProblem)
    (val : LpVariable -> Q) :
  build_model paint_codes paint_batches T ideal_positions = Ok prob ->
  feasible val prob ->
  binary_assignment val paint_codes T ->
  1 + Z.of_nat (transitions (map (slot_paint val paint_codes) (range T)))
  <= count_changeovers val T.
Proof.
  intros Hbuild Hfeasible Hbin.
  destruct (solved_model_extraction _ _ _ _ _ _ Hbuild Hfeasible Hbin) as (HT & Hslots & _).
  assert (forall s, 0 <= s < T -> is_Some (slot_paint val paint_codes s)) as Hsome.
  { intros s Hs. unfold slot_paint.
    destruct (extract_batch_some val s paint_codes (Hslots s Hs)) as [c ->]. eauto. }
  assert ((val (changeover 0) == 1)%Q
          /\ forall s c, 1 <= s < T -> c ∈ paint_codes ->
               (val (batch_assignment c s) - val (batch_assignment c (s - 1))
                <= val (changeover s))%Q) as [Hfirst Hdetect].
  { destruct (build_model_families _ _ _ _ _ Hbuild)
      as (c2 & c0 & c4 & _ & Hc0 & _ & _ & _ & Hfeas).
    destruct (proj1 (Hfeas val) Hfeasible) as (_ & _ & H3 & H0 & _).
    split.
    - apply (proj2 (first_batch_setup_holds val T c0 Hc0)), H0.
    - apply changeover_detect_holds, H3. }
  unfold count_changeovers, range.
  assert (exists n, T = Z.of_nat (S n)) as [n HTn] by (exists (Z.to_nat (T - 1)); lia).
  rewrite HTn. rewrite (seqZ_S 0 n) at 2. rewrite filter_cons.
  rewrite decide_True by (apply assigned_from_one; rewrite Hfirst; apply Qle_refl).
  simpl length.
  assert (transitions (map (slot_paint val paint_codes) (seqZ 0 (Z.of_nat (S n))))
          <= length (filter (fun s => assigned (val (changeover s)) = true)
                       (seqZ (0 + 1) (Z.of_nat n))))%nat as Hle.
  { apply (count_from (slot_paint val paint_codes)
             (fun s => assigned (val (changeover s))) n 0).
    - intros s Hs Hdiff.
      destruct (Hsome s ltac:(lia)) as [c Hc].
      destruct (Hsome (s - 1) ltac:(lia)) as [c' Hc'].
      destruct (slot_paint_assigned _ _ _ _ Hc) as [Hin Ha].
      destruct (slot_paint_assigned _ _ _ _ Hc') as [Hin' Ha'].
      assert (c <> c') as Hne by (intros ->; apply Hdiff; congruence).
      assert ((val (batch_assignment c s) == 1)%Q) as H1.
      { destruct (Hbin c s Hin ltac:(lia)) as [H|H]; [|exact H].
        rewrite (assigned_zero _ H) in Ha. discriminate. }
      assert ((val (batch_assignment c (s - 1)) == 0)%Q) as H0.
      { destruct (Hbin c (s - 1) Hin ltac:(lia)) as [H|H]; [exact H|].
        exfalso. apply Hne.
        apply (one_code_unique val paint_codes (s - 1) c c');
          [|exact Hin|apply assigned_one, H|exact Hin'|exact Ha'].
        apply (slot_has_one_code _ _ _ _ _ _ (s - 1) Hbuild Hfeasible Hbin). lia. }
      apply assigned_from_one.
      specialize (Hdetect s c ltac:(lia) Hin). rewrite H1, H0 in Hdetect. exact Hdetect.
    - intros s Hs. apply Hsome. lia. }
  lia.
Qed.

(** X27. The changeover count that the optimisation step keeps is never
    below the one of the metrics plus the setup: for a table with distinct
    VINs, a positive batch size and any solution of the built model whose
    assignment variables are 0 or 1, the workflow returns with
    [total_changeovers + 1 <= num_changeovers]. *)
Theorem workflow_changeovers_at_least (solver : LpProblem -> LpVariable -> Q)
    (w : process) (vehicles : list vehicle) (prob : LpProblem) :
  vehicles_df (self w) = Some vehicles ->
  0 < batch_size (self w) ->
  NoDup (map vin vehicles) ->
  model_of (summary_of vehicles (batch_size (self w))) = Ok prob ->
  feasible (solver prob) prob ->
  binary_assignment (solver prob)
    (summary_codes (summary_of vehicles (batch_size (self w))))
    (schedule_length (summary_of vehicles (batch_size (self w)))) ->
  exists solution m w',
    run_full_optimization solver w = (Ok (solution, m), w')
    /\ m_total_changeovers m + 1 <= num_changeovers (self w').
Proof.
  intros Hdf Hbs Hnd Hmodel Hfeasible Hbin.
  destruct (workflow_run solver w vehicles prob Hdf Hbs Hnd Hmodel Hfeasible Hbin)
    as (solution & m & w' & Hrun & Hkept & _ & Hm & Hnum & _).
  exists solution, m, w'. split; [exact Hrun|]. rewrite Hm, Hnum.
  set (bs := batch_size (self w)) in *.
  set (summary := summary_of vehicles bs) in *.
  set (codes := summary_codes summary) in *.
  set (T := schedule_length summary) in *.
  set (val := solver prob) in *.
  destruct (optimize_with_model summary solver w prob Hmodel) as (ip & Hbuild & _).
  fold codes T val in Hbuild.
  destruct (solved_model_extraction _ _ _ _ _ _ Hbuild Hfeasible Hbin) as (HT & Hslots & _).
  destruct (assign_rows_transitions vehicles bs (extract_solution val codes T) Hnd Hbs)
    as [Htr _].
  { intros c. apply (solved_model_room vehicles bs prob ip val c Hbs Hbuild Hfeasible Hbin). }
  destruct (slot_paints_extract val codes (range T)) as [Hpaints _].
  { intros s Hs. apply Hslots, range_elem, Hs. }
  fold (extract_solution val codes T) in Hpaints.
  rewrite (kept_columns_paint _ _ Hkept), Htr, Hpaints.
  pose proof (count_changeovers_lower codes _ T ip prob val Hbuild Hfeasible Hbin). lia.
Qed.

Lemma workflow_changeovers_at_least_witness :
  exists solution m w',
    run_full_optimization (fun _ => scenario_solution) (fresh 1 [unit_A1; unit_A2; unit_B3])
    = (Ok (solution, m), w')
    /\ m_total_changeovers m + 1 <= num_changeovers (self w').
Proof.
  assert (schedule_length (summary_of [unit_A1; unit_A2; unit_B3] 1) = 3) as HT
    by (vm_compute; reflexivity).
  assert (summary_codes (summary_of [unit_A1; unit_A2; unit_B3] 1) = ["A"; "B"]) as Hcodes
    by (vm_compute; reflexivity).
  destruct (model_of (summary_of [unit_A1; unit_A2; unit_B3] 1)) as [prob|e] eqn:Hmodel;
    [|vm_compute in Hmodel; discriminate].
  apply (workflow_changeovers_at_least (fun _ => scenario_solution)
           (fresh 1 [unit_A1; unit_A2; unit_B3]) [unit_A1; unit_A2; unit_B3] prob).
  - reflexivity.
  - simpl. lia.
  - apply (proj1 (bool_decide_eq_true _)). vm_compute. reflexivity.
  - exact Hmodel.
  - vm_compute in Hmodel. injection Hmodel as <-.
    unfold feasible. simpl constraints.
    repeat (apply Forall_cons; split; [unfold holds; vm_compute;
                                       first [reflexivity | discriminate]|]).
    constructor.
  - simpl batch_size. rewrite HT, Hcodes. intros c s Hc Hs.
    assert (s = 0 \/ s = 1 \/ s = 2) as [-> | [-> | ->]] by lia;
      apply elem_of_cons in Hc as [->|Hc];
      try (apply list_elem_of_singleton in Hc as ->);
      first [left; vm_compute; reflexivity | right; vm_compute; reflexivity].
Defined.

(** ** The optimisation step on short schedules *)







(** ** The object before and after loading *)

(** X29. On an object as the constructor leaves it every step raises and
    changes nothing: the analysis, the optimisation, the stamping and the
    assignment of a batch sequence with rows raise [TypeError], the
    assignment of an empty batch sequence raises [KeyError], and the metrics
    raise [ValueError]. *)
Theorem fresh_object_raises (bs : Z) (solver : LpProblem -> LpVariable -> Q)
    (batch_sequence : list batch_row) (start_datetime : option (option Z))
    (increment_minutes : Z) :
  let w := Process (init bs) [] in
  analyze_paint_distribution w = (Raise "TypeError", w)
  /\ optimize_sequence_milp solver w = (Raise "TypeError", w)
  /\ assign_vehicles_to_batches batch_sequence w
     = (Raise (if decide (batch_sequence = []) then "KeyError" else "TypeError"), w)
  /\ update_timestamps start_datetime increment_minutes w = (Raise "TypeError", w)
  /\ generate_summary_metrics w = (Raise "ValueError", w).
Proof.
  simpl. split; [reflexivity|]. split; [reflexivity|]. split; [|split; [|reflexivity]].
  - unfold assign_vehicles_to_batches, mthen, get_self, lift, ret, frame. simpl.
    destruct (decide (batch_sequence = [])); reflexivity.
  - destruct start_datetime; reflexivity.
Qed.

Lemma optimize_with_ignores_table (summary : list summary_row)
    (solver : LpProblem -> LpVariable -> Q) (w1 w2 : process) :
  (optimize_with summary solver w1).1 = (optimize_with summary solver w2).1.
Proof.
  unfold optimize_with.
  destruct (ideal_positions_of _ _ _) as [ip|e]; [|reflexivity].
  destruct (build_model _ _ _ ip) as [prob|e]; reflexivity.
Qed.

(** X30. Loading a table does not reset the summary: once the object holds
    a summary, the optimisation step works from that summary and does not
    read the unit table, so that after loading another table it returns what
    it would have returned before. *)
Theorem reload_keeps_summary (solver : LpProblem -> LpVariable -> Q) (w : process)
    (summary : list summary_row) (sheet : list vehicle) :
  paint_summary (self w) = Some summary ->
  paint_summary (self (load_data sheet w).2) = Some summary
  /\ (optimize_sequence_milp solver (load_data sheet w).2).1
     = (optimize_sequence_milp solver w).1.
Proof.
  intros Hsummary. split; [exact Hsummary|].
  rewrite (optimize_run_summary solver w summary Hsummary).
  rewrite (optimize_run_summary solver (load_data sheet w).2 summary Hsummary).
  apply optimize_with_ignores_table.
Qed.

Lemma reload_keeps_summary_witness :
  paint_summary (self (load_data [unit_B3]
                         (with_paint_summary (fresh 1 [unit_A1; unit_A2])
                            (summary_of [unit_A1; unit_A2] 1))).2)
  = Some (summary_of [unit_A1; unit_A2] 1)
  /\ (optimize_sequence_milp (fun _ => scenario_solution)
        (load_data [unit_B3]
           (with_paint_summary (fresh 1 [unit_A1; unit_A2])
              (summary_of [unit_A1; unit_A2] 1))).2).1
     = (optimize_sequence_milp (fun _ => scenario_solution)
          (with_paint_summary (fresh 1 [unit_A1; unit_A2])
             (summary_of [unit_A1; unit_A2] 1))).1.
Proof.
  apply (reload_keeps_summary (fun _ => scenario_solution)
           (with_paint_summary (fresh 1 [unit_A1; unit_A2])
              (summary_of [unit_A1; unit_A2] 1))
           (summary_of [unit_A1; unit_A2] 1) [unit_B3]).
  reflexivity.
Defined.
